(** * MindtPy outer approximation: the iteration controller

    A shallow embedding of [pyomo/contrib/mindtpy/outer_approximation.py]
    (class [MindtPy_OA_Solver]): configuration checking, the set-up part of
    [solve], the model split of [initialize_mip_problem], the main loop
    [MindtPy_iteration_loop] with its solution-pool exploration, and the
    eviction step [deactivate_no_good_cuts_when_fixing_bound].

    Conventions.
    - Python attributes keep their names.  The configuration block and the
      solver object are records; an assignment [obj.f = v] is [set_f v obj].
    - Methods of the base class [_MindtPyAlgorithm] and the helpers imported
      from [pyomo.contrib.mindtpy.util], [pyomo.contrib.gdpopt.util] and
      [pyomo.contrib.mindtpy.cut_generation] are not part of this file: they
      are the fields of the record [Collaborators], arbitrary functions on
      the solver object.  Each call to one of them is recorded in a call
      log, with the solver object as it was when the call was made.
    - A collaborator receives the configuration block read-only: the only
      code that assigns to [config.*] is [check_config].
    - Exceptions are results: [Raised e].  The [while] loop takes fuel;
      [OutOfFuel] is the result of a run that needs more iterations.
    - Bounds are floats; the objective values of a solution pool, which
      the loop only sorts, are rationals.
    - Calls to [config.logger] and the timing context managers are left
      out. *)

From Stdlib Require Import ZArith List String Bool Lia.
From Stdlib Require Import QArith Floats Permutation Sorted.
Import ListNotations.
Local Open Scope string_scope.
Local Open Scope list_scope.
Local Open Scope Z_scope.

Set Implicit Arguments.

(** ** Python values used by the controller *)

Inductive Exn : Type :=
| ValueError
| IndexError
| KeyError
| StopIteration
| AttributeError
| UnboundLocalError.

(** The result of running a piece of Python. *)
Inductive Res (A : Type) : Type :=
| Returned (a : A)
| Raised (e : Exn)
| OutOfFuel.
Arguments Raised {A} e.
Arguments OutOfFuel {A}.

(** [x is None] and [x is not None]. *)
Definition is_None {A : Type} (x : option A) : bool :=
  match x with None => true | Some _ => false end.

Definition is_not_None {A : Type} (x : option A) : bool := negb (is_None x).

(** [s in {..}] for a set of string literals. *)
Fixpoint str_in (s : string) (l : list string) : bool :=
  match l with
  | [] => false
  | x :: l' => String.eqb s x || str_in s l'
  end.

(** [x in {..}] where [x] may be [None]: [None] is in no set of strings. *)
Definition opt_str_in (x : option string) (l : list string) : bool :=
  match x with None => false | Some s => str_in s l end.

(** [a != b] on Python floats (IEEE: [nan != nan] holds). *)
Definition float_ne (a b : float) : bool := negb (PrimFloat.eqb a b).

(** [pyomo.core.minimize] and [pyomo.core.maximize]. *)
Inductive Sense : Type := minimize | maximize.

Definition Sense_eqb (a b : Sense) : bool :=
  match a, b with
  | minimize, minimize | maximize, maximize => true
  | _, _ => false
  end.

(** [pyomo.opt.TerminationCondition], the members a MILP solve reports. *)
Inductive TerminationCondition : Type :=
| tc_optimal
| tc_infeasible
| tc_feasible
| tc_unbounded
| tc_infeasibleOrUnbounded
| tc_maxTimeLimit
| tc_maxIterations
| tc_noSolution
| tc_other
| tc_error.

(** [a is b] on members of the enumeration. *)
Definition tc_is (a b : TerminationCondition) : bool :=
  match a, b with
  | tc_optimal, tc_optimal | tc_infeasible, tc_infeasible
  | tc_feasible, tc_feasible | tc_unbounded, tc_unbounded
  | tc_infeasibleOrUnbounded, tc_infeasibleOrUnbounded
  | tc_maxTimeLimit, tc_maxTimeLimit | tc_maxIterations, tc_maxIterations
  | tc_noSolution, tc_noSolution | tc_other, tc_other
  | tc_error, tc_error => true
  | _, _ => false
  end.

(** ** The configuration block

    The options of [CONFIG] that [outer_approximation.py] reads or
    assigns. *)
Record Config : Type := {
  add_regularization : option string;
  calculate_dual_at_solution : bool;
  regularization_mip_threads : Z;
  threads : Z;
  single_tree : bool;
  add_cuts_at_incumbent : bool;
  reduce_level_coef : bool;
  use_bb_tree_incumbent : bool;
  mip_regularization_solver : option string;
  mip_solver : string;
  iteration_limit : Z;
  add_slack : bool;
  heuristic_nonconvex : bool;
  equality_relaxation : bool;
  init_strategy : string;
  move_objective : bool;
  add_no_good_cuts : bool;
  use_tabu_list : bool;
  solution_pool : bool;
  num_solution_iteration : Z;
  integer_to_binary : bool;
  fp_projcuts : bool;
  use_mcpp : bool;
  partition_obj_nonlinear_terms : bool
}.

(** [config.f = v] for the options [check_config] assigns. *)
Definition set_calculate_dual_at_solution (v : bool) (c : Config) : Config :=
  Build_Config (add_regularization c) v (regularization_mip_threads c)
    (threads c) (single_tree c) (add_cuts_at_incumbent c)
    (reduce_level_coef c) (use_bb_tree_incumbent c)
    (mip_regularization_solver c) (mip_solver c) (iteration_limit c)
    (add_slack c) (heuristic_nonconvex c) (equality_relaxation c)
    (init_strategy c) (move_objective c) (add_no_good_cuts c)
    (use_tabu_list c) (solution_pool c) (num_solution_iteration c)
    (integer_to_binary c) (fp_projcuts c) (use_mcpp c)
    (partition_obj_nonlinear_terms c).

Definition set_regularization_mip_threads (v : Z) (c : Config) : Config :=
  Build_Config (add_regularization c) (calculate_dual_at_solution c) v
    (threads c) (single_tree c) (add_cuts_at_incumbent c)
    (reduce_level_coef c) (use_bb_tree_incumbent c)
    (mip_regularization_solver c) (mip_solver c) (iteration_limit c)
    (add_slack c) (heuristic_nonconvex c) (equality_relaxation c)
    (init_strategy c) (move_objective c) (add_no_good_cuts c)
    (use_tabu_list c) (solution_pool c) (num_solution_iteration c)
    (integer_to_binary c) (fp_projcuts c) (use_mcpp c)
    (partition_obj_nonlinear_terms c).

Definition set_add_cuts_at_incumbent (v : bool) (c : Config) : Config :=
  Build_Config (add_regularization c) (calculate_dual_at_solution c)
    (regularization_mip_threads c) (threads c) (single_tree c) v
    (reduce_level_coef c) (use_bb_tree_incumbent c)
    (mip_regularization_solver c) (mip_solver c) (iteration_limit c)
    (add_slack c) (heuristic_nonconvex c) (equality_relaxation c)
    (init_strategy c) (move_objective c) (add_no_good_cuts c)
    (use_tabu_list c) (solution_pool c) (num_solution_iteration c)
    (integer_to_binary c) (fp_projcuts c) (use_mcpp c)
    (partition_obj_nonlinear_terms c).

Definition set_use_bb_tree_incumbent (v : bool) (c : Config) : Config :=
  Build_Config (add_regularization c) (calculate_dual_at_solution c)
    (regularization_mip_threads c) (threads c) (single_tree c)
    (add_cuts_at_incumbent c) (reduce_level_coef c) v
    (mip_regularization_solver c) (mip_solver c) (iteration_limit c)
    (add_slack c) (heuristic_nonconvex c) (equality_relaxation c)
    (init_strategy c) (move_objective c) (add_no_good_cuts c)
    (use_tabu_list c) (solution_pool c) (num_solution_iteration c)
    (integer_to_binary c) (fp_projcuts c) (use_mcpp c)
    (partition_obj_nonlinear_terms c).

Definition set_mip_regularization_solver (v : option string) (c : Config) : Config :=
  Build_Config (add_regularization c) (calculate_dual_at_solution c)
    (regularization_mip_threads c) (threads c) (single_tree c)
    (add_cuts_at_incumbent c) (reduce_level_coef c) (use_bb_tree_incumbent c)
    v (mip_solver c) (iteration_limit c) (add_slack c)
    (heuristic_nonconvex c) (equality_relaxation c) (init_strategy c)
    (move_objective c) (add_no_good_cuts c) (use_tabu_list c)
    (solution_pool c) (num_solution_iteration c) (integer_to_binary c)
    (fp_projcuts c) (use_mcpp c) (partition_obj_nonlinear_terms c).

Definition set_iteration_limit (v : Z) (c : Config) : Config :=
  Build_Config (add_regularization c) (calculate_dual_at_solution c)
    (regularization_mip_threads c) (threads c) (single_tree c)
    (add_cuts_at_incumbent c) (reduce_level_coef c) (use_bb_tree_incumbent c)
    (mip_regularization_solver c) (mip_solver c) v (add_slack c)
    (heuristic_nonconvex c) (equality_relaxation c) (init_strategy c)
    (move_objective c) (add_no_good_cuts c) (use_tabu_list c)
    (solution_pool c) (num_solution_iteration c) (integer_to_binary c)
    (fp_projcuts c) (use_mcpp c) (partition_obj_nonlinear_terms c).

Definition set_add_slack (v : bool) (c : Config) : Config :=
  Build_Config (add_regularization c) (calculate_dual_at_solution c)
    (regularization_mip_threads c) (threads c) (single_tree c)
    (add_cuts_at_incumbent c) (reduce_level_coef c) (use_bb_tree_incumbent c)
    (mip_regularization_solver c) (mip_solver c) (iteration_limit c) v
    (heuristic_nonconvex c) (equality_relaxation c) (init_strategy c)
    (move_objective c) (add_no_good_cuts c) (use_tabu_list c)
    (solution_pool c) (num_solution_iteration c) (integer_to_binary c)
    (fp_projcuts c) (use_mcpp c) (partition_obj_nonlinear_terms c).

Definition set_threads (v : Z) (c : Config) : Config :=
  Build_Config (add_regularization c) (calculate_dual_at_solution c)
    (regularization_mip_threads c) v (single_tree c)
    (add_cuts_at_incumbent c) (reduce_level_coef c) (use_bb_tree_incumbent c)
    (mip_regularization_solver c) (mip_solver c) (iteration_limit c)
    (add_slack c) (heuristic_nonconvex c) (equality_relaxation c)
    (init_strategy c) (move_objective c) (add_no_good_cuts c)
    (use_tabu_list c) (solution_pool c) (num_solution_iteration c)
    (integer_to_binary c) (fp_projcuts c) (use_mcpp c)
    (partition_obj_nonlinear_terms c).

Definition set_equality_relaxation (v : bool) (c : Config) : Config :=
  Build_Config (add_regularization c) (calculate_dual_at_solution c)
    (regularization_mip_threads c) (threads c) (single_tree c)
    (add_cuts_at_incumbent c) (reduce_level_coef c) (use_bb_tree_incumbent c)
    (mip_regularization_solver c) (mip_solver c) (iteration_limit c)
    (add_slack c) (heuristic_nonconvex c) v (init_strategy c)
    (move_objective c) (add_no_good_cuts c) (use_tabu_list c)
    (solution_pool c) (num_solution_iteration c) (integer_to_binary c)
    (fp_projcuts c) (use_mcpp c) (partition_obj_nonlinear_terms c).

Definition set_move_objective (v : bool) (c : Config) : Config :=
  Build_Config (add_regularization c) (calculate_dual_at_solution c)
    (regularization_mip_threads c) (threads c) (single_tree c)
    (add_cuts_at_incumbent c) (reduce_level_coef c) (use_bb_tree_incumbent c)
    (mip_regularization_solver c) (mip_solver c) (iteration_limit c)
    (add_slack c) (heuristic_nonconvex c) (equality_relaxation c)
    (init_strategy c) v (add_no_good_cuts c) (use_tabu_list c)
    (solution_pool c) (num_solution_iteration c) (integer_to_binary c)
    (fp_projcuts c) (use_mcpp c) (partition_obj_nonlinear_terms c).

(** ** Models

    What the controller does not look into: expressions, the variables of
    a model (values, bounds, domains), the jacobians, the model a
    persistent MILP solver keeps, and the attributes of the solver object
    this file never names. *)
Class Domain : Type := {
  Expr : Type;
  polynomial_degree : Expr -> option Z;
  Vars : Type;
  var_values : Vars -> list (option float);
  Jacobians : Type;
  SolverModel : Type;
  Ext : Type
}.

(** A tuple of discrete variable values, as [get_integer_solution] builds
    it: rounded integers, or with [string_zero] the string of a zero
    value. *)
Inductive AsgVal : Type :=
| AInt (z : Z)
| AStr (s : string).

Definition IntegerAssignment : Type := list AsgVal.

Definition AsgVal_eqb (a b : AsgVal) : bool :=
  match a, b with
  | AInt x, AInt y => Z.eqb x y
  | AStr x, AStr y => String.eqb x y
  | _, _ => false
  end.

Fixpoint asg_eqb (a b : IntegerAssignment) : bool :=
  match a, b with
  | [], [] => true
  | x :: a', y :: b' => AsgVal_eqb x y && asg_eqb a' b'
  | _, _ => false
  end.

(** [a in set(l)]. *)
Definition asg_in (a : IntegerAssignment) (l : list IntegerAssignment) : bool :=
  existsb (asg_eqb a) l.

(** The name of a solution in a solution pool: a string with CPLEX, its
    index with Gurobi. *)
Inductive PoolName : Type :=
| pool_str (s : string)
| pool_idx (i : Z).

(** The states of the controller and the reason it reports on exit. *)
Inductive ControllerState : Type :=
| RUNNING
| CONVERGED
| MAIN_INFEASIBLE
| CYCLING_STOP
| LIMIT_STOP
| ERROR_STOP.

(** [self.results]: the termination reason and [results.solver.num_nodes]. *)
Record Results : Type := {
  termination_reason : ControllerState;
  num_nodes : option Z
}.

Definition set_num_nodes (v : option Z) (r : Results) : Results :=
  Build_Results (termination_reason r) v.


Section DataModel.
Context {D : Domain}.

Record ConstraintData : Type := {
  con_active : bool;
  con_body : Expr
}.

(** Modelled from the spec: the container [ConstraintList] of [pyomo.core]
    is not among the sources.  It is an ordered collection that is only
    appended to; its members are numbered from 1 in the order they were
    added, so [c[len(c)]] is the member added last and [c[0]] is no
    member.  Deactivating the container deactivates its members. *)
Record ConstraintList : Type := {
  cl_active : bool;
  cl_members : list ConstraintData
}.

Record ObjectiveData : Type := {
  obj_active : bool;
  obj_sense : Sense;
  obj_expr : Expr
}.

(** The members of the block [MindtPy_utils.cuts] this file names; [None]
    is a member that has not been created. *)
Record Cuts : Type := {
  oa_cuts : option ConstraintList;
  fp_orthogonality_cuts : option ConstraintList;
  no_good_cuts : option ConstraintList
}.

(** The block [MindtPy_utils].  [objective_list] and [objective] refer to
    objectives of the model by their position in [objectives]: the
    objects are shared, not copied. *)
Record Utils : Type := {
  objective_list : list nat;
  objective : option nat;
  objective_constr : option ConstraintList;
  cuts : Cuts
}.

(** A Pyomo model as the controller sees it.  [objectives] are the
    objective components in declaration order, [constraints] the
    constraints outside [MindtPy_utils], [dual_active] the state of the
    suffix [dual]. *)
Record Model : Type := {
  objectives : list ObjectiveData;
  constraints : list ConstraintData;
  variables : Vars;
  dual_active : bool;
  MindtPy_utils : Utils
}.

Definition set_objectives (v : list ObjectiveData) (m : Model) : Model :=
  Build_Model v (constraints m) (variables m) (dual_active m) (MindtPy_utils m).

Definition set_variables (v : Vars) (m : Model) : Model :=
  Build_Model (objectives m) (constraints m) v (dual_active m) (MindtPy_utils m).

Definition set_dual_active (v : bool) (m : Model) : Model :=
  Build_Model (objectives m) (constraints m) (variables m) v (MindtPy_utils m).

Definition set_MindtPy_utils (v : Utils) (m : Model) : Model :=
  Build_Model (objectives m) (constraints m) (variables m) (dual_active m) v.

Definition set_objective_constr (v : option ConstraintList) (u : Utils) : Utils :=
  Build_Utils (objective_list u) (objective u) v (cuts u).

Definition set_cuts (v : Cuts) (u : Utils) : Utils :=
  Build_Utils (objective_list u) (objective u) (objective_constr u) v.

Definition set_oa_cuts (v : option ConstraintList) (c : Cuts) : Cuts :=
  Build_Cuts v (fp_orthogonality_cuts c) (no_good_cuts c).

Definition set_fp_orthogonality_cuts (v : option ConstraintList) (c : Cuts) : Cuts :=
  Build_Cuts (oa_cuts c) v (no_good_cuts c).

(** [ConstraintList(doc=...)]: a new, empty, active list. *)
Definition new_ConstraintList : ConstraintList :=
  {| cl_active := true; cl_members := [] |}.

(** [c.deactivate()] on one constraint, on one objective and on a
    container. *)
Definition con_deactivate (c : ConstraintData) : ConstraintData :=
  {| con_active := false; con_body := con_body c |}.

Definition obj_set_active (b : bool) (o : ObjectiveData) : ObjectiveData :=
  {| obj_active := b; obj_sense := obj_sense o; obj_expr := obj_expr o |}.

Definition cl_deactivate (c : ConstraintList) : ConstraintList :=
  {| cl_active := false; cl_members := map con_deactivate (cl_members c) |}.

(** [l[i] = f(l[i])]; nothing changes when [i] is no position of [l]. *)
Fixpoint update_nth {A : Type} (i : nat) (f : A -> A) (l : list A) : list A :=
  match l, i with
  | [], _ => []
  | x :: l', O => f x :: l'
  | x :: l', S i' => x :: update_nth i' f l'
  end.

(** [len(c)] and [c[i]] of a [ConstraintList]: members are numbered from
    1; any other index is a [KeyError]. *)
Definition cl_len (c : ConstraintList) : Z := Z.of_nat (List.length (cl_members c)).

Definition cl_getitem (c : ConstraintList) (i : Z) : option ConstraintData :=
  if (1 <=? i) && (i <=? cl_len c)
  then nth_error (cl_members c) (Z.to_nat (i - 1))
  else None.

(** [c[i].deactivate()] for a member [i]. *)
Definition cl_deactivate_item (c : ConstraintList) (i : Z) : ConstraintList :=
  {| cl_active := cl_active c;
     cl_members := update_nth (Z.to_nat (i - 1)) con_deactivate (cl_members c) |}.

(** The number of constraints of a model: its own and the members of the
    lists of [MindtPy_utils]. *)
Definition opt_cl_count (c : option ConstraintList) : nat :=
  match c with None => O | Some l => List.length (cl_members l) end.

Definition constraint_count (m : Model) : nat :=
  (List.length (constraints m)
   + opt_cl_count (objective_constr (MindtPy_utils m))
   + opt_cl_count (oa_cuts (cuts (MindtPy_utils m)))
   + opt_cl_count (fp_orthogonality_cuts (cuts (MindtPy_utils m)))
   + opt_cl_count (no_good_cuts (cuts (MindtPy_utils m))))%nat.

(** The senses of the objectives of a model, in declaration order. *)
Definition objective_senses (m : Model) : list Sense :=
  map obj_sense (objectives m).

(** What a solver call returns: [results.solver.termination_condition]
    and, for a persistent solver, [results._solver_model]. *)
Record SolverResults : Type := {
  termination_condition : TerminationCondition;
  _solver_model : SolverModel
}.

(** ** The solver object *)
Record Solver : Type := {
  working_model : Model;
  mip : option Model;
  jacobians : option Jacobians;
  results : Results;
  mip_objective_polynomial_degree : list Z;
  initial_var_values : list (option float);
  best_solution_found : option Model;
  best_solution_found_time : option float;
  nlp_iter : Z;
  mip_iter : Z;
  mip_subiter : Z;
  dual_bound : float;
  dual_bound_progress : list float;
  curr_int_sol : IntegerAssignment;
  integer_list : list IntegerAssignment;
  should_terminate : bool;
  objective_sense : Sense;
  regularization_mip_type : option string;
  ext : Ext
}.

Definition set_working_model (v : Model) (c : Solver) : Solver :=
  Build_Solver v (mip c) (jacobians c) (results c)
    (mip_objective_polynomial_degree c) (initial_var_values c)
    (best_solution_found c) (best_solution_found_time c) (nlp_iter c)
    (mip_iter c) (mip_subiter c) (dual_bound c) (dual_bound_progress c)
    (curr_int_sol c) (integer_list c) (should_terminate c)
    (objective_sense c) (regularization_mip_type c) (ext c).

Definition set_mip (v : option Model) (c : Solver) : Solver :=
  Build_Solver (working_model c) v (jacobians c) (results c)
    (mip_objective_polynomial_degree c) (initial_var_values c)
    (best_solution_found c) (best_solution_found_time c) (nlp_iter c)
    (mip_iter c) (mip_subiter c) (dual_bound c) (dual_bound_progress c)
    (curr_int_sol c) (integer_list c) (should_terminate c)
    (objective_sense c) (regularization_mip_type c) (ext c).

Definition set_jacobians (v : option Jacobians) (c : Solver) : Solver :=
  Build_Solver (working_model c) (mip c) v (results c)
    (mip_objective_polynomial_degree c) (initial_var_values c)
    (best_solution_found c) (best_solution_found_time c) (nlp_iter c)
    (mip_iter c) (mip_subiter c) (dual_bound c) (dual_bound_progress c)
    (curr_int_sol c) (integer_list c) (should_terminate c)
    (objective_sense c) (regularization_mip_type c) (ext c).

Definition set_results (v : Results) (c : Solver) : Solver :=
  Build_Solver (working_model c) (mip c) (jacobians c) v
    (mip_objective_polynomial_degree c) (initial_var_values c)
    (best_solution_found c) (best_solution_found_time c) (nlp_iter c)
    (mip_iter c) (mip_subiter c) (dual_bound c) (dual_bound_progress c)
    (curr_int_sol c) (integer_list c) (should_terminate c)
    (objective_sense c) (regularization_mip_type c) (ext c).

Definition set_initial_var_values (v : list (option float)) (c : Solver) : Solver :=
  Build_Solver (working_model c) (mip c) (jacobians c) (results c)
    (mip_objective_polynomial_degree c) v (best_solution_found c)
    (best_solution_found_time c) (nlp_iter c) (mip_iter c) (mip_subiter c)
    (dual_bound c) (dual_bound_progress c) (curr_int_sol c) (integer_list c)
    (should_terminate c) (objective_sense c) (regularization_mip_type c)
    (ext c).

Definition set_best_solution_found (v : option Model) (c : Solver) : Solver :=
  Build_Solver (working_model c) (mip c) (jacobians c) (results c)
    (mip_objective_polynomial_degree c) (initial_var_values c) v
    (best_solution_found_time c) (nlp_iter c) (mip_iter c) (mip_subiter c)
    (dual_bound c) (dual_bound_progress c) (curr_int_sol c) (integer_list c)
    (should_terminate c) (objective_sense c) (regularization_mip_type c)
    (ext c).

Definition set_best_solution_found_time (v : option float) (c : Solver) : Solver :=
  Build_Solver (working_model c) (mip c) (jacobians c) (results c)
    (mip_objective_polynomial_degree c) (initial_var_values c)
    (best_solution_found c) v (nlp_iter c) (mip_iter c) (mip_subiter c)
    (dual_bound c) (dual_bound_progress c) (curr_int_sol c) (integer_list c)
    (should_terminate c) (objective_sense c) (regularization_mip_type c)
    (ext c).

Definition set_mip_subiter (v : Z) (c : Solver) : Solver :=
  Build_Solver (working_model c) (mip c) (jacobians c) (results c)
    (mip_objective_polynomial_degree c) (initial_var_values c)
    (best_solution_found c) (best_solution_found_time c) (nlp_iter c)
    (mip_iter c) v (dual_bound c) (dual_bound_progress c) (curr_int_sol c)
    (integer_list c) (should_terminate c) (objective_sense c)
    (regularization_mip_type c) (ext c).

Definition set_curr_int_sol (v : IntegerAssignment) (c : Solver) : Solver :=
  Build_Solver (working_model c) (mip c) (jacobians c) (results c)
    (mip_objective_polynomial_degree c) (initial_var_values c)
    (best_solution_found c) (best_solution_found_time c) (nlp_iter c)
    (mip_iter c) (mip_subiter c) (dual_bound c) (dual_bound_progress c) v
    (integer_list c) (should_terminate c) (objective_sense c)
    (regularization_mip_type c) (ext c).

Definition set_integer_list (v : list IntegerAssignment) (c : Solver) : Solver :=
  Build_Solver (working_model c) (mip c) (jacobians c) (results c)
    (mip_objective_polynomial_degree c) (initial_var_values c)
    (best_solution_found c) (best_solution_found_time c) (nlp_iter c)
    (mip_iter c) (mip_subiter c) (dual_bound c) (dual_bound_progress c)
    (curr_int_sol c) v (should_terminate c) (objective_sense c)
    (regularization_mip_type c) (ext c).

Definition set_regularization_mip_type (v : option string) (c : Solver) : Solver :=
  Build_Solver (working_model c) (mip c) (jacobians c) (results c)
    (mip_objective_polynomial_degree c) (initial_var_values c)
    (best_solution_found c) (best_solution_found_time c) (nlp_iter c)
    (mip_iter c) (mip_subiter c) (dual_bound c) (dual_bound_progress c)
    (curr_int_sol c) (integer_list c) (should_terminate c)
    (objective_sense c) v (ext c).

(** ** Collaborators

    The methods inherited from [_MindtPyAlgorithm], the helper functions
    imported by the module, the user callbacks of the configuration block
    and the queries on a solver's solution pool.  A method takes the solver
    object and returns it, changed as it pleases. *)
Record Collaborators : Type := {
  (* _MindtPyAlgorithm.check_config(self) *)
  base_check_config : Config -> Solver -> Config * Solver;
  (* self.set_up_solve_data(model, config) *)
  set_up_solve_data : Model -> Config -> Solver -> Solver;
  (* TransformationFactory('contrib.integer_to_binary').apply_to(m) *)
  apply_integer_to_binary : Model -> Model;
  (* self.create_utility_block(self.working_model, 'MindtPy_utils') *)
  create_utility_block : Solver -> Solver;
  (* self.model_is_valid() *)
  model_is_valid : Solver -> bool * Solver;
  (* setup_results_object(self.results, self.original_model, config) *)
  setup_results_object : Config -> Solver -> Solver;
  (* self.process_objective(config, move_objective, use_mcpp,
       update_var_con_list, partition_nonlinear_terms, ...) *)
  process_objective : Config -> bool -> bool -> bool -> bool -> Solver -> Solver;
  (* self.MindtPy_initialization(config) *)
  MindtPy_initialization : Config -> Solver -> Solver;
  (* self.load_solution(), self.get_integral_info(), self.update_result() *)
  load_solution : Solver -> Solver;
  get_integral_info : Solver -> Solver;
  update_result : Solver -> Solver;
  (* add_var_bound(model, config), calc_jacobians(model, config) *)
  add_var_bound : Model -> Config -> Model;
  calc_jacobians : Model -> Config -> Jacobians;
  (* self.solve_main(config, regularization_problem=b) *)
  solve_main : Config -> bool -> Solver -> (Model * option SolverResults) * Solver;
  (* self.handle_main_optimal(main_mip, config) and its siblings *)
  handle_main_optimal : Model -> Config -> Solver -> Solver;
  handle_main_infeasible : Model -> Config -> Solver -> Solver;
  handle_main_other_conditions : Model -> SolverResults -> Config -> Solver -> Solver;
  (* config.call_after_main_solve(main_mip) *)
  call_after_main_solve : Model -> Solver -> Solver;
  (* self.handle_regularization_main_tc(main_mip, main_mip_results, config) *)
  handle_regularization_main_tc : Model -> option SolverResults -> Config -> Solver -> Solver;
  (* get_integer_solution(model, string_zero=b) *)
  get_integer_solution : Model -> bool -> IntegerAssignment;
  (* copy_var_list_values(from_model vars, to_model vars, config): the
     target model with the values copied in *)
  copy_var_list_values : Model -> Model -> Config -> Model;
  (* self.solve_subproblem(config) *)
  solve_subproblem : Config -> Solver -> (Model * SolverResults) * Solver;
  (* self.handle_nlp_subproblem_tc(fixed_nlp, fixed_nlp_result, config) *)
  handle_nlp_subproblem_tc : Model -> SolverResults -> Config -> Solver -> Solver;
  (* config.call_after_subproblem_solve(fixed_nlp) *)
  call_after_subproblem_solve : Model -> Solver -> Solver;
  (* self.fix_dual_bound(config, last_iter_cuts) *)
  fix_dual_bound : Config -> bool -> Solver -> Solver;
  (* _solver_model.solution.pool.get_names() and .get_objective_value(name) *)
  cplex_pool_get_names : SolverModel -> list PoolName;
  cplex_pool_get_objective_value : SolverModel -> PoolName -> Q;
  (* _solver_model.SolCount, and _solver_model.PoolObjVal once the
     parameter SolutionNumber is set *)
  gurobi_SolCount : SolverModel -> Z;
  gurobi_PoolObjVal : SolverModel -> PoolName -> Q;
  (* copy_var_list_values_from_solution_pool(mip vars, working vars, config,
       solver_model, var_map, solution_name): the working model with the
       values of the pool solution copied in *)
  copy_var_list_values_from_solution_pool :
    option Model -> Model -> Config -> SolverModel -> PoolName -> Model
}.

(** [self.algorithm_should_terminate(config, check_cycling)], kept apart
    from the other collaborators. *)
Definition TerminationCheck : Type := Config -> bool -> Solver -> bool * Solver.

(** ** The call log *)
Inductive Call : Type :=
| call_base_check_config
| call_set_up_solve_data
| call_integer_to_binary
| call_create_utility_block
| call_model_is_valid
| call_setup_results_object
| call_process_objective (move_objective use_mcpp update_var_con_list
                          partition_nonlinear_terms : bool)
| call_MindtPy_initialization
| call_load_solution
| call_get_integral_info
| call_update_result
| call_add_var_bound
| call_calc_jacobians
| call_solve_main (regularization_problem : bool)
| call_handle_main_optimal
| call_handle_main_infeasible
| call_handle_main_other_conditions
| call_after_main
| call_handle_regularization_main_tc
| call_copy_var_list_values
| call_solve_subproblem
| call_handle_nlp_subproblem_tc
| call_after_subproblem
| call_algorithm_should_terminate (check_cycling : bool)
| call_fix_dual_bound (last_iter_cuts : bool)
| call_copy_from_solution_pool (solution_name : PoolName).

(** One entry of the log: the call and the solver object at the call. *)
Record Event : Type := {
  ev_call : Call;
  ev_self : Solver
}.

(** ** Running Python

    A piece of Python runs from a state, the configuration block
    [self.config] and the solver object, and gives a result, the state it
    leaves, and the calls it made, in order. *)
Record State : Type := {
  cfg : Config;
  self : Solver
}.

Record Out (A : Type) : Type := {
  res : Res A;
  final : State;
  emitted : list Event
}.

Definition M (A : Type) : Type := State -> Out A.

Definition ret {A : Type} (a : A) : M A :=
  fun st => {| res := Returned a; final := st; emitted := [] |}.

(** [m] followed by [k]: the calls of both, in order; an exception or
    the end of the fuel in [m] ends the run. *)
Definition bind {A B : Type} (m : M A) (k : A -> M B) : M B :=
  fun st =>
    match m st with
    | {| res := Returned a; final := st'; emitted := l |} =>
        match k a st' with
        | {| res := r; final := st''; emitted := l' |} =>
            {| res := r; final := st''; emitted := l ++ l' |}
        end
    | {| res := Raised e; final := st'; emitted := l |} =>
        {| res := Raised e; final := st'; emitted := l |}
    | {| res := OutOfFuel; final := st'; emitted := l |} =>
        {| res := OutOfFuel; final := st'; emitted := l |}
    end.

Definition raise {A : Type} (e : Exn) : M A :=
  fun st => {| res := Raised e; final := st; emitted := [] |}.

Definition out_of_fuel {A : Type} : M A :=
  fun st => {| res := OutOfFuel; final := st; emitted := [] |}.

(** Read the solver object; change it. *)
Definition get_self : M Solver :=
  fun st => {| res := Returned (self st); final := st; emitted := [] |}.

Definition modify (f : Solver -> Solver) : M unit :=
  fun st =>
    {| res := Returned tt;
       final := {| cfg := cfg st; self := f (self st) |};
       emitted := [] |}.

(** Read the configuration block; assign to its options. *)
Definition get_config : M Config :=
  fun st => {| res := Returned (cfg st); final := st; emitted := [] |}.

Definition modify_config (f : Config -> Config) : M unit :=
  fun st =>
    {| res := Returned tt;
       final := {| cfg := f (cfg st); self := self st |};
       emitted := [] |}.

(** Call a collaborator: log the call, then let it act. *)
Definition call {A : Type} (c : Call) (f : Solver -> A * Solver) : M A :=
  fun st =>
    {| res := Returned (fst (f (self st)));
       final := {| cfg := cfg st; self := snd (f (self st)) |};
       emitted := [{| ev_call := c; ev_self := self st |}] |}.

Definition call_ (c : Call) (f : Solver -> Solver) : M unit :=
  call c (fun s => (tt, f s)).

(** [x = obj.attr] where the attribute may be missing. *)
Definition attr {A : Type} (x : option A) (e : Exn) : M A :=
  match x with Some a => ret a | None => raise e end.

(** An outcome with the calls [l] made before it. *)
Definition after {A : Type} (l : list Event) (o : Out A) : Out A :=
  {| res := res o; final := final o; emitted := l ++ emitted o |}.

End DataModel.

Declare Scope py_scope.
Delimit Scope py_scope with py.
Notation "x <- m ;; k" := (bind m (fun x => k))
  (at level 61, m at next level, right associativity) : py_scope.
Notation "' p <- m ;; k" := (bind m (fun x => match x with p => k end))
  (at level 61, p pattern, m at next level, right associativity) : py_scope.
Notation "m ;; k" := (bind m (fun _ => k))
  (at level 61, right associativity) : py_scope.
Local Open Scope py_scope.

(** ** The controller *)
Section Controller.
Context {D : Domain}.
Variable E : Collaborators.
Variable algorithm_should_terminate : TerminationCheck.

(** *** [check_config] *)

(** Lines 327-340: the options that follow from [add_regularization]. *)
Definition check_config_regularization (config : Config) : Config :=
  if is_not_None (add_regularization config) then
    let config :=
      if opt_str_in (add_regularization config)
           ["grad_lag"; "hess_lag"; "hess_only_lag"; "sqp_lag"]
      then set_calculate_dual_at_solution true config else config in
    let config :=
      if (regularization_mip_threads config =? 0) && (threads config >? 0)
      then set_regularization_mip_threads (threads config) config else config in
    let config :=
      if single_tree config then
        let config := set_add_cuts_at_incumbent true config in
        if negb (reduce_level_coef config || use_bb_tree_incumbent config)
        then set_use_bb_tree_incumbent true config else config
      else config in
    if is_None (mip_regularization_solver config)
    then set_mip_regularization_solver (Some (mip_solver config)) config
    else config
  else config.

(** Lines 352-358: the options that follow from [heuristic_nonconvex],
    [equality_relaxation] and [init_strategy]. *)
Definition check_config_options (config : Config) : Config :=
  let config :=
    if heuristic_nonconvex config
    then set_add_slack true (set_equality_relaxation true config) else config in
  let config :=
    if equality_relaxation config
    then set_calculate_dual_at_solution true config else config in
  if String.eqb (init_strategy config) "FP" || is_not_None (add_regularization config)
  then set_move_objective true config else config.

(** Lines 359-363: [self.regularization_mip_type]. *)
Definition check_config_mip_type (config : Config) (s : Solver) : Solver :=
  if is_not_None (add_regularization config) then
    if opt_str_in (add_regularization config)
         ["level_L1"; "level_L_infinity"; "grad_lag"]
    then set_regularization_mip_type (Some "MILP") s
    else if opt_str_in (add_regularization config)
              ["level_L2"; "hess_lag"; "hess_only_lag"; "sqp_lag"]
    then set_regularization_mip_type (Some "MIQP") s
    else s
  else s.

(** The solvers the LP/NLP branch-and-bound method supports. *)
Definition lazy_callback_solvers : list string :=
  ["cplex_persistent"; "gurobi_persistent"].

(** [_MindtPyAlgorithm.check_config(self)]: the call is logged; it may
    change both the configuration block and the solver object. *)
Definition call_base : M unit :=
  fun st =>
    {| res := Returned tt;
       final := {| cfg := fst (base_check_config E (cfg st) (self st));
                   self := snd (base_check_config E (cfg st) (self st)) |};
       emitted := [{| ev_call := call_base_check_config; ev_self := self st |}] |}.

(** Lines 326-363: what [check_config] does itself. *)
Definition check_config_own : M unit :=
  modify_config check_config_regularization ;;
  config <- get_config ;;
  (if single_tree config then
     modify_config (set_iteration_limit 1) ;;
     modify_config (set_add_slack false) ;;
     config <- get_config ;;
     (if negb (str_in (mip_solver config) lazy_callback_solvers)
      then raise ValueError else ret tt) ;;
     modify_config (fun c => if threads c >? 1 then set_threads 1 c else c)
   else ret tt) ;;
  modify_config check_config_options ;;
  config <- get_config ;;
  modify (check_config_mip_type config).

Definition check_config : M unit :=
  check_config_own ;;
  call_base.

(** *** The objective after [process_objective] (lines 110-115) *)

(** [d in self.mip_objective_polynomial_degree]; [None] is in no set of
    integers. *)
Definition degree_in (d : option Z) (l : list Z) : bool :=
  match d with None => false | Some z => existsb (Z.eqb z) l end.

(** [m.objectives[i] = f(m.objectives[i])]. *)
Definition update_objective (i : nat) (f : ObjectiveData -> ObjectiveData)
    (m : Model) : Model :=
  set_objectives (update_nth i f (objectives m)) m.

Definition map_working_model (f : Model -> Model) (s : Solver) : Solver :=
  set_working_model (f (working_model s)) s.

Definition map_mip (f : Model -> Model) (s : Solver) : Solver :=
  set_mip (option_map f (mip s)) s.

(** The test of line 112. *)
Definition original_objective_is_kept (config : Config) (s : Solver)
    (original : ObjectiveData) : bool :=
  degree_in (polynomial_degree (obj_expr original))
            (mip_objective_polynomial_degree s)
  && is_not_None (add_regularization config).

Definition restore_original_objective (config : Config) : M unit :=
  s <- get_self ;;
  let MindtPy := MindtPy_utils (working_model s) in
  i <- attr (hd_error (objective_list MindtPy)) IndexError ;;
  original <- attr (nth_error (objectives (working_model s)) i) AttributeError ;;
  if original_objective_is_kept config s original then
    (* MindtPy.objective_list[0].activate() *)
    modify (map_working_model (update_objective i (obj_set_active true))) ;;
    (* MindtPy.objective_constr.deactivate() *)
    constr <- attr (objective_constr MindtPy) AttributeError ;;
    modify (map_working_model (fun m =>
      set_MindtPy_utils
        (set_objective_constr (Some (cl_deactivate constr)) (MindtPy_utils m)) m)) ;;
    (* MindtPy.objective.deactivate() *)
    j <- attr (objective MindtPy) AttributeError ;;
    modify (map_working_model (update_objective j (obj_set_active false)))
  else ret tt.

(** *** [initialize_mip_problem] *)

(** The position of the first active objective:
    [next(m.component_data_objects(Objective, active=True))]. *)
Fixpoint first_active (l : list ObjectiveData) : option nat :=
  match l with
  | [] => None
  | o :: l' => if obj_active o then Some O else option_map S (first_active l')
  end.

Definition map_cuts (f : Cuts -> Cuts) (m : Model) : Model :=
  set_MindtPy_utils (set_cuts (f (cuts (MindtPy_utils m))) (MindtPy_utils m)) m.

Definition initialize_mip_problem : M unit :=
  config <- get_config ;;
  (if single_tree config then
     call_ call_add_var_bound
       (map_working_model (fun m => add_var_bound E m config))
   else ret tt) ;;
  (* m = self.mip = self.working_model.clone() *)
  modify (fun s => set_mip (Some (working_model s)) s) ;;
  s <- get_self ;;
  m <- attr (mip s) AttributeError ;;
  i <- attr (first_active (objectives m)) StopIteration ;;
  modify (map_mip (update_objective i (obj_set_active false))) ;;
  (if calculate_dual_at_solution config
   then modify (map_mip (set_dual_active false)) else ret tt) ;;
  call_ call_calc_jacobians
    (fun s => set_jacobians (option_map (fun m => calc_jacobians E m config) (mip s)) s) ;;
  modify (map_mip (map_cuts (set_oa_cuts (Some new_ConstraintList)))) ;;
  if String.eqb (init_strategy config) "FP" then
    modify (map_mip (map_cuts (set_fp_orthogonality_cuts (Some new_ConstraintList)))) ;;
    if fp_projcuts config then
      modify (map_working_model
                (map_cuts (set_fp_orthogonality_cuts (Some new_ConstraintList))))
    else ret tt
  else ret tt.

(** *** [deactivate_no_good_cuts_when_fixing_bound]

    The argument is the list object; the result is that object after the
    call. *)
Definition deactivate_no_good_cuts_when_fixing_bound
    (no_good_cuts : ConstraintList) : M ConstraintList :=
  config <- get_config ;;
  no_good_cuts <-
    (if add_no_good_cuts config then
       _ <- attr (cl_getitem no_good_cuts (cl_len no_good_cuts)) KeyError ;;
       ret (cl_deactivate_item no_good_cuts (cl_len no_good_cuts))
     else ret no_good_cuts) ;;
  (if use_tabu_list config
   then modify (fun s => set_integer_list (removelast (integer_list s)) s)
   else ret tt) ;;
  ret no_good_cuts.

(** *** The solution pool (lines 231-281) *)

(** [a < b] on objective values. *)
Definition Qltb (a b : Q) : bool := negb (Qle_bool b a).

(** [l.sort(key=itemgetter(1), reverse=r)]: a stable sort on the second
    component, ascending, or descending when [reverse] is set; entries
    with equal keys keep their order in both cases. *)
Definition goes_after (reverse : bool) (x y : PoolName * Q) : bool :=
  if reverse then Qltb (snd x) (snd y) else Qltb (snd y) (snd x).

Fixpoint sort_insert (reverse : bool) (x : PoolName * Q)
    (l : list (PoolName * Q)) : list (PoolName * Q) :=
  match l with
  | [] => [x]
  | y :: l' =>
      if goes_after reverse x y then y :: sort_insert reverse x l'
      else x :: y :: l'
  end.

Fixpoint sort_by_objective (reverse : bool) (l : list (PoolName * Q))
    : list (PoolName * Q) :=
  match l with
  | [] => []
  | x :: l' => sort_insert reverse x (sort_by_objective reverse l')
  end.

(** [range(n)] as pool names. *)
Definition pool_range (n : Z) : list PoolName :=
  map (fun i => pool_idx (Z.of_nat i)) (seq 0 (Z.to_nat n)).

(** Lines 231-246: the names of the pool with their objective values,
    and the results object they were read from. *)
Definition solution_pool_entries (config : Config)
    (main_mip_results : option SolverResults)
    : M (SolverResults * list (PoolName * Q)) :=
  if String.eqb (mip_solver config) "cplex_persistent" then
    res <- attr main_mip_results AttributeError ;;
    let names := cplex_pool_get_names E (_solver_model res) in
    ret (res,
         map (fun name =>
                (name, cplex_pool_get_objective_value E (_solver_model res) name))
             names)
  else if String.eqb (mip_solver config) "gurobi_persistent" then
    res <- attr main_mip_results AttributeError ;;
    let names := pool_range (gurobi_SolCount E (_solver_model res)) in
    ret (res,
         map (fun name => (name, gurobi_PoolObjVal E (_solver_model res) name))
             names)
  else raise UnboundLocalError.

(** Lines 269-274: one subproblem solve with its handler and callback. *)
Definition solve_and_handle_subproblem (config : Config) : M unit :=
  ' (fixed_nlp, fixed_nlp_result) <-
      call call_solve_subproblem (solve_subproblem E config) ;;
  call_ call_handle_nlp_subproblem_tc
    (handle_nlp_subproblem_tc E fixed_nlp fixed_nlp_result config) ;;
  call_ call_after_subproblem (call_after_subproblem_solve E fixed_nlp).

(** Lines 254-267: load a pool solution into the working model and look
    it up in [integer_list]; [true] when it is skipped ([continue]). *)
Definition load_pool_solution (config : Config) (res : SolverResults)
    (name : PoolName) : M bool :=
  call_ (call_copy_from_solution_pool name)
    (fun s => set_working_model
                (copy_var_list_values_from_solution_pool E (mip s)
                   (working_model s) config (_solver_model res) name) s) ;;
  modify (fun s =>
    set_curr_int_sol (get_integer_solution E (working_model s) false) s) ;;
  s <- get_self ;;
  if asg_in (curr_int_sol s) (integer_list s) then ret true
  else
    modify (fun s => set_integer_list (integer_list s ++ [curr_int_sol s]) s) ;;
    ret false.

(** Lines 268-281: the entry is not skipped.  [counter] is the counter
    after [counter += 1]; [next] is the rest of the [for] loop. *)
Definition explore_pool_entry (config : Config) (counter : Z)
    (last_iter_cuts : bool) (next : M bool) : M bool :=
  solve_and_handle_subproblem config ;;
  stop <- call (call_algorithm_should_terminate false)
            (algorithm_should_terminate config false) ;;
  if (stop : bool) then ret true
  else if counter >=? num_solution_iteration config then ret last_iter_cuts
  else next.

(** Lines 250-281: the [for] loop over the sorted pool.  [counter] and
    [last_iter_cuts] are the local variables; the result is
    [last_iter_cuts] when the loop is left. *)
Fixpoint pool_loop (config : Config) (res : SolverResults)
    (entries : list (PoolName * Q)) (counter : Z) (last_iter_cuts : bool)
    : M bool :=
  match entries with
  | [] => ret last_iter_cuts
  | (name, _) :: rest =>
      skip <- (if counter >=? 1 then load_pool_solution config res name
               else ret false) ;;
      if (skip : bool) then pool_loop config res rest counter last_iter_cuts
      else
        explore_pool_entry config (counter + 1) last_iter_cuts
          (pool_loop config res rest (counter + 1) last_iter_cuts)
  end.

Definition explore_solution_pool (config : Config)
    (main_mip_results : option SolverResults) (last_iter_cuts : bool) : M bool :=
  ' (res, solution_name_obj) <- solution_pool_entries config main_mip_results ;;
  s <- get_self ;;
  let sorted :=
    sort_by_objective (Sense_eqb (objective_sense s) maximize) solution_name_obj in
  pool_loop config res sorted 0 last_iter_cuts.

(** *** One pass of the [while] loop (lines 174-281) *)

(** How a pass ends: the loop goes on, or [break]; both with the value of
    the local variable [last_iter_cuts]. *)
Inductive Ctl : Type :=
| Next (last_iter_cuts : bool)
| Break (last_iter_cuts : bool).

(** The test of line 196. *)
Definition regularization_requested (config : Config) (s : Solver) : bool :=
  is_not_None (add_regularization config)
  && is_not_None (best_solution_found s)
  && negb (single_tree config).

(** Lines 195-200: the regularized main problem.  The local variables
    [main_mip] and [main_mip_results] are bound again when it is solved. *)
Definition regularization_step (config : Config) (main_mip : Model)
    (main_mip_results : option SolverResults)
    : M (Model * option SolverResults) :=
  s <- get_self ;;
  if regularization_requested config s then
    first <- attr (hd_error (dual_bound_progress s)) IndexError ;;
    if float_ne (dual_bound s) first then
      ' (main_mip, main_mip_results) <-
          call (call_solve_main true) (solve_main E config true) ;;
      call_ call_handle_regularization_main_tc
        (handle_regularization_main_tc E main_mip main_mip_results config) ;;
      ret (main_mip, main_mip_results)
    else ret (main_mip, main_mip_results)
  else ret (main_mip, main_mip_results).

(** Lines 203-212: single-tree search with regularization. *)
Definition single_tree_regularization_step (config : Config) (main_mip : Model)
    : M unit :=
  if is_not_None (add_regularization config) && single_tree config then
    s <- get_self ;;
    m <- attr (mip s) AttributeError ;;
    modify (set_curr_int_sol (get_integer_solution E m true)) ;;
    call_ call_copy_var_list_values
      (map_working_model (fun w => copy_var_list_values E main_mip w config)) ;;
    s <- get_self ;;
    if negb (asg_in (curr_int_sol s) (integer_list s)) then
      ' (fixed_nlp, fixed_nlp_result) <-
          call call_solve_subproblem (solve_subproblem E config) ;;
      call_ call_handle_nlp_subproblem_tc
        (handle_nlp_subproblem_tc E fixed_nlp fixed_nlp_result config)
    else ret tt
  else ret tt.

(** Lines 213-281: the termination check after the main problem, then
    the subproblem or the solution pool. *)
Definition termination_and_subproblem (config : Config)
    (main_mip_results : option SolverResults) (last_iter_cuts : bool) : M Ctl :=
  stop <- call (call_algorithm_should_terminate true)
            (algorithm_should_terminate config true) ;;
  if (stop : bool) then ret (Break false)
  else if negb (single_tree config) then
    if negb (solution_pool config) then
      solve_and_handle_subproblem config ;;
      stop <- call (call_algorithm_should_terminate false)
                (algorithm_should_terminate config false) ;;
      if (stop : bool) then ret (Break true) else ret (Next last_iter_cuts)
    else
      last_iter_cuts <- explore_solution_pool config main_mip_results last_iter_cuts ;;
      ret (Next last_iter_cuts)
  else ret (Next last_iter_cuts).

(** Lines 195-281: what follows the main problem when the loop was not
    left. *)
Definition after_main_solve (config : Config) (main_mip : Model)
    (main_mip_results : SolverResults) (last_iter_cuts : bool) : M Ctl :=
  ' (main_mip, main_mip_results) <-
      regularization_step config main_mip (Some main_mip_results) ;;
  single_tree_regularization_step config main_mip ;;
  termination_and_subproblem config main_mip_results last_iter_cuts.

(** Lines 174-281. *)
Definition iteration (config : Config) (last_iter_cuts : bool) : M Ctl :=
  modify (set_mip_subiter 0) ;;
  ' (main_mip, main_mip_results) <-
      call (call_solve_main false) (solve_main E config false) ;;
  match main_mip_results with
  | Some res =>
      if negb (single_tree config) then
        if tc_is (termination_condition res) tc_optimal then
          call_ call_handle_main_optimal (handle_main_optimal E main_mip config) ;;
          call_ call_after_main (call_after_main_solve E main_mip) ;;
          after_main_solve config main_mip res last_iter_cuts
        else if tc_is (termination_condition res) tc_infeasible then
          call_ call_handle_main_infeasible
            (handle_main_infeasible E main_mip config) ;;
          ret (Break true)
        else
          call_ call_handle_main_other_conditions
            (handle_main_other_conditions E main_mip res config) ;;
          call_ call_after_main (call_after_main_solve E main_mip) ;;
          after_main_solve config main_mip res last_iter_cuts
      else after_main_solve config main_mip res last_iter_cuts
  | None => ret (Break last_iter_cuts)
  end.

(** *** [MindtPy_iteration_loop] *)

(** The [while] loop of line 172; the result is [last_iter_cuts] when the
    loop is left. *)
Fixpoint while_loop (config : Config) (fuel : nat) (last_iter_cuts : bool)
    : M bool :=
  s <- get_self ;;
  if mip_iter s <? iteration_limit config then
    match fuel with
    | O => out_of_fuel
    | S fuel' =>
        c <- iteration config last_iter_cuts ;;
        match c with
        | Next b => while_loop config fuel' b
        | Break b => ret b
        end
    end
  else ret last_iter_cuts.

(** The test of line 320. *)
Definition bound_fix_needed (config : Config) (s : Solver) : bool :=
  (add_no_good_cuts config || use_tabu_list config)
  && negb (should_terminate s)
  && is_None (add_regularization config).

(** Lines 318-321: the correction of the dual bound after the loop. *)
Definition after_loop (config : Config) (last_iter_cuts : bool) : M unit :=
  s <- get_self ;;
  if bound_fix_needed config s
  then call_ (call_fix_dual_bound last_iter_cuts)
         (fix_dual_bound E config last_iter_cuts)
  else ret tt.

Definition MindtPy_iteration_loop (config : Config) (fuel : nat) : M unit :=
  last_iter_cuts <- while_loop config fuel false ;;
  after_loop config last_iter_cuts.

(** *** [solve] *)

(** Lines 117-151, after the objective has been processed. *)
Definition solve_model (config : Config) (fuel : nat) : M (option Results) :=
  modify (fun s =>
    set_initial_var_values (var_values (variables (working_model s))) s) ;;
  modify (set_best_solution_found None) ;;
  modify (set_best_solution_found_time None) ;;
  initialize_mip_problem ;;
  call_ call_MindtPy_initialization (MindtPy_initialization E config) ;;
  MindtPy_iteration_loop config fuel ;;
  s <- get_self ;;
  (if is_not_None (best_solution_found s)
   then call_ call_load_solution (load_solution E) else ret tt) ;;
  call_ call_get_integral_info (get_integral_info E) ;;
  call_ call_update_result (update_result E) ;;
  (if single_tree config then
     modify (fun s =>
       set_results
         (set_num_nodes
            (Some (nlp_iter s - (if String.eqb (init_strategy config) "rNLP"
                                 then 1 else 0)))
            (results s)) s)
   else ret tt) ;;
  s <- get_self ;;
  ret (Some (results s)).

(** Lines 70-115: the set-up, down to the processed objective.  The
    result is [false] when the model is not valid and [solve] returns
    at once. *)
Definition solve_setup (model : Model) (options : Config) : M bool :=
  (* config = self.config = self.CONFIG(...); config.set_value(kwds) *)
  modify_config (fun _ => options) ;;
  check_config ;;
  config <- get_config ;;
  call_ call_set_up_solve_data (set_up_solve_data E model config) ;;
  (if integer_to_binary config
   then call_ call_integer_to_binary
          (map_working_model (apply_integer_to_binary E))
   else ret tt) ;;
  call_ call_create_utility_block (create_utility_block E) ;;
  valid <- call call_model_is_valid (model_is_valid E) ;;
  if negb valid then ret false
  else
    call_ call_setup_results_object (setup_results_object E config) ;;
    call_ (call_process_objective (move_objective config) (use_mcpp config)
             (is_None (add_regularization config))
             (partition_obj_nonlinear_terms config))
      (process_objective E config (move_objective config) (use_mcpp config)
         (is_None (add_regularization config))
         (partition_obj_nonlinear_terms config)) ;;
    restore_original_objective config ;;
    ret true.

(** [solve(model, **kwds)]; [options] is the configuration block built
    from the keyword arguments.  [None] is the bare [return] of line 90. *)
Definition solve (model : Model) (options : Config) (fuel : nat)
    : M (option Results) :=
  valid <- solve_setup model options ;;
  if (valid : bool) then
    config <- get_config ;;
    solve_model config fuel
  else ret None.

End Controller.

(** ** The termination check, from the specification *)
Section SpecTermination.
Context {D : Domain}.

(** What the check reads besides the counters: whether the main problem
    was reported infeasible, whether the gap between the primal and the
    dual bound is within tolerance, and the integer assignment of the
    current main-problem solution. *)
Variable main_reported_infeasible : Solver -> bool.
Variable bounds_converged : Config -> Solver -> bool.
Variable current_assignment : Solver -> IntegerAssignment.



End SpecTermination.

(** ** Properties of the call log *)

Definition is_main_solve {D : Domain} (e : Event) : bool :=
  match ev_call e with
  | call_solve_main _ => true
  | _ => false
  end.

Definition is_subproblem_solve {D : Domain} (e : Event) : bool :=
  match ev_call e with
  | call_solve_subproblem => true
  | _ => false
  end.

(** The solver object at a regularized main solve passes the gate of
    lines 196 and 198. *)
Definition gate_passed {D : Domain} (config : Config) (s : Solver) : Prop :=
  add_regularization config <> None
  /\ best_solution_found s <> None
  /\ single_tree config = false
  /\ exists first,
       hd_error (dual_bound_progress s) = Some first
       /\ float_ne (dual_bound s) first = true.

Definition gated {D : Domain} (config : Config) (e : Event) : Prop :=
  ev_call e = call_solve_main true -> gate_passed config (ev_self e).

Section Reasoning.
Context {D : Domain}.

(** Every call a computation makes satisfies [P]. *)
Definition all_calls {A : Type} (P : Event -> Prop) (m : M A) : Prop :=
  forall st, Forall P (emitted (m st)).

(** A computation never ends in the exception [e]. *)
Definition never_raises {A : Type} (e : Exn) (m : M A) : Prop :=
  forall st, res (m st) <> Raised e.

End Reasoning.

(** ** Notions the properties are stated with *)

(** The calls the loop makes, the regularized main problem apart. *)
Definition loop_call (c : Call) : Prop :=
  match c with
  | call_solve_main false
  | call_handle_main_optimal
  | call_handle_main_infeasible
  | call_handle_main_other_conditions
  | call_after_main
  | call_copy_var_list_values
  | call_solve_subproblem
  | call_handle_nlp_subproblem_tc
  | call_after_subproblem
  | call_algorithm_should_terminate _
  | call_copy_from_solution_pool _ => True
  | _ => False
  end.

(** A call of [fix_dual_bound]. *)
Definition is_bound_fix {D : Domain} (e : Event) : bool :=
  match ev_call e with
  | call_fix_dual_bound _ => true
  | _ => false
  end.

(** The calls of the loop in single-tree mode: the plain main problem,
    the termination check with the cycling test, the correction of the
    dual bound and, only with [add_regularization] set, the calls of
    lines 203-212. *)
Definition single_tree_call (config : Config) (c : Call) : Prop :=
  match c with
  | call_solve_main false
  | call_algorithm_should_terminate true
  | call_fix_dual_bound _ => True
  | call_copy_var_list_values
  | call_solve_subproblem
  | call_handle_nlp_subproblem_tc => add_regularization config <> None
  | _ => False
  end.

(** The order of the sorted pool: ascending objective values, descending
    when [reverse] is set. *)
Definition pool_order (reverse : bool) (x y : PoolName * Q) : Prop :=
  if reverse then (snd y <= snd x)%Q else (snd x <= snd y)%Q.

(** The name a call of [copy_var_list_values_from_solution_pool] loads. *)
Definition pool_copy_name {D : Domain} (e : Event) : option PoolName :=
  match ev_call e with
  | call_copy_from_solution_pool name => Some name
  | _ => None
  end.

(** The names loaded from the pool, in the order of the calls. *)
Fixpoint pool_copy_names {D : Domain} (l : list Event) : list PoolName :=
  match l with
  | [] => []
  | e :: l' =>
      match pool_copy_name e with
      | Some name => name :: pool_copy_names l'
      | None => pool_copy_names l'
      end
  end.

(** The number of subproblems solved. *)
Definition count_solves {D : Domain} (l : list Event) : nat :=
  List.length (filter is_subproblem_solve l).

Section Notions.
Context {D : Domain}.
Variable E : Collaborators.
Variable config : Config.
Variable results : SolverResults.

(** The working model once its variables are bounded (lines 372-373). *)
Definition bounded_working (config : Config) (w : Model) : Model :=
  if single_tree config then add_var_bound E w config else w.

(** The clone after lines 376-388, [i] being its first active
    objective. *)
Definition relaxed_clone (config : Config) (i : nat) (w : Model) : Model :=
  let m := update_objective i (obj_set_active false) w in
  let m := if calculate_dual_at_solution config then set_dual_active false m else m in
  let m := map_cuts (set_oa_cuts (Some new_ConstraintList)) m in
  if String.eqb (init_strategy config) "FP"
  then map_cuts (set_fp_orthogonality_cuts (Some new_ConstraintList)) m
  else m.

(** The working model after lines 389-391. *)
Definition working_after_split (config : Config) (w : Model) : Model :=
  if String.eqb (init_strategy config) "FP" && fp_projcuts config
  then map_cuts (set_fp_orthogonality_cuts (Some new_ConstraintList)) w
  else w.

(** The solver object without its incumbent. *)
Definition forget_incumbent (s : Solver) : Solver :=
  set_best_solution_found_time None (set_best_solution_found None s).

(** A collaborator is blind to the incumbent when what it returns and
    what it leaves, the incumbent apart, do not depend on the incumbent
    it finds. *)
Definition blind {A : Type} (f : Solver -> A * Solver) : Prop :=
  forall s1 s2,
    forget_incumbent s1 = forget_incumbent s2 ->
    fst (f s1) = fst (f s2)
    /\ forget_incumbent (snd (f s1)) = forget_incumbent (snd (f s2)).

Definition blind_ (f : Solver -> Solver) : Prop :=
  blind (fun s => (tt, f s)).

(** The collaborators [solve] calls before it resets the incumbent. *)
Definition setup_is_blind (E : Collaborators) (model : Model) : Prop :=
  (forall config s1 s2,
     forget_incumbent s1 = forget_incumbent s2 ->
     fst (base_check_config E config s1) = fst (base_check_config E config s2)
     /\ forget_incumbent (snd (base_check_config E config s1))
        = forget_incumbent (snd (base_check_config E config s2)))
  /\ (forall config, blind_ (set_up_solve_data E model config))
  /\ blind_ (create_utility_block E)
  /\ blind (model_is_valid E)
  /\ (forall config, blind_ (setup_results_object E config))
  /\ (forall config a b c d, blind_ (process_objective E config a b c d)).

(** Two states that differ in the incumbent only. *)
Definition same_but_incumbent (st1 st2 : State) : Prop :=
  cfg st1 = cfg st2
  /\ forget_incumbent (self st1) = forget_incumbent (self st2).

(** A computation that cannot tell such states apart. *)
Definition incumbent_blind {A : Type} (m : M A) : Prop :=
  forall st1 st2,
    same_but_incumbent st1 st2 ->
    res (m st1) = res (m st2)
    /\ same_but_incumbent (final (m st1)) (final (m st2)).

(** The integer assignment of the pool solution [name], as lines 254-260
    read it when the solver object is [s]. *)
Definition pool_assignment (name : PoolName) (s : Solver) : IntegerAssignment :=
  get_integer_solution E
    (copy_var_list_values_from_solution_pool E (mip s) (working_model s) config
       (_solver_model results) name)
    false.

(** Whether that assignment is explored already. *)
Definition pool_solution_explored (name : PoolName) (s : Solver) : bool :=
  asg_in (pool_assignment name s) (integer_list s).

(** In a log, every pool solution is loaded and then either skipped, when
    its assignment is explored, or followed at once by the solve of its
    subproblem, when it is not. *)
Fixpoint skips_respected (l : list Event) : Prop :=
  match l with
  | [] => True
  | e :: l' =>
      match pool_copy_name e with
      | Some name =>
          match l' with
          | [] => pool_solution_explored name (ev_self e) = true
          | e' :: _ =>
              is_subproblem_solve e'
              = negb (pool_solution_explored name (ev_self e))
          end
      | None => True
      end
      /\ skips_respected l'
  end.

(** What the log of the [for] loop looks like once the first entry is
    behind: the names loaded are the next names of the sorted pool, in
    order; the skips are respected; at most [bound] subproblems are
    solved; and the log, if not empty, begins with loading a pool
    solution. *)
Definition pool_log_ok (names : list PoolName) (bound : nat)
    (l : list Event) : Prop :=
  (exists suffix, pool_copy_names l ++ suffix = names)
  /\ skips_respected l
  /\ (count_solves l <= bound)%nat
  /\ (l = []
      \/ exists name s l',
           l = {| ev_call := call_copy_from_solution_pool name; ev_self := s |}
               :: l').

End Notions.

(** ** The log of an exploration of the solution pool *)
Section PoolRun.
Context {D : Domain}.
Variable E : Collaborators.
Variable algorithm_should_terminate : TerminationCheck.
Variable config : Config.
Variable results : SolverResults.

(** The four calls of lines 269-276: the subproblem, its handler, the
    callback and the termination check without the cycling test. *)
Definition solve_calls (e1 e2 e3 e4 : Event) : Prop :=
  ev_call e1 = call_solve_subproblem
  /\ ev_call e2 = call_handle_nlp_subproblem_tc
  /\ ev_call e3 = call_after_subproblem
  /\ ev_call e4 = call_algorithm_should_terminate false.

(** Whether the exploration ends after a subproblem, [solved] being the
    number of subproblems solved by then and [check] the call of the
    termination check that follows it: the check reports termination
    (line 276), or the cap is reached (line 280). *)
Definition ends_exploration (solved : Z) (check : Event) : bool :=
  fst (algorithm_should_terminate config false (ev_self check))
  || (solved >=? num_solution_iteration config).

(** [l] begins with the four calls of a subproblem, the [solved]-th of
    the exploration; nothing follows them when the exploration ends
    there, and [rest] holds of what follows them when it goes on. *)
Definition solved_then (solved : Z) (rest : list Event -> Prop)
    (l : list Event) : Prop :=
  match l with
  | e1 :: e2 :: e3 :: e4 :: l' =>
      solve_calls e1 e2 e3 e4
      /\ (if ends_exploration solved e4 then l' = [] else rest l')
  | _ => False
  end.

(** [l] is the log of going through the entries [names], none of them
    the first of the pool, [solved] subproblems being solved before: an
    entry is loaded; when its assignment is explored it is skipped and
    the next entry follows; when it is not, its subproblem is solved.
    The log ends with the entries. *)
Fixpoint later_entries (names : list PoolName) (solved : Z)
    (l : list Event) {struct names} : Prop :=
  match names with
  | [] => l = []
  | name :: names' =>
      match l with
      | [] => False
      | e :: l' =>
          ev_call e = call_copy_from_solution_pool name
          /\ (if pool_solution_explored E config results name (ev_self e)
              then later_entries names' solved l'
              else solved_then (solved + 1)
                     (later_entries names' (solved + 1)) l')
      end
  end.

(** The log of the exploration of a sorted pool: the subproblem of the
    first entry is solved without loading it; the other entries follow. *)
Definition pool_exploration_log (names : list PoolName) (l : list Event) : Prop :=
  match names with
  | [] => l = []
  | _ :: names' => solved_then 1 (later_entries names' 1) l
  end.

End PoolRun.

(** ** Notions for the further properties *)

(** The configuration block that lines 327-358 leave when they raise
    nothing, option by option. *)
Definition checked_config (c : Config) : Config :=
  let regularized := is_not_None (add_regularization c) in
  {| add_regularization := add_regularization c;
     calculate_dual_at_solution :=
       opt_str_in (add_regularization c)
         ["grad_lag"; "hess_lag"; "hess_only_lag"; "sqp_lag"]
       || heuristic_nonconvex c || equality_relaxation c
       || calculate_dual_at_solution c;
     regularization_mip_threads :=
       if regularized && (regularization_mip_threads c =? 0) && (threads c >? 0)
       then threads c else regularization_mip_threads c;
     threads := if single_tree c && (threads c >? 1) then 1 else threads c;
     single_tree := single_tree c;
     add_cuts_at_incumbent :=
       regularized && single_tree c || add_cuts_at_incumbent c;
     reduce_level_coef := reduce_level_coef c;
     use_bb_tree_incumbent :=
       regularized && single_tree c && negb (reduce_level_coef c)
       || use_bb_tree_incumbent c;
     mip_regularization_solver :=
       if regularized && is_None (mip_regularization_solver c)
       then Some (mip_solver c) else mip_regularization_solver c;
     mip_solver := mip_solver c;
     iteration_limit := if single_tree c then 1 else iteration_limit c;
     add_slack :=
       heuristic_nonconvex c || negb (single_tree c) && add_slack c;
     heuristic_nonconvex := heuristic_nonconvex c;
     equality_relaxation := heuristic_nonconvex c || equality_relaxation c;
     init_strategy := init_strategy c;
     move_objective :=
       String.eqb (init_strategy c) "FP" || regularized || move_objective c;
     add_no_good_cuts := add_no_good_cuts c;
     use_tabu_list := use_tabu_list c;
     solution_pool := solution_pool c;
     num_solution_iteration := num_solution_iteration c;
     integer_to_binary := integer_to_binary c;
     fp_projcuts := fp_projcuts c;
     use_mcpp := use_mcpp c;
     partition_obj_nonlinear_terms := partition_obj_nonlinear_terms c |}.

(** The collaborators of the loop count main iterations: a plain main
    solve adds at least one to [mip_iter], and nothing else the loop
    calls takes from it. *)
Definition counts_main_iterations {D : Domain} (E : Collaborators)
    (algorithm_should_terminate : TerminationCheck) (config : Config) : Prop :=
  (forall s, mip_iter s + 1 <= mip_iter (snd (solve_main E config false s)))
  /\ (forall s, mip_iter s <= mip_iter (snd (solve_main E config true s)))
  /\ (forall m s, mip_iter s <= mip_iter (handle_main_optimal E m config s))
  /\ (forall m s, mip_iter s <= mip_iter (handle_main_infeasible E m config s))
  /\ (forall m r s,
        mip_iter s <= mip_iter (handle_main_other_conditions E m r config s))
  /\ (forall m s, mip_iter s <= mip_iter (call_after_main_solve E m s))
  /\ (forall m r s,
        mip_iter s <= mip_iter (handle_regularization_main_tc E m r config s))
  /\ (forall s, mip_iter s <= mip_iter (snd (solve_subproblem E config s)))
  /\ (forall m r s,
        mip_iter s <= mip_iter (handle_nlp_subproblem_tc E m r config s))
  /\ (forall m s, mip_iter s <= mip_iter (call_after_subproblem_solve E m s))
  /\ (forall b s,
        mip_iter s <= mip_iter (snd (algorithm_should_terminate config b s))).

(** A computation that needs no fuel and, when it returns, has added at
    least [n] to [mip_iter]. *)
Definition advances {D : Domain} {A : Type} (n : Z) (m : M A) : Prop :=
  forall st,
    match res (m st) with
    | Returned _ => mip_iter (self st) + n <= mip_iter (self (final (m st)))
    | Raised _ => True
    | OutOfFuel => False
    end.

(** The calls of [solve] that come before the model is validated, and
    the calls that close it. *)
Definition is_setup_call (c : Call) : bool :=
  match c with
  | call_base_check_config | call_set_up_solve_data
  | call_integer_to_binary | call_create_utility_block => true
  | _ => false
  end.

Definition is_closing_call (c : Call) : bool :=
  match c with
  | call_load_solution | call_get_integral_info | call_update_result => true
  | _ => false
  end.

(** The number of active objectives of a model. *)
Definition count_active {D : Domain} (l : list ObjectiveData) : nat :=
  List.length (filter obj_active l).

(** ** A small instance

    Expressions are their polynomial degree, the variables of a model are
    the values of its discrete variables, and a solver model is its
    solution pool: name, objective value and discrete values of each
    solution.  The collaborators do the least that keeps the counters
    moving: [solve_main] reports the termination condition [tc] with the
    pool [pool] and counts a main iteration, [solve_subproblem] counts a
    subproblem. *)
Module Example.

#[local] Instance domain : Domain := {|
  Expr := option Z;
  polynomial_degree := fun e => e;
  Vars := IntegerAssignment;
  var_values := fun _ => [];
  Jacobians := nat;
  SolverModel := list (PoolName * Q * IntegerAssignment);
  Ext := unit
|}.

Definition PoolName_eqb (a b : PoolName) : bool :=
  match a, b with
  | pool_str x, pool_str y => String.eqb x y
  | pool_idx x, pool_idx y => Z.eqb x y
  | _, _ => false
  end.

Fixpoint pool_find (pool : list (PoolName * Q * IntegerAssignment))
    (name : PoolName) : option (Q * IntegerAssignment) :=
  match pool with
  | [] => None
  | (n, q, a) :: pool' =>
      if PoolName_eqb n name then Some (q, a) else pool_find pool' name
  end.

Definition pool_objective (pool : list (PoolName * Q * IntegerAssignment))
    (name : PoolName) : Q :=
  match pool_find pool name with Some (q, _) => q | None => 0%Q end.

Definition pool_values (pool : list (PoolName * Q * IntegerAssignment))
    (name : PoolName) (otherwise : IntegerAssignment) : IntegerAssignment :=
  match pool_find pool name with Some (_, a) => a | None => otherwise end.

Definition bump_mip_iter (s : Solver) : Solver :=
  Build_Solver (working_model s) (mip s) (jacobians s) (results s)
    (mip_objective_polynomial_degree s) (initial_var_values s)
    (best_solution_found s) (best_solution_found_time s) (nlp_iter s)
    (mip_iter s + 1) (mip_subiter s) (dual_bound s) (dual_bound_progress s)
    (curr_int_sol s) (integer_list s) (should_terminate s)
    (objective_sense s) (regularization_mip_type s) (ext s).

Definition bump_nlp_iter (s : Solver) : Solver :=
  Build_Solver (working_model s) (mip s) (jacobians s) (results s)
    (mip_objective_polynomial_degree s) (initial_var_values s)
    (best_solution_found s) (best_solution_found_time s) (nlp_iter s + 1)
    (mip_iter s) (mip_subiter s) (dual_bound s) (dual_bound_progress s)
    (curr_int_sol s) (integer_list s) (should_terminate s)
    (objective_sense s) (regularization_mip_type s) (ext s).

Definition collaborators (tc : TerminationCondition)
    (pool : list (PoolName * Q * IntegerAssignment)) : Collaborators := {|
  base_check_config := fun c s => (c, s);
  set_up_solve_data := fun model _ s => set_working_model model s;
  apply_integer_to_binary := fun m => m;
  create_utility_block := fun s => s;
  model_is_valid := fun s => (true, s);
  setup_results_object := fun _ s => s;
  process_objective := fun _ _ _ _ _ s => s;
  MindtPy_initialization := fun _ s => s;
  load_solution := fun s => s;
  get_integral_info := fun s => s;
  update_result := fun s => s;
  add_var_bound := fun m _ => m;
  calc_jacobians := fun m _ => constraint_count m;
  solve_main := fun _ _ s =>
    ((working_model s,
      Some {| termination_condition := tc; _solver_model := pool |}),
     bump_mip_iter s);
  handle_main_optimal := fun _ _ s => s;
  handle_main_infeasible := fun _ _ s => s;
  handle_main_other_conditions := fun _ _ _ s => s;
  call_after_main_solve := fun _ s => s;
  handle_regularization_main_tc := fun _ _ _ s => s;
  get_integer_solution := fun m _ => variables m;
  copy_var_list_values := fun from to _ => set_variables (variables from) to;
  solve_subproblem := fun _ s =>
    ((working_model s,
      {| termination_condition := tc_optimal; _solver_model := pool |}),
     bump_nlp_iter s);
  handle_nlp_subproblem_tc := fun _ _ _ s => s;
  call_after_subproblem_solve := fun _ s => s;
  fix_dual_bound := fun _ _ s => s;
  cplex_pool_get_names := fun sm => map (fun e => fst (fst e)) sm;
  cplex_pool_get_objective_value := pool_objective;
  gurobi_SolCount := fun sm => Z.of_nat (List.length sm);
  gurobi_PoolObjVal := pool_objective;
  copy_var_list_values_from_solution_pool := fun _ w _ sm name =>
    set_variables (pool_values sm name (variables w)) w
|}.

(** A termination check that never stops the loop. *)
Definition keep_going : TerminationCheck := fun _ _ s => (false, s).

(** A configuration block; the arguments are the options the examples
    vary. *)
Definition config (regularization : option string)
    (single_tree no_good_cuts tabu_list solution_pool nonconvex : bool)
    (solver strategy : string) (limit pool_cap : Z) : Config := {|
  add_regularization := regularization;
  calculate_dual_at_solution := false;
  regularization_mip_threads := 0;
  threads := 0;
  single_tree := single_tree;
  add_cuts_at_incumbent := false;
  reduce_level_coef := false;
  use_bb_tree_incumbent := false;
  mip_regularization_solver := None;
  mip_solver := solver;
  iteration_limit := limit;
  add_slack := false;
  heuristic_nonconvex := nonconvex;
  equality_relaxation := false;
  init_strategy := strategy;
  move_objective := false;
  add_no_good_cuts := no_good_cuts;
  use_tabu_list := tabu_list;
  solution_pool := solution_pool;
  num_solution_iteration := pool_cap;
  integer_to_binary := false;
  fp_projcuts := false;
  use_mcpp := false;
  partition_obj_nonlinear_terms := false
|}.

(** A model with the original objective (of degree [degree]) at position
    0, the epigraph objective at position 1 and one epigraph constraint;
    [x] are the values of its discrete variables. *)
Definition model (degree : option Z) (x : IntegerAssignment) : Model := {|
  objectives :=
    [ {| obj_active := false; obj_sense := minimize; obj_expr := degree |};
      {| obj_active := true; obj_sense := minimize; obj_expr := Some 1 |} ];
  constraints :=
    [ {| con_active := true; con_body := Some 1 |};
      {| con_active := true; con_body := None |} ];
  variables := x;
  dual_active := true;
  MindtPy_utils := {|
    objective_list := [0%nat];
    objective := Some 1%nat;
    objective_constr :=
      Some {| cl_active := true;
              cl_members := [ {| con_active := true; con_body := degree |} ] |};
    cuts := {| oa_cuts := None; fp_orthogonality_cuts := None;
               no_good_cuts := None |}
  |}
|}.

(** A solver object: the working model, the incumbent, the dual bound
    with its history, and the explored assignments. *)
Definition solver (working : Model) (incumbent : option Model)
    (bound : float) (progress : list float)
    (explored : list IntegerAssignment) (stop : bool) (sense : Sense) : Solver := {|
  working_model := working;
  mip := None;
  jacobians := None;
  results := {| termination_reason := RUNNING; num_nodes := None |};
  mip_objective_polynomial_degree := [0; 1];
  initial_var_values := [];
  best_solution_found := incumbent;
  best_solution_found_time := None;
  nlp_iter := 0;
  mip_iter := 0;
  mip_subiter := 0;
  dual_bound := bound;
  dual_bound_progress := progress;
  curr_int_sol := [];
  integer_list := explored;
  should_terminate := stop;
  objective_sense := sense;
  regularization_mip_type := None;
  ext := tt
|}.

(** A state to start from: the working model holds the assignment
    [(0)], there is no incumbent, nothing is explored. *)
Definition fresh_state (config : Config) : State :=
  {| cfg := config;
     self := solver (model (Some 1) [AInt 0]) None
               1%float [neg_infinity] [] false minimize |}.

(** No-good cuts enabled, one pass of the loop, with or without
    regularization. *)
Definition no_good_config (regularization : option string) : Config :=
  config regularization false true false false false "glpk" "rNLP" 1 1.

(** Two no-good cuts and two explored assignments, with no-good cuts and
    the tabu list enabled. *)
Definition two_cuts : ConstraintList :=
  {| cl_active := true;
     cl_members := [ {| con_active := true; con_body := Some 1 |};
                     {| con_active := true; con_body := Some 1 |} ] |}.

Definition tabu_state : State :=
  {| cfg := config None false true true false false "glpk" "rNLP" 5 1;
     self := solver (model (Some 1) [AInt 0]) None
               1%float [neg_infinity] [[AInt 0]; [AInt 1]] false minimize |}.

(** Single-tree search with the MILP solver [solver]. *)
Definition single_tree_config (solver : string) (nonconvex : bool) : Config :=
  config None true false false true nonconvex solver "rNLP" 50 5.

(** A solver object that still holds the incumbent of an earlier call. *)
Definition stale_state (config : Config) : State :=
  {| cfg := config;
     self := set_best_solution_found_time (Some 2%float)
               (set_best_solution_found (Some (model (Some 2) [AInt 1]))
                  (self (fresh_state config))) |}.



Definition explored_state (config : Config) : State :=
  {| cfg := config;
     self := solver (model (Some 1) [AInt 0]) None
               1%float [neg_infinity] [[AInt 0]] false minimize |}.


(** Solution-pool mode with CPLEX: a pool of four solutions, of which
    ["d"] has the explored assignment [(0)], and a pool of one solution
    whose assignment is explored. *)
Definition pool_config (cap : Z) : Config :=
  config None false true false true false "cplex_persistent" "rNLP" 1 cap.

Definition four_solutions : list (PoolName * Q * IntegerAssignment) :=
  [ (pool_str "a", 3%Q, [AInt 1]); (pool_str "b", 1%Q, [AInt 0]);
    (pool_str "c", 2%Q, [AInt 2]); (pool_str "d", 2%Q, [AInt 0]) ].

Definition one_solution : list (PoolName * Q * IntegerAssignment) :=
  [ (pool_str "a", 1%Q, [AInt 0]) ].

Definition pool_results (pool : list (PoolName * Q * IntegerAssignment))
    : SolverResults :=
  {| termination_condition := tc_optimal; _solver_model := pool |}.

(** The exploration of the one-solution pool. *)
Definition one_solution_run : Out bool :=
  explore_solution_pool (collaborators tc_optimal one_solution) keep_going
    (pool_config 5) (Some (pool_results one_solution)) false
    (explored_state (pool_config 5)).

(** A run with [level_L1] regularization, an incumbent, and a dual bound
    that has moved from its first value; both main problems count as an
    iteration, so the limit of two allows one pass. *)
Definition regularized_run : Out unit :=
  MindtPy_iteration_loop (collaborators tc_optimal []) keep_going
    (config (Some "level_L1") false false false false false "glpk" "rNLP" 2 1)
    5
    {| cfg := config (Some "level_L1") false false false false false
                "glpk" "rNLP" 2 1;
       self := solver (model (Some 1) [AInt 0]) (Some (model (Some 1) [AInt 0]))
                 1%float [neg_infinity] [] false minimize |}.

(** Single-tree search with [grad_lag] regularization and four threads. *)
Definition regularized_tree_config : Config :=
  set_threads 4
    (config (Some "grad_lag") true false false false false
       "cplex_persistent" "rNLP" 50 5).

(** Collaborators with another [solve_main]. *)
Definition with_solve_main (f : Config -> bool -> Solver -> (Model * option SolverResults) * Solver)
    (E : Collaborators) : Collaborators := {|
  base_check_config := base_check_config E;
  set_up_solve_data := set_up_solve_data E;
  apply_integer_to_binary := apply_integer_to_binary E;
  create_utility_block := create_utility_block E;
  model_is_valid := model_is_valid E;
  setup_results_object := setup_results_object E;
  process_objective := process_objective E;
  MindtPy_initialization := MindtPy_initialization E;
  load_solution := load_solution E;
  get_integral_info := get_integral_info E;
  update_result := update_result E;
  add_var_bound := add_var_bound E;
  calc_jacobians := calc_jacobians E;
  solve_main := f;
  handle_main_optimal := handle_main_optimal E;
  handle_main_infeasible := handle_main_infeasible E;
  handle_main_other_conditions := handle_main_other_conditions E;
  call_after_main_solve := call_after_main_solve E;
  handle_regularization_main_tc := handle_regularization_main_tc E;
  get_integer_solution := get_integer_solution E;
  copy_var_list_values := copy_var_list_values E;
  solve_subproblem := solve_subproblem E;
  handle_nlp_subproblem_tc := handle_nlp_subproblem_tc E;
  call_after_subproblem_solve := call_after_subproblem_solve E;
  fix_dual_bound := fix_dual_bound E;
  cplex_pool_get_names := cplex_pool_get_names E;
  cplex_pool_get_objective_value := cplex_pool_get_objective_value E;
  gurobi_SolCount := gurobi_SolCount E;
  gurobi_PoolObjVal := gurobi_PoolObjVal E;
  copy_var_list_values_from_solution_pool := copy_var_list_values_from_solution_pool E
|}.

(** Collaborators with another [model_is_valid]. *)
Definition with_model_is_valid (f : Solver -> bool * Solver)
    (E : Collaborators) : Collaborators := {|
  base_check_config := base_check_config E;
  set_up_solve_data := set_up_solve_data E;
  apply_integer_to_binary := apply_integer_to_binary E;
  create_utility_block := create_utility_block E;
  model_is_valid := f;
  setup_results_object := setup_results_object E;
  process_objective := process_objective E;
  MindtPy_initialization := MindtPy_initialization E;
  load_solution := load_solution E;
  get_integral_info := get_integral_info E;
  update_result := update_result E;
  add_var_bound := add_var_bound E;
  calc_jacobians := calc_jacobians E;
  solve_main := solve_main E;
  handle_main_optimal := handle_main_optimal E;
  handle_main_infeasible := handle_main_infeasible E;
  handle_main_other_conditions := handle_main_other_conditions E;
  call_after_main_solve := call_after_main_solve E;
  handle_regularization_main_tc := handle_regularization_main_tc E;
  get_integer_solution := get_integer_solution E;
  copy_var_list_values := copy_var_list_values E;
  solve_subproblem := solve_subproblem E;
  handle_nlp_subproblem_tc := handle_nlp_subproblem_tc E;
  call_after_subproblem_solve := call_after_subproblem_solve E;
  fix_dual_bound := fix_dual_bound E;
  cplex_pool_get_names := cplex_pool_get_names E;
  cplex_pool_get_objective_value := cplex_pool_get_objective_value E;
  gurobi_SolCount := gurobi_SolCount E;
  gurobi_PoolObjVal := gurobi_PoolObjVal E;
  copy_var_list_values_from_solution_pool := copy_var_list_values_from_solution_pool E
|}.

(** A MILP solver that returns no results, and a model that is rejected. *)
Definition no_results : Collaborators :=
  with_solve_main (fun _ _ s => ((working_model s, None), bump_mip_iter s))
    (collaborators tc_optimal []).

Definition rejecting : Collaborators :=
  with_model_is_valid (fun s => (false, s)) (collaborators tc_optimal []).

(** [solve] in single-tree mode with Gurobi, from a fresh solver object. *)
Definition tree_run : Out (option Results) :=
  solve (collaborators tc_optimal []) keep_going (model (Some 1) [AInt 0])
    (single_tree_config "gurobi_persistent" false) 3
    (fresh_state (no_good_config None)).

(** [solve] in single-tree mode with [grad_lag] regularization and the
    solution pool requested. *)
Definition regularized_tree_run : Out (option Results) :=
  solve (collaborators tc_optimal []) keep_going (model (Some 1) [AInt 0])
    (config (Some "grad_lag") true false false true false
       "cplex_persistent" "rNLP" 50 5) 3
    (fresh_state (no_good_config None)).

(** The exploration of the pool of four solutions with a cap of five. *)
Definition four_solutions_run : Out bool :=
  explore_solution_pool (collaborators tc_optimal four_solutions) keep_going
    (pool_config 5) (Some (pool_results four_solutions)) false
    (explored_state (pool_config 5)).

End Example.

(** * Relational and logical expressions

    A shallow embedding of [pyomo/core/expr/logical_expr.py]: the
    relational expression classes with [inequality] and
    [_generate_relational_expression], the evaluation step
    [_apply_operation] of every class, and the n-ary logical expressions
    with [add], [land] and [lor].

    Conventions.
    - An exception is a result: [Raise e].
    - The list [_args_] of an n-ary logical expression is a Python list
      object, shared by the expressions that were built from one
      another: expressions hold the identity of their list, and the
      lists live in a heap.
    - What the module imports and calls is a parameter: [_process_arg] of
      [numeric_expr], [is_relational] of the numeric classes, and the
      method [add] of the classes of [boolean_value]. *)
Module LogicalExpr.

Inductive Error : Type :=
| ValueError
| TypeError
| DeveloperError
| IndexError.

Inductive Result (A : Type) : Type :=
| Ok (a : A)
| Raise (e : Error).
Arguments Raise {A} e.

(** The operator codes of [expr_common] that
    [_generate_relational_expression] tells apart. *)
Inductive EType : Type := _eq | _le | _lt | _other.

(** ** Relational expressions *)
Section Relational.
(** Numbers of the native numeric types with [==], [<=] and [<]. *)
Variable Num : Type.
Variables num_eq num_le num_lt : Num -> Num -> bool.
(** The numeric objects of other modules (variables, parameters,
    arithmetic expressions) with their method [is_relational]. *)
Variable Leaf : Type.
Variable leaf_is_relational : Leaf -> bool.
(** An argument of a relational expression: [None], a native number or
    an object. *)
Inductive Value : Type :=
| PyNone
| Native (x : Num)
| Object (v : Leaf)
| InequalityExpression (lhs rhs : Value) (strict : bool)
| EqualityExpression (lhs rhs : Value)
| RangedExpression (lower body upper : Value) (strict : bool * bool).

Definition is_PyNone (v : Value) : bool :=
  match v with PyNone => true | _ => false end.

(** [v.__class__ in native_numeric_types]. *)
Definition is_native (v : Value) : bool :=
  match v with Native _ => true | _ => false end.

(** [v.is_relational()]; the three classes of this module answer
    [True]. *)
Definition is_relational (v : Value) : bool :=
  match v with
  | Object l => leaf_is_relational l
  | InequalityExpression _ _ _ | EqualityExpression _ _
  | RangedExpression _ _ _ _ => true
  | PyNone | Native _ => false
  end.

(** [RangedExpression.STRICT]: a flag stands for the pair of its
    copies. *)
Definition STRICT (strict : bool + bool * bool) : bool * bool :=
  match strict with
  | inl b => (b, b)
  | inr p => p
  end.

(** [RangedExpression(args, strict)]. *)
Definition new_RangedExpression (args : Value * Value * Value)
    (strict : bool + bool * bool) : Value :=
  let '(lower, body, upper) := args in
  RangedExpression lower body upper (STRICT strict).

(** [_apply_operation] of the three classes, on the values of the
    arguments. *)
Definition RangedExpression_apply (strict : bool * bool)
    (result : Num * Num * Num) : bool :=
  let '(_l, _b, _r) := result in
  if negb (fst strict) then
    if negb (snd strict) then num_le _l _b && num_le _b _r
    else num_le _l _b && num_lt _b _r
  else if negb (snd strict) then num_lt _l _b && num_le _b _r
  else num_lt _l _b && num_lt _b _r.

Definition InequalityExpression_apply (strict : bool) (result : Num * Num)
    : bool :=
  let '(_l, _r) := result in
  if strict then num_lt _l _r else num_le _l _r.

Definition EqualityExpression_apply (result : Num * Num) : bool :=
  let '(_l, _r) := result in num_eq _l _r.

(** [inequality(lower, body, upper, strict)]. *)
Definition inequality (lower body upper : Value) (strict : bool)
    : Result Value :=
  if is_PyNone lower then
    if is_PyNone body || is_PyNone upper then Raise ValueError
    else Ok (InequalityExpression body upper strict)
  else if is_PyNone body then
    if is_PyNone lower || is_PyNone upper then Raise ValueError
    else Ok (InequalityExpression lower upper strict)
  else if is_PyNone upper then Ok (InequalityExpression lower body strict)
  else Ok (new_RangedExpression (lower, body, upper) (inl strict)).

(** [a == b], [a <= b] and [a < b] on constants: [None] equals [None]
    only, and is not ordered. *)
Definition py_eq (a b : Value) : bool :=
  match a, b with
  | PyNone, PyNone => true
  | Native x, Native y => num_eq x y
  | _, _ => false
  end.

Definition py_le (a b : Value) : Result bool :=
  match a, b with
  | Native x, Native y => Ok (num_le x y)
  | _, _ => Raise TypeError
  end.

Definition py_lt (a b : Value) : Result bool :=
  match a, b with
  | Native x, Native y => Ok (num_lt x y)
  | _, _ => Raise TypeError
  end.

Section Generate.
Variable _process_arg : Value -> Result Value.

(** Lines 336-341 and 342-347: one side is processed unless it is [None]
    or a native number; the result is the side, whether it is
    relational, and whether it is constant. *)
Definition process_side (v : Value) : Result (Value * bool * bool) :=
  if negb (is_PyNone v) && negb (is_native v) then
    match _process_arg v with
    | Raise e => Raise e
    | Ok v' =>
        if negb (is_PyNone v') && negb (is_native v')
        then Ok (v', is_relational v', false)
        else Ok (v', false, true)
    end
  else Ok (v, false, true).

(** [_generate_relational_expression(etype, lhs, rhs)]: a Python [bool]
    when both sides are constant, else an expression. *)
Definition _generate_relational_expression (etype : EType) (lhs rhs : Value)
    : Result (bool + Value) :=
  match process_side lhs with
  | Raise e => Raise e
  | Ok (lhs, lhs_is_relational, constant_lhs) =>
      match process_side rhs with
      | Raise e => Raise e
      | Ok (rhs, rhs_is_relational, constant_rhs) =>
          if constant_lhs && constant_rhs then
            match etype with
            | _eq => Ok (inl (py_eq lhs rhs))
            | _le =>
                match py_le lhs rhs with
                | Ok b => Ok (inl b)
                | Raise e => Raise e
                end
            | _lt =>
                match py_lt lhs rhs with
                | Ok b => Ok (inl b)
                | Raise e => Raise e
                end
            | _other => Raise ValueError
            end
          else
            match etype with
            | _eq =>
                if lhs_is_relational || rhs_is_relational
                then Raise TypeError
                else Ok (inr (EqualityExpression lhs rhs))
            | _other => Raise DeveloperError
            | _le | _lt =>
                let strict := match etype with _lt => true | _ => false end in
                if lhs_is_relational then
                  match lhs with
                  | InequalityExpression a b lhs_strict =>
                      if rhs_is_relational then Raise TypeError
                      else Ok (inr (new_RangedExpression (a, b, rhs)
                                      (inr (lhs_strict, strict))))
                  | _ => Raise TypeError
                  end
                else if rhs_is_relational then
                  match rhs with
                  | InequalityExpression a b rhs_strict =>
                      Ok (inr (new_RangedExpression (lhs, a, b)
                                 (inr (strict, rhs_strict))))
                  | _ => Raise TypeError
                  end
                else Ok (inr (InequalityExpression lhs rhs strict))
            end
      end
  end.

End Generate.

(** A relational expression over arguments that are not relational. *)
Definition flat (v : Value) : bool :=
  match v with
  | InequalityExpression a b _ | EqualityExpression a b =>
      negb (is_relational a) && negb (is_relational b)
  | RangedExpression a b c _ =>
      negb (is_relational a) && negb (is_relational b)
      && negb (is_relational c)
  | _ => true
  end.

End Relational.

(** ** Logical expressions: evaluation *)

(** The value of an argument: a Python [bool] or [int]. *)
Inductive PyVal : Type :=
| PBool (b : bool)
| PInt (z : Z).

(** [bool(v)] and [int(v)]. *)
Definition truth (v : PyVal) : bool :=
  match v with
  | PBool b => b
  | PInt z => negb (z =? 0)
  end.

Definition int_of (v : PyVal) : Z :=
  match v with
  | PBool b => Z.b2z b
  | PInt z => z
  end.

(** [sum(l)]. *)
Definition py_sum (l : list PyVal) : Z :=
  fold_right (fun v acc => int_of v + acc) 0 l.

(** [operator.xor(a, b)]: a [bool] on two [bool]s, else the bitwise
    exclusive or of the integers. *)
Definition operator_xor (a b : PyVal) : PyVal :=
  match a, b with
  | PBool x, PBool y => PBool (xorb x y)
  | _, _ => PInt (Z.lxor (int_of a) (int_of b))
  end.

(** [result[i]]. *)
Definition getitem (result : list PyVal) (i : nat) : Result PyVal :=
  match nth_error result i with
  | Some v => Ok v
  | None => Raise IndexError
  end.

(** [_apply_operation] of each class, on the list of the values of the
    arguments. *)
Definition NotExpression_apply (result : list PyVal) : Result PyVal :=
  match getitem result 0 with
  | Ok r0 => Ok (PBool (negb (truth r0)))
  | Raise e => Raise e
  end.

Definition EquivalenceExpression_apply (result : list PyVal) : Result PyVal :=
  match getitem result 0 with
  | Ok r0 =>
      match getitem result 1 with
      | Ok r1 => Ok (PBool (int_of r0 =? int_of r1))
      | Raise e => Raise e
      end
  | Raise e => Raise e
  end.

Definition XorExpression_apply (result : list PyVal) : Result PyVal :=
  match getitem result 0 with
  | Ok r0 =>
      match getitem result 1 with
      | Ok r1 => Ok (operator_xor r0 r1)
      | Raise e => Raise e
      end
  | Raise e => Raise e
  end.

(** [(not result[0]) or result[1]]: [result[1]] is read only when
    [result[0]] holds. *)
Definition ImplicationExpression_apply (result : list PyVal) : Result PyVal :=
  match getitem result 0 with
  | Ok r0 =>
      if negb (truth r0) then Ok (PBool true)
      else getitem result 1
  | Raise e => Raise e
  end.

Definition AndExpression_apply (result : list PyVal) : Result PyVal :=
  Ok (PBool (forallb truth result)).

Definition OrExpression_apply (result : list PyVal) : Result PyVal :=
  Ok (PBool (existsb truth result)).

(** [sum(result[1:]) == result[0]], and with [<=] and [>=]. *)
Definition ExactlyExpression_apply (result : list PyVal) : Result PyVal :=
  let total := py_sum (tl result) in
  match getitem result 0 with
  | Ok r0 => Ok (PBool (total =? int_of r0))
  | Raise e => Raise e
  end.

Definition AtMostExpression_apply (result : list PyVal) : Result PyVal :=
  let total := py_sum (tl result) in
  match getitem result 0 with
  | Ok r0 => Ok (PBool (total <=? int_of r0))
  | Raise e => Raise e
  end.

Definition AtLeastExpression_apply (result : list PyVal) : Result PyVal :=
  let total := py_sum (tl result) in
  match getitem result 0 with
  | Ok r0 => Ok (PBool (total >=? int_of r0))
  | Raise e => Raise e
  end.

(** ** Logical expressions: construction *)

(** The classes of [NaryBooleanExpression]. *)
Inductive NaryClass : Type :=
| AndExpression
| OrExpression
| ExactlyExpression
| AtMostExpression
| AtLeastExpression.

Definition NaryClass_is (a b : NaryClass) : bool :=
  match a, b with
  | AndExpression, AndExpression | OrExpression, OrExpression
  | ExactlyExpression, ExactlyExpression | AtMostExpression, AtMostExpression
  | AtLeastExpression, AtLeastExpression => true
  | _, _ => false
  end.

(** An n-ary expression object: its class, the identity of the list
    object [_args_], and [_nargs]. *)
Record Nary : Type := {
  cls : NaryClass;
  _args_ : nat;
  _nargs : nat
}.

Section Logical.
(** The Boolean objects of other modules and the expressions of the
    other classes of this module. *)
Variable Atom : Type.

(** An argument of a logical expression: [True] or [False], a
    [BooleanConstant], an n-ary expression, or another object. *)
Inductive LValue : Type :=
| LNative (b : bool)
| BooleanConstant (b : bool)
| LNary (e : Nary)
| LObject (v : Atom).

(** The list objects, by identity. *)
Definition Heap : Type := list (list LValue).

Definition heap_get (h : Heap) (r : nat) : list LValue := nth r h [].

Definition heap_set (h : Heap) (r : nat) (l : list LValue) : Heap :=
  update_nth r (fun _ => l) h.

(** The property [args]: [self._args_[:self.nargs()]]. *)
Definition args (e : Nary) (h : Heap) : list LValue :=
  firstn (_nargs e) (heap_get h (_args_ e)).

(** [NaryBooleanExpression.__init__(self, args)] on the list object
    [r]: the list is kept, not copied. *)
Definition Nary_init (c : NaryClass) (r : nat) (h : Heap) : Nary :=
  {| cls := c; _args_ := r; _nargs := List.length (heap_get h r) |}.

(** [cls(l)] for a list display [l]: a new list object. *)
Definition Nary_new (c : NaryClass) (l : list LValue) (h : Heap) : Nary * Heap :=
  (Nary_init c (List.length h) (h ++ [l]), h ++ [l]).

(** [_add_to_and_or_expression(orig_expr, new_arg)]. *)
Definition _add_to_and_or_expression (orig_expr : Nary) (new_arg : LValue)
    (h : Heap) : Nary * Heap :=
  let new_expr := Nary_init (cls orig_expr) (_args_ orig_expr) h in
  let added :=
    match new_arg with
    | LNary e =>
        if NaryClass_is (cls e) (cls orig_expr)
        then firstn (_nargs e) (heap_get h (_args_ e))
        else [new_arg]
    | _ => [new_arg]
    end in
  let h := heap_set h (_args_ new_expr)
             (heap_get h (_args_ new_expr) ++ added) in
  ({| cls := cls new_expr; _args_ := _args_ new_expr;
      _nargs := List.length (heap_get h (_args_ new_expr)) |}, h).

(** [AndExpression.add] and [OrExpression.add]. *)
Definition AndExpression_add (self : Nary) (new_arg : LValue) (h : Heap)
    : LValue * Heap :=
  match new_arg with
  | LNative false => (BooleanConstant false, h)
  | LNative true => (LNary self, h)
  | _ =>
      let (e, h) := _add_to_and_or_expression self new_arg h in (LNary e, h)
  end.

Definition OrExpression_add (self : Nary) (new_arg : LValue) (h : Heap)
    : LValue * Heap :=
  match new_arg with
  | LNative false => (LNary self, h)
  | LNative true => (BooleanConstant true, h)
  | _ =>
      let (e, h) := _add_to_and_or_expression self new_arg h in (LNary e, h)
  end.

(** An argument of [land] and [lor]: one value, or a list, a generator
    or an indexed component with its values. *)
Inductive Argument : Type :=
| One (v : LValue)
| Many (l : list LValue).

(** [_flattened(args)]. *)
Definition _flattened (arguments : list Argument) : list LValue :=
  flat_map (fun a => match a with One v => [v] | Many l => l end) arguments.

Section Add.
(** The method [add] of an object that is no [AndExpression] and no
    [OrExpression]. *)
Variable other_add : LValue -> LValue -> Heap -> Result (LValue * Heap).

(** [result.add(argdata)]. *)
Definition add (result : LValue) (argdata : LValue) (h : Heap)
    : Result (LValue * Heap) :=
  match result with
  | LNary e =>
      match cls e with
      | AndExpression => Ok (AndExpression_add e argdata h)
      | OrExpression => Ok (OrExpression_add e argdata h)
      | _ => other_add result argdata h
      end
  | _ => other_add result argdata h
  end.

(** The loop of [land] and [lor]:
    [for argdata in ...: result = result.add(argdata)]. *)
Fixpoint add_all (result : LValue) (l : list LValue) (h : Heap)
    : Result (LValue * Heap) :=
  match l with
  | [] => Ok (result, h)
  | argdata :: l' =>
      match add result argdata h with
      | Ok (result, h) => add_all result l' h
      | Raise e => Raise e
      end
  end.

Definition land (arguments : list Argument) (h : Heap) : Result (LValue * Heap) :=
  let (result, h) := Nary_new AndExpression [] h in
  add_all (LNary result) (_flattened arguments) h.

Definition lor (arguments : list Argument) (h : Heap) : Result (LValue * Heap) :=
  let (result, h) := Nary_new OrExpression [] h in
  add_all (LNary result) (_flattened arguments) h.

End Add.

(** An expression whose list object exists and holds at least [_nargs]
    members. *)
Definition well_formed (e : Nary) (h : Heap) : Prop :=
  (_args_ e < List.length h)%nat
  /\ (_nargs e <= List.length (heap_get h (_args_ e)))%nat.

(** What an argument adds to an expression of class [c]: the arguments
    of an expression of the same class, else itself. *)
Definition spliced (c : NaryClass) (h : Heap) (a : LValue) : list LValue :=
  match a with
  | LNary e => if NaryClass_is (cls e) c then args e h else [a]
  | _ => [a]
  end.

(** The native value [b]. *)
Definition is_native_bool (b : bool) (a : LValue) : bool :=
  match a with
  | LNative b' => Bool.eqb b b'
  | _ => false
  end.

End Logical.

End LogicalExpr.

(** * Proofs *)

(** ** Running a computation step by step *)
Section Steps.
Context {D : Domain}.

Lemma res_bind (A B : Type) (m : M A) (k : A -> M B) (st : State) :
  res (bind m k st)
  = match res (m st) with
    | Returned a => res (k a (final (m st)))
    | Raised e => Raised e
    | OutOfFuel => OutOfFuel
    end.
Proof.
  unfold bind. destruct (m st) as [[a | e | ] st' l]; cbn [res final];
    [ destruct (k a st') | | ]; reflexivity.
Qed.

Lemma final_bind (A B : Type) (m : M A) (k : A -> M B) (st : State) :
  final (bind m k st)
  = match res (m st) with
    | Returned a => final (k a (final (m st)))
    | _ => final (m st)
    end.
Proof.
  unfold bind. destruct (m st) as [[a | e | ] st' l]; cbn [res final];
    [ destruct (k a st') | | ]; reflexivity.
Qed.

Lemma emitted_bind (A B : Type) (m : M A) (k : A -> M B) (st : State) :
  emitted (bind m k st)
  = emitted (m st)
    ++ match res (m st) with
       | Returned a => emitted (k a (final (m st)))
       | _ => []
       end.
Proof.
  unfold bind. destruct (m st) as [[a | e | ] st' l]; cbn [res final emitted];
    [ destruct (k a st'); reflexivity | | ]; symmetry; apply app_nil_r.
Qed.

Lemma bind_assoc (A B C : Type) (m : M A) (k : A -> M B) (k' : B -> M C)
    (st : State) :
  bind (bind m k) k' st = bind m (fun a => bind (k a) k') st.
Proof.
  unfold bind. destruct (m st) as [[a | e | ] st1 l1]; try reflexivity.
  destruct (k a st1) as [[b | e | ] st2 l2]; try reflexivity.
  destruct (k' b st2) as [r st3 l3]. rewrite app_assoc. reflexivity.
Qed.

Lemma bind_ret (A B : Type) (a : A) (k : A -> M B) (st : State) :
  bind (ret a) k st = k a st.
Proof. unfold bind, ret. destruct (k a st). reflexivity. Qed.

Lemma bind_raise (A B : Type) (e : Exn) (k : A -> M B) (st : State) :
  bind (raise e) k st = raise e st.
Proof. reflexivity. Qed.

Lemma bind_get_self (B : Type) (k : Solver -> M B) (st : State) :
  bind get_self k st = k (self st) st.
Proof. unfold bind, get_self. destruct (k (self st) st). reflexivity. Qed.

Lemma bind_get_config (B : Type) (k : Config -> M B) (st : State) :
  bind get_config k st = k (cfg st) st.
Proof. unfold bind, get_config. destruct (k (cfg st) st). reflexivity. Qed.

Lemma bind_modify (B : Type) (f : Solver -> Solver) (k : unit -> M B) (st : State) :
  bind (modify f) k st = k tt {| cfg := cfg st; self := f (self st) |}.
Proof. unfold bind, modify. destruct (k tt _). reflexivity. Qed.

Lemma bind_modify_config (B : Type) (f : Config -> Config) (k : unit -> M B)
    (st : State) :
  bind (modify_config f) k st = k tt {| cfg := f (cfg st); self := self st |}.
Proof. unfold bind, modify_config. destruct (k tt _). reflexivity. Qed.

Lemma bind_call (A B : Type) (c : Call) (f : Solver -> A * Solver)
    (k : A -> M B) (st : State) :
  bind (call c f) k st
  = after [{| ev_call := c; ev_self := self st |}]
      (k (fst (f (self st))) {| cfg := cfg st; self := snd (f (self st)) |}).
Proof. unfold bind, call, after. destruct (k _ _). reflexivity. Qed.

Lemma bind_call_ (B : Type) (c : Call) (f : Solver -> Solver)
    (k : unit -> M B) (st : State) :
  bind (call_ c f) k st
  = after [{| ev_call := c; ev_self := self st |}]
      (k tt {| cfg := cfg st; self := f (self st) |}).
Proof. unfold call_. rewrite bind_call. reflexivity. Qed.

Lemma bind_attr_some (A B : Type) (a : A) (e : Exn) (k : A -> M B) (st : State) :
  bind (attr (Some a) e) k st = k a st.
Proof. apply bind_ret. Qed.

Lemma bind_attr_none (A B : Type) (e : Exn) (k : A -> M B) (st : State) :
  bind (attr None e) k st = raise e st.
Proof. reflexivity. Qed.

End Steps.

(** One step of a run, as often as it applies. *)
Ltac run :=
  repeat first
    [ rewrite bind_assoc
    | rewrite bind_ret | rewrite bind_raise | rewrite bind_get_self
    | rewrite bind_get_config | rewrite bind_modify | rewrite bind_modify_config
    | rewrite bind_call_ | rewrite bind_call
    | rewrite bind_attr_some | rewrite bind_attr_none
    | progress cbn [after res final emitted app cfg self fst snd] ].

(** ** Rules for [all_calls] and [never_raises] *)
Section Rules.
Context {D : Domain}.
Variable P : Event -> Prop.
Variable x : Exn.

Lemma all_calls_ret (A : Type) (a : A) : all_calls P (ret a).
Proof. intros st. constructor. Qed.

Lemma all_calls_raise (A : Type) (e : Exn) : all_calls P (@raise _ A e).
Proof. intros st. constructor. Qed.

Lemma all_calls_out_of_fuel (A : Type) : all_calls P (@out_of_fuel _ A).
Proof. intros st. constructor. Qed.

Lemma all_calls_get_self : all_calls P get_self.
Proof. intros st. constructor. Qed.

Lemma all_calls_get_config : all_calls P get_config.
Proof. intros st. constructor. Qed.

Lemma all_calls_modify (f : Solver -> Solver) : all_calls P (modify f).
Proof. intros st. constructor. Qed.

Lemma all_calls_modify_config (f : Config -> Config) : all_calls P (modify_config f).
Proof. intros st. constructor. Qed.

Lemma all_calls_attr (A : Type) (o : option A) (e : Exn) : all_calls P (attr o e).
Proof. destruct o; intros st; constructor. Qed.

Lemma all_calls_call (A : Type) (c : Call) (f : Solver -> A * Solver) :
  (forall s, P {| ev_call := c; ev_self := s |}) -> all_calls P (call c f).
Proof. intros H st. simpl. constructor; [apply H | constructor]. Qed.

Lemma all_calls_call_ (c : Call) (f : Solver -> Solver) :
  (forall s, P {| ev_call := c; ev_self := s |}) -> all_calls P (call_ c f).
Proof. intros H. apply all_calls_call, H. Qed.

Lemma all_calls_bind (A B : Type) (m : M A) (k : A -> M B) :
  all_calls P m -> (forall a, all_calls P (k a)) -> all_calls P (bind m k).
Proof.
  intros Hm Hk st. rewrite emitted_bind. apply Forall_app.
  split; [ apply Hm | ].
  destruct (res (m st)) as [a | e | ]; [ apply Hk | constructor | constructor ].
Qed.

Lemma never_raises_ret (A : Type) (a : A) : never_raises x (ret a).
Proof. intros st H. discriminate H. Qed.

Lemma never_raises_out_of_fuel (A : Type) : never_raises x (@out_of_fuel _ A).
Proof. intros st H. discriminate H. Qed.

Lemma never_raises_raise (A : Type) (e : Exn) : e <> x -> never_raises x (@raise _ A e).
Proof. intros Hne st H. simpl in H. congruence. Qed.

Lemma never_raises_get_self : never_raises x get_self.
Proof. intros st H. discriminate H. Qed.

Lemma never_raises_get_config : never_raises x get_config.
Proof. intros st H. discriminate H. Qed.

Lemma never_raises_modify (f : Solver -> Solver) : never_raises x (modify f).
Proof. intros st H. discriminate H. Qed.

Lemma never_raises_attr (A : Type) (o : option A) (e : Exn) :
  e <> x -> never_raises x (attr o e).
Proof. intros Hne. destruct o; intros st H; simpl in H; congruence. Qed.

Lemma never_raises_call (A : Type) (c : Call) (f : Solver -> A * Solver) :
  never_raises x (call c f).
Proof. intros st H. discriminate H. Qed.

Lemma never_raises_call_ (c : Call) (f : Solver -> Solver) :
  never_raises x (call_ c f).
Proof. intros st H. discriminate H. Qed.

Lemma never_raises_bind (A B : Type) (m : M A) (k : A -> M B) :
  never_raises x m -> (forall a, never_raises x (k a)) -> never_raises x (bind m k).
Proof.
  intros Hm Hk st. rewrite res_bind. specialize (Hm st).
  destruct (res (m st)) as [a | e | ] eqn:Hr.
  - apply Hk.
  - intros H. apply Hm. congruence.
  - discriminate.
Qed.

End Rules.

(** Walk a computation along its binds and branches. *)
Ltac walk_calls :=
  repeat first
    [ apply all_calls_ret | apply all_calls_raise | apply all_calls_out_of_fuel
    | apply all_calls_get_self | apply all_calls_get_config
    | apply all_calls_modify | apply all_calls_modify_config
    | apply all_calls_attr
    | apply all_calls_bind; [ | intros ? ]
    | match goal with
      | |- all_calls _ (if ?b then _ else _) => destruct b
      | |- all_calls _ (match ?v with _ => _ end) => destruct v
      | |- all_calls _ (call_ _ _) => apply all_calls_call_; intros ?
      | |- all_calls _ (call _ _) => apply all_calls_call; intros ?
      end ].

Ltac walk_raises :=
  repeat first
    [ apply never_raises_ret | apply never_raises_out_of_fuel
    | apply never_raises_get_self | apply never_raises_get_config
    | apply never_raises_modify | apply never_raises_call_
    | apply never_raises_call
    | apply never_raises_attr; discriminate
    | apply never_raises_raise; discriminate
    | apply never_raises_bind; [ | intros ? ]
    | match goal with
      | |- never_raises _ (if ?b then _ else _) => destruct b
      | |- never_raises _ (match ?v with _ => _ end) => destruct v
      end ].

(** ** The calls of the loop

    A property of calls holds of every call of the loop once it holds of
    the calls of the regularization step and of each call the rest of the
    loop makes. *)
Section LoopCalls.
Context {D : Domain}.
Variable E : Collaborators.
Variable algorithm_should_terminate : TerminationCheck.
Variable config : Config.
Variable P : Event -> Prop.
Hypothesis regularization_calls :
  forall main_mip main_mip_results,
    all_calls P (regularization_step E config main_mip main_mip_results).
Hypothesis other_calls :
  forall c s, loop_call c -> P {| ev_call := c; ev_self := s |}.

Ltac other_call := try (apply other_calls; exact I).

Lemma pool_loop_calls res entries :
  forall counter last_iter_cuts,
    all_calls P
      (pool_loop E algorithm_should_terminate config res entries counter
         last_iter_cuts).
Proof.
  induction entries as [ | [name obj] rest IH ]; intros counter lic; simpl.
  - apply all_calls_ret.
  - apply all_calls_bind.
    + unfold load_pool_solution. walk_calls; other_call.
    + intros skip. destruct skip; [ apply IH | ].
      unfold explore_pool_entry, solve_and_handle_subproblem.
      apply all_calls_bind; [ walk_calls; other_call | intros _ ].
      apply all_calls_bind; [ walk_calls; other_call | intros stop ].
      destruct stop; [ apply all_calls_ret | ].
      destruct (counter + 1 >=? num_solution_iteration config);
        [ apply all_calls_ret | apply IH ].
Qed.

Lemma termination_and_subproblem_calls main_mip_results last_iter_cuts :
  all_calls P
    (termination_and_subproblem E algorithm_should_terminate config
       main_mip_results last_iter_cuts).
Proof.
  unfold termination_and_subproblem.
  apply all_calls_bind; [ walk_calls; other_call | intros stop ].
  destruct stop; [ apply all_calls_ret | ].
  destruct (negb (single_tree config)); [ | apply all_calls_ret ].
  destruct (negb (solution_pool config)).
  - unfold solve_and_handle_subproblem. walk_calls; other_call.
  - apply all_calls_bind; [ | intros b; apply all_calls_ret ].
    unfold explore_solution_pool.
    apply all_calls_bind.
    + unfold solution_pool_entries. walk_calls.
    + intros [res' entries].
      apply all_calls_bind; [ apply all_calls_get_self | intros s ].
      apply pool_loop_calls.
Qed.

Lemma after_main_solve_calls main_mip res last_iter_cuts :
  all_calls P
    (after_main_solve E algorithm_should_terminate config main_mip res
       last_iter_cuts).
Proof.
  unfold after_main_solve.
  apply all_calls_bind; [ apply regularization_calls | intros [mm rr] ].
  apply all_calls_bind.
  - unfold single_tree_regularization_step. walk_calls; other_call.
  - intros _. apply termination_and_subproblem_calls.
Qed.

Lemma iteration_calls last_iter_cuts :
  all_calls P (iteration E algorithm_should_terminate config last_iter_cuts).
Proof.
  unfold iteration.
  apply all_calls_bind; [ apply all_calls_modify | intros _ ].
  apply all_calls_bind;
    [ walk_calls; other_call | intros [main_mip main_mip_results] ].
  destruct main_mip_results as [res | ]; [ | apply all_calls_ret ].
  destruct (negb (single_tree config)); [ | apply after_main_solve_calls ].
  destruct (tc_is (termination_condition res) tc_optimal).
  - apply all_calls_bind; [ walk_calls; other_call | intros _ ].
    apply all_calls_bind; [ walk_calls; other_call | intros _ ].
    apply after_main_solve_calls.
  - destruct (tc_is (termination_condition res) tc_infeasible).
    + walk_calls; other_call.
    + apply all_calls_bind; [ walk_calls; other_call | intros _ ].
      apply all_calls_bind; [ walk_calls; other_call | intros _ ].
      apply after_main_solve_calls.
Qed.

Lemma while_loop_calls fuel :
  forall last_iter_cuts,
    all_calls P
      (while_loop E algorithm_should_terminate config fuel last_iter_cuts).
Proof.
  induction fuel as [ | fuel IH ]; intros lic; simpl.
  - walk_calls.
  - apply all_calls_bind; [ apply all_calls_get_self | intros s ].
    destruct (mip_iter s <? iteration_limit config); [ | apply all_calls_ret ].
    apply all_calls_bind; [ apply iteration_calls | intros c ].
    destruct c; [ apply IH | apply all_calls_ret ].
Qed.

End LoopCalls.

(** ** The regularized main problem is gated (lines 195-200) *)
Section RegularizationGate.
Context {D : Domain}.
Variable E : Collaborators.
Variable algorithm_should_terminate : TerminationCheck.
Variable config : Config.

Lemma regularization_step_gated main_mip main_mip_results :
  all_calls (gated config) (regularization_step E config main_mip main_mip_results).
Proof.
  intros st. unfold regularization_step, bind, get_self, attr. cbn [res final emitted].
  destruct (regularization_requested config (self st)) eqn:Hreq;
    [ | constructor ].
  destruct (hd_error (dual_bound_progress (self st))) as [first | ] eqn:Hhd;
    [ | constructor ].
  cbn [ret res final emitted bind].
  destruct (float_ne (dual_bound (self st)) first) eqn:Hne; [ | constructor ].
  cbn. destruct (fst (solve_main E config true (self st))) as [mm rr]. cbn.
  constructor.
  - intros _. cbn.
    unfold regularization_requested in Hreq.
    apply andb_prop in Hreq. destruct Hreq as [Hreq Hst].
    apply andb_prop in Hreq. destruct Hreq as [Hreg Hbest].
    repeat split.
    + destruct (add_regularization config); [discriminate | discriminate Hreg].
    + destruct (best_solution_found (self st)); [discriminate | discriminate Hbest].
    + destruct (single_tree config); [discriminate Hst | reflexivity].
    + exists first. split; assumption.
  - constructor; [ | constructor ]. intros H. discriminate H.
Qed.

Lemma iteration_loop_gated fuel :
  all_calls (gated config)
    (MindtPy_iteration_loop E algorithm_should_terminate config fuel).
Proof.
  unfold MindtPy_iteration_loop.
  apply all_calls_bind.
  - apply while_loop_calls.
    + apply regularization_step_gated.
    + intros c s Hc Hcall. cbn in Hcall. subst c. destruct Hc.
  - intros lic. unfold after_loop. walk_calls. intros Hcall. discriminate Hcall.
Qed.

(** A pass of the loop begins with the plain main problem. *)
Lemma iteration_starts_plain last_iter_cuts st :
  exists l,
    emitted (iteration E algorithm_should_terminate config last_iter_cuts st)
    = {| ev_call := call_solve_main false;
         ev_self := set_mip_subiter 0 (self st) |} :: l.
Proof.
  unfold iteration. run. eexists. reflexivity.
Qed.

Lemma while_loop_starts_plain fuel last_iter_cuts st :
  emitted (while_loop E algorithm_should_terminate config fuel last_iter_cuts st) = []
  \/ exists s l,
       emitted (while_loop E algorithm_should_terminate config fuel last_iter_cuts st)
       = {| ev_call := call_solve_main false; ev_self := s |} :: l.
Proof.
  destruct fuel as [ | fuel ]; cbn [while_loop]; run.
  - left. destruct (mip_iter (self st) <? iteration_limit config); reflexivity.
  - destruct (mip_iter (self st) <? iteration_limit config) eqn:Htest.
    + right.
      destruct (iteration_starts_plain last_iter_cuts st) as [l Hl].
      rewrite emitted_bind, Hl. cbn [app]. eauto.
    + left. reflexivity.
Qed.

End RegularizationGate.

(** C1.  In a run of the iteration loop, every call of [solve_main] with
    [regularization_problem=True] is made with [add_regularization] set,
    not in single-tree mode, with [best_solution_found] not [None] and
    with [dual_bound != dual_bound_progress[0]]; and the first call of
    [solve_main] in the run, if there is one, is the plain one. *)
Theorem regularized_main_solve_is_gated
    {D : Domain} (E : Collaborators) (algorithm_should_terminate : TerminationCheck)
    (config : Config) (fuel : nat) (st : State) :
  let calls :=
    emitted (MindtPy_iteration_loop E algorithm_should_terminate config fuel st) in
  (forall e, In e calls -> ev_call e = call_solve_main true ->
             gate_passed config (ev_self e))
  /\ (forall e, hd_error (filter is_main_solve calls) = Some e ->
                ev_call e = call_solve_main false).
Proof.
  intros calls. split.
  - intros e Hin Hcall.
    pose proof (iteration_loop_gated E algorithm_should_terminate config fuel st) as H.
    rewrite Forall_forall in H. exact (H e Hin Hcall).
  - intros e. subst calls. unfold MindtPy_iteration_loop.
    rewrite emitted_bind.
    destruct (while_loop_starts_plain E algorithm_should_terminate config fuel
                false st) as [Hnil | [s [l Hl]]].
    + rewrite Hnil. cbn [app].
      destruct (res (while_loop E algorithm_should_terminate config fuel false st))
        as [lic | x | ]; cbn [filter hd_error]; try discriminate.
      unfold after_loop. run.
      destruct (bound_fix_needed config _); run; cbn; intros H; discriminate H.
    + rewrite Hl. cbn [app filter hd_error is_main_solve ev_call].
      intros H. injection H as <-. reflexivity.
Qed.

(** The gate does open: the pass of [Example.regularized_run] solves the
    plain main problem and then the regularized one. *)
Example regularized_run_calls :
  res Example.regularized_run = Returned tt
  /\ map ev_call (emitted Example.regularized_run)
     = [ call_solve_main false; call_handle_main_optimal; call_after_main;
         call_solve_main true; call_handle_regularization_main_tc;
         call_algorithm_should_terminate true; call_solve_subproblem;
         call_handle_nlp_subproblem_tc; call_after_subproblem;
         call_algorithm_should_terminate false ].
Proof. vm_compute. split; reflexivity. Qed.

(** ** The correction of the dual bound after the loop (lines 318-321) *)

Section BoundCorrection.
Context {D : Domain}.
Variable E : Collaborators.
Variable algorithm_should_terminate : TerminationCheck.
Variable config : Config.

Lemma while_loop_never_fixes fuel last_iter_cuts :
  all_calls (fun e => is_bound_fix e = false)
    (while_loop E algorithm_should_terminate config fuel last_iter_cuts).
Proof.
  apply while_loop_calls.
  - intros main_mip main_mip_results. unfold regularization_step.
    walk_calls; reflexivity.
  - intros c s Hc. destruct c; try destruct Hc; reflexivity.
Qed.

Lemma existsb_all_false (A : Type) (f : A -> bool) (l : list A) :
  Forall (fun a => f a = false) l -> existsb f l = false.
Proof.
  induction 1 as [ | a l Ha _ IH ]; simpl; [ reflexivity | ].
  rewrite Ha, IH. reflexivity.
Qed.

End BoundCorrection.

(** C4 (as amended).  When the [while] loop is left, [fix_dual_bound] is
    called if and only if no-good cuts or the tabu list are enabled,
    [should_terminate] is false and [add_regularization] is [None]; the
    call is the last of the loop, made with the value of
    [last_iter_cuts] and the solver object as the [while] loop left
    them. *)
Theorem bound_correction_condition
    {D : Domain} (E : Collaborators) (algorithm_should_terminate : TerminationCheck)
    (config : Config) (fuel : nat) (st : State) (last_iter_cuts : bool) :
  let loop := while_loop E algorithm_should_terminate config fuel false st in
  let run := MindtPy_iteration_loop E algorithm_should_terminate config fuel st in
  res loop = Returned last_iter_cuts ->
  existsb is_bound_fix (emitted run)
  = (add_no_good_cuts config || use_tabu_list config)
    && negb (should_terminate (self (final loop)))
    && is_None (add_regularization config)
  /\ (existsb is_bound_fix (emitted run) = true ->
      emitted run
      = emitted loop
        ++ [{| ev_call := call_fix_dual_bound last_iter_cuts;
               ev_self := self (final loop) |}]).
Proof.
  intros loop run Hres.
  pose proof (while_loop_never_fixes E algorithm_should_terminate config fuel
                false st) as Hloop.
  apply existsb_all_false in Hloop. fold loop in Hloop.
  subst run. unfold MindtPy_iteration_loop. rewrite emitted_bind.
  fold loop. rewrite Hres. unfold after_loop. rewrite bind_get_self.
  unfold bound_fix_needed.
  destruct ((add_no_good_cuts config || use_tabu_list config)
            && negb (should_terminate (self (final loop)))
            && is_None (add_regularization config)) eqn:Hcond.
  - cbn [call_ call res final emitted app]. rewrite existsb_app, Hloop.
    split; [ reflexivity | intros _; reflexivity ].
  - cbn [ret res final emitted app]. rewrite app_nil_r, Hloop.
    split; [ reflexivity | intros H; discriminate H ].
Qed.

Lemma bound_correction_condition_witness :
  existsb is_bound_fix
    (emitted (MindtPy_iteration_loop (Example.collaborators tc_optimal [])
                Example.keep_going (Example.no_good_config None) 2
                (Example.fresh_state (Example.no_good_config None))))
  = true.
Proof.
  rewrite (proj1 (bound_correction_condition
                    (Example.collaborators tc_optimal []) Example.keep_going
                    (Example.no_good_config None) 2 (Example.fresh_state (Example.no_good_config None))
                    (last_iter_cuts := false) eq_refl)).
  reflexivity.
Defined.

(** C4 (as stated) fails: with no-good cuts enabled, [should_terminate]
    false at the exit of the loop and [add_regularization = 'level_L1'],
    [fix_dual_bound] is not called. *)
Lemma bound_correction_skipped_under_regularization :
  res (while_loop (Example.collaborators tc_optimal []) Example.keep_going
         (Example.no_good_config (Some "level_L1")) 2 false
         (Example.fresh_state (Example.no_good_config (Some "level_L1"))))
  = Returned false
  /\ add_no_good_cuts (Example.no_good_config (Some "level_L1")) = true
  /\ should_terminate
       (self (final (while_loop (Example.collaborators tc_optimal [])
                       Example.keep_going (Example.no_good_config (Some "level_L1")) 2
                       false (Example.fresh_state (Example.no_good_config (Some "level_L1"))))))
     = false
  /\ existsb is_bound_fix
       (emitted (MindtPy_iteration_loop (Example.collaborators tc_optimal [])
                   Example.keep_going (Example.no_good_config (Some "level_L1")) 2
                   (Example.fresh_state (Example.no_good_config (Some "level_L1")))))
     = false.
Proof. vm_compute. repeat split. Qed.

(** ** The eviction step (lines 412-418) *)
Section Eviction.
Context {D : Domain}.

Lemma update_nth_last (A : Type) (f : A -> A) (earlier : list A) (last : A) :
  update_nth (List.length earlier) f (earlier ++ [last]) = earlier ++ [f last].
Proof.
  induction earlier as [ | a earlier IH ]; simpl; [ reflexivity | ].
  rewrite IH. reflexivity.
Qed.

Lemma last_position (A : Type) (earlier : list A) (last : A) :
  Z.to_nat (Z.of_nat (List.length (earlier ++ [last])) - 1) = List.length earlier.
Proof. rewrite length_app. simpl. lia. Qed.

Lemma cl_getitem_last (c : ConstraintList) earlier last :
  cl_members c = earlier ++ [last] -> cl_getitem c (cl_len c) = Some last.
Proof.
  intros Hm. unfold cl_getitem, cl_len. rewrite Hm.
  rewrite last_position.
  replace (1 <=? Z.of_nat (List.length (earlier ++ [last]))) with true.
  - rewrite Z.leb_refl. simpl.
    rewrite nth_error_app2 by lia. rewrite Nat.sub_diag. reflexivity.
  - symmetry. apply Z.leb_le. rewrite length_app. simpl. lia.
Qed.

Lemma cl_getitem_empty (c : ConstraintList) :
  cl_members c = [] -> cl_getitem c (cl_len c) = None.
Proof. intros Hm. unfold cl_getitem, cl_len. rewrite Hm. reflexivity. Qed.

Lemma split_last (A : Type) (l : list A) :
  l <> [] -> exists earlier last, l = earlier ++ [last].
Proof.
  intros Hne. destruct (exists_last Hne) as [earlier [last Hl]].
  exists earlier, last. exact Hl.
Qed.

End Eviction.


(** With no-good cuts enabled and no cut in the list, [c[len(c)]] is
    [c[0]]: a [KeyError]. *)
Lemma eviction_on_empty_cut_list
    {D : Domain} (cuts : ConstraintList) (st : State) :
  add_no_good_cuts (cfg st) = true ->
  cl_members cuts = [] ->
  res (deactivate_no_good_cuts_when_fixing_bound cuts st) = Raised KeyError
  /\ self (final (deactivate_no_good_cuts_when_fixing_bound cuts st)) = self st.
Proof.
  intros Hng Hm.
  unfold deactivate_no_good_cuts_when_fixing_bound, bind, get_config.
  cbn [res final emitted app]. rewrite Hng, (cl_getitem_empty _ Hm).
  split; reflexivity.
Qed.


(** ** The objective after [process_objective] (lines 110-115) *)
Section OriginalObjective.
Context {D : Domain}.

Lemma nth_error_update_nth_same (A : Type) (f : A -> A) (l : list A) (i : nat) :
  nth_error (update_nth i f l) i = option_map f (nth_error l i).
Proof.
  revert i. induction l as [ | a l IH ]; intros [ | i ]; simpl; auto.
Qed.

Lemma nth_error_update_nth_other (A : Type) (f : A -> A) (l : list A) (i k : nat) :
  k <> i -> nth_error (update_nth i f l) k = nth_error l k.
Proof.
  revert i k. induction l as [ | a l IH ]; intros [ | i ] [ | k ] Hne; simpl;
    try reflexivity; try contradiction.
  apply IH. congruence.
Qed.

End OriginalObjective.

(** C3.  Let the working model have its original objective at
    [objective_list[0]] and the epigraph objective and constraint of
    [MindtPy_utils], two different objectives.  The step after
    [process_objective] returns and calls no collaborator.  If the degree
    of the original objective is in [mip_objective_polynomial_degree] and
    [add_regularization] is not [None], the original objective is
    activated, the epigraph constraint and the epigraph objective are
    deactivated, and nothing else changes.  In every other case nothing
    changes at all. *)
Theorem original_objective_restored_iff
    {D : Domain} (config : Config) (st : State)
    (i j : nat) (original : ObjectiveData) (constr : ConstraintList) :
  let working := working_model (self st) in
  let MindtPy := MindtPy_utils working in
  let out := restore_original_objective config st in
  hd_error (objective_list MindtPy) = Some i ->
  nth_error (objectives working) i = Some original ->
  objective MindtPy = Some j ->
  objective_constr MindtPy = Some constr ->
  i <> j ->
  res out = Returned tt
  /\ emitted out = []
  /\ cfg (final out) = cfg st
  /\ (degree_in (polynomial_degree (obj_expr original))
        (mip_objective_polynomial_degree (self st)) = true
      /\ add_regularization config <> None ->
      exists working',
        self (final out) = set_working_model working' (self st)
        /\ nth_error (objectives working') i = Some (obj_set_active true original)
        /\ nth_error (objectives working') j
           = option_map (obj_set_active false) (nth_error (objectives working) j)
        /\ (forall k, k <> i -> k <> j ->
              nth_error (objectives working') k = nth_error (objectives working) k)
        /\ objective_constr (MindtPy_utils working') = Some (cl_deactivate constr)
        /\ constraints working' = constraints working
        /\ variables working' = variables working
        /\ dual_active working' = dual_active working
        /\ objective_list (MindtPy_utils working') = objective_list MindtPy
        /\ objective (MindtPy_utils working') = objective MindtPy
        /\ cuts (MindtPy_utils working') = cuts MindtPy)
  /\ (~ (degree_in (polynomial_degree (obj_expr original))
           (mip_objective_polynomial_degree (self st)) = true
         /\ add_regularization config <> None) ->
      final out = st).
Proof.
  intros working MindtPy out Hhd Hi Hj Hc Hij. subst out.
  unfold restore_original_objective, bind, get_self.
  cbn [res final emitted app]. fold working. fold MindtPy.
  rewrite Hhd. cbn [attr ret res final emitted app]. rewrite Hi.
  cbn [attr ret res final emitted app].
  unfold original_objective_is_kept.
  destruct (degree_in (polynomial_degree (obj_expr original))
              (mip_objective_polynomial_degree (self st))) eqn:Hdeg;
    [ destruct (add_regularization config) as [reg | ] eqn:Hreg | ];
    cbn [andb is_not_None is_None negb].
  - rewrite Hc, Hj.
    cbn [attr ret modify res final emitted app cfg self].
    repeat (split; [ reflexivity | ]).
    split.
    + intros _. eexists. split; [ reflexivity | ].
      cbn [map_working_model update_objective set_working_model working_model
           set_objectives set_MindtPy_utils set_objective_constr objectives
           constraints variables dual_active MindtPy_utils objective_list
           objective objective_constr cuts].
      fold working.
      repeat split; try reflexivity.
      * rewrite nth_error_update_nth_other by exact Hij.
        rewrite nth_error_update_nth_same, Hi. reflexivity.
      * rewrite nth_error_update_nth_same.
        rewrite nth_error_update_nth_other by congruence. reflexivity.
      * intros k Hki Hkj.
        rewrite !nth_error_update_nth_other by assumption. reflexivity.
      * exact Hj.
    + intros Hnot. exfalso. apply Hnot. split; [ reflexivity | discriminate ].
  - cbn [ret res final emitted app].
    repeat (split; [ reflexivity | ]).
    split; [ intros [_ Hreg']; congruence | reflexivity ].
  - cbn [ret res final emitted app].
    repeat (split; [ reflexivity | ]).
    split; [ intros [Hdeg' _]; discriminate Hdeg' | reflexivity ].
Qed.

Lemma original_objective_restored_iff_witness :
  res (restore_original_objective (Example.no_good_config (Some "level_L1"))
         (Example.fresh_state (Example.no_good_config (Some "level_L1"))))
  = Returned tt.
Proof.
  refine (proj1 (@original_objective_restored_iff Example.domain
                   (Example.no_good_config (Some "level_L1"))
                   (Example.fresh_state (Example.no_good_config (Some "level_L1")))
                   0%nat 1%nat
                   {| obj_active := false; obj_sense := minimize;
                      obj_expr := (Some 1 : @Expr Example.domain) |}
                   {| cl_active := true;
                      cl_members :=
                        [ {| con_active := true;
                             con_body := (Some 1 : @Expr Example.domain) |} ] |}
                   _ _ _ _ _)); try reflexivity.
  discriminate.
Defined.

(** ** Configuration checking (lines 325-364) *)

Ltac break_ifs :=
  repeat match goal with
         | |- context [if ?b then _ else _] => destruct b
         end.

(** The options lines 327-340 leave alone. *)
Lemma check_config_regularization_frame (config : Config) :
  let config' := check_config_regularization config in
  single_tree config' = single_tree config
  /\ mip_solver config' = mip_solver config
  /\ heuristic_nonconvex config' = heuristic_nonconvex config
  /\ solution_pool config' = solution_pool config
  /\ iteration_limit config' = iteration_limit config
  /\ add_slack config' = add_slack config
  /\ add_regularization config' = add_regularization config.
Proof.
  unfold check_config_regularization. cbv zeta.
  break_ifs; repeat split; reflexivity.
Qed.

(** The options lines 352-358 leave alone, and what they do to
    [add_slack]. *)
Lemma check_config_options_frame (config : Config) :
  let config' := check_config_options config in
  single_tree config' = single_tree config
  /\ mip_solver config' = mip_solver config
  /\ heuristic_nonconvex config' = heuristic_nonconvex config
  /\ solution_pool config' = solution_pool config
  /\ iteration_limit config' = iteration_limit config
  /\ add_slack config' = (heuristic_nonconvex config || add_slack config).
Proof.
  unfold check_config_options. cbv zeta.
  destruct (heuristic_nonconvex config) eqn:Hh; cbn;
    break_ifs; repeat split; try reflexivity; try assumption.
Qed.

Section CheckConfig.
Context {D : Domain}.

(** [check_config_own], branch by branch. *)
Lemma check_config_own_unfold (st : State) :
  check_config_own st
  = let c1 := check_config_regularization (cfg st) in
    if single_tree c1 then
      let c2 := set_add_slack false (set_iteration_limit 1 c1) in
      if negb (str_in (mip_solver c2) lazy_callback_solvers) then
        {| res := Raised ValueError;
           final := {| cfg := c2; self := self st |};
           emitted := [] |}
      else
        let c3 := if threads c2 >? 1 then set_threads 1 c2 else c2 in
        let c4 := check_config_options c3 in
        {| res := Returned tt;
           final := {| cfg := c4; self := check_config_mip_type c4 (self st) |};
           emitted := [] |}
    else
      let c4 := check_config_options c1 in
      {| res := Returned tt;
         final := {| cfg := c4; self := check_config_mip_type c4 (self st) |};
         emitted := [] |}.
Proof.
  unfold check_config_own, bind, modify_config, get_config, modify.
  cbn [res final emitted app cfg self]. cbv zeta.
  destruct (single_tree (check_config_regularization (cfg st))); [ | reflexivity ].
  cbn [res final emitted app cfg self].
  destruct (negb (str_in
                    (mip_solver
                       (set_add_slack false
                          (set_iteration_limit 1
                             (check_config_regularization (cfg st)))))
                    lazy_callback_solvers));
    reflexivity.
Qed.

End CheckConfig.

(** ** The loop raises no [ValueError] *)
Section LoopErrors.
Context {D : Domain}.
Variable E : Collaborators.
Variable algorithm_should_terminate : TerminationCheck.
Variable config : Config.

Lemma pool_loop_no_ValueError res entries :
  forall counter last_iter_cuts,
    never_raises ValueError
      (pool_loop E algorithm_should_terminate config res entries counter
         last_iter_cuts).
Proof.
  induction entries as [ | [name obj] rest IH ]; intros counter lic; simpl.
  - apply never_raises_ret.
  - apply never_raises_bind.
    + unfold load_pool_solution. walk_raises.
    + intros skip. destruct skip; [ apply IH | ].
      unfold explore_pool_entry, solve_and_handle_subproblem.
      apply never_raises_bind; [ walk_raises | intros _ ].
      apply never_raises_bind; [ walk_raises | intros stop ].
      destruct stop; [ apply never_raises_ret | ].
      destruct (counter + 1 >=? num_solution_iteration config);
        [ apply never_raises_ret | apply IH ].
Qed.

Lemma after_main_solve_no_ValueError main_mip res last_iter_cuts :
  never_raises ValueError
    (after_main_solve E algorithm_should_terminate config main_mip res
       last_iter_cuts).
Proof.
  unfold after_main_solve.
  apply never_raises_bind;
    [ unfold regularization_step; walk_raises | intros [mm rr] ].
  apply never_raises_bind;
    [ unfold single_tree_regularization_step; walk_raises | intros _ ].
  unfold termination_and_subproblem.
  apply never_raises_bind; [ walk_raises | intros stop ].
  destruct stop; [ apply never_raises_ret | ].
  destruct (negb (single_tree config)); [ | apply never_raises_ret ].
  destruct (negb (solution_pool config)).
  - unfold solve_and_handle_subproblem. walk_raises.
  - apply never_raises_bind; [ | intros b; apply never_raises_ret ].
    unfold explore_solution_pool.
    apply never_raises_bind;
      [ unfold solution_pool_entries; walk_raises | intros [res' entries] ].
    apply never_raises_bind; [ apply never_raises_get_self | intros s ].
    apply pool_loop_no_ValueError.
Qed.

Lemma iteration_no_ValueError last_iter_cuts :
  never_raises ValueError
    (iteration E algorithm_should_terminate config last_iter_cuts).
Proof.
  unfold iteration.
  apply never_raises_bind; [ apply never_raises_modify | intros _ ].
  apply never_raises_bind; [ walk_raises | intros [main_mip main_mip_results] ].
  destruct main_mip_results as [res | ]; [ | apply never_raises_ret ].
  destruct (negb (single_tree config));
    [ | apply after_main_solve_no_ValueError ].
  destruct (tc_is (termination_condition res) tc_optimal).
  - apply never_raises_bind; [ walk_raises | intros _ ].
    apply never_raises_bind; [ walk_raises | intros _ ].
    apply after_main_solve_no_ValueError.
  - destruct (tc_is (termination_condition res) tc_infeasible).
    + walk_raises.
    + apply never_raises_bind; [ walk_raises | intros _ ].
      apply never_raises_bind; [ walk_raises | intros _ ].
      apply after_main_solve_no_ValueError.
Qed.

Lemma iteration_loop_no_ValueError fuel :
  never_raises ValueError
    (MindtPy_iteration_loop E algorithm_should_terminate config fuel).
Proof.
  unfold MindtPy_iteration_loop.
  apply never_raises_bind; [ | intros lic; unfold after_loop; walk_raises ].
  generalize false.
  induction fuel as [ | fuel IH ]; intros lic; simpl.
  - walk_raises.
  - apply never_raises_bind; [ apply never_raises_get_self | intros s ].
    destruct (mip_iter s <? iteration_limit config); [ | apply never_raises_ret ].
    apply never_raises_bind; [ apply iteration_no_ValueError | intros c ].
    destruct c; [ apply IH | apply never_raises_ret ].
Qed.

(** In single-tree mode lines 213-281 are the termination check alone:
    no subproblem is solved and the solution pool is not read. *)
Lemma single_tree_skips_subproblem_and_pool main_mip_results last_iter_cuts st :
  single_tree config = true ->
  termination_and_subproblem E algorithm_should_terminate config
    main_mip_results last_iter_cuts st
  = (stop <- call (call_algorithm_should_terminate true)
               (algorithm_should_terminate config true) ;;
     ret (if (stop : bool) then Break false else Next last_iter_cuts)) st.
Proof.
  intros Hst. unfold termination_and_subproblem, bind.
  cbn [call res final emitted app]. rewrite Hst.
  destruct (fst (algorithm_should_terminate config true (self st))); reflexivity.
Qed.

End LoopErrors.

(** C8.  With [single_tree] set and [mip_solver] neither
    ['cplex_persistent'] nor ['gurobi_persistent'], [check_config] raises
    [ValueError], and so does [solve]: before any collaborator is called
    (no set-up of the model, no solver call) and with the solver object
    untouched.  The iteration loop never raises [ValueError]. *)
Theorem single_tree_needs_lazy_callbacks
    {D : Domain} (E : Collaborators) (algorithm_should_terminate : TerminationCheck)
    (model : Model) (options : Config) (fuel : nat) (st : State) :
  single_tree options = true ->
  mip_solver options <> "cplex_persistent" ->
  mip_solver options <> "gurobi_persistent" ->
  let out := solve E algorithm_should_terminate model options fuel st in
  res (check_config E {| cfg := options; self := self st |}) = Raised ValueError
  /\ res out = Raised ValueError
  /\ emitted out = []
  /\ self (final out) = self st
  /\ (forall config fuel' st',
        res (MindtPy_iteration_loop E algorithm_should_terminate config fuel' st')
        <> Raised ValueError).
Proof.
  intros Hst Hc Hg out.
  assert (Hown : forall s,
    check_config_own {| cfg := options; self := s |}
    = {| res := Raised ValueError;
         final := {| cfg := set_add_slack false
                              (set_iteration_limit 1
                                 (check_config_regularization options));
                     self := s |};
         emitted := [] |}).
  { intros s. rewrite check_config_own_unfold. cbv zeta. cbn [cfg self].
    destruct (check_config_regularization_frame options)
      as (Hst' & Hsolver & _).
    rewrite Hst', Hst.
    replace (mip_solver (set_add_slack false
                           (set_iteration_limit 1
                              (check_config_regularization options))))
      with (mip_solver options) by (symmetry; exact Hsolver).
    unfold lazy_callback_solvers, str_in.
    apply String.eqb_neq in Hc. apply String.eqb_neq in Hg.
    rewrite Hc, Hg. reflexivity. }
  split; [ | split; [ | split; [ | split ] ] ].
  - unfold check_config, bind. rewrite Hown. reflexivity.
  - subst out. unfold solve, solve_setup, check_config, bind.
    cbn [modify_config res final emitted app cfg self]. rewrite Hown. reflexivity.
  - subst out. unfold solve, solve_setup, check_config, bind.
    cbn [modify_config res final emitted app cfg self]. rewrite Hown. reflexivity.
  - subst out. unfold solve, solve_setup, check_config, bind.
    cbn [modify_config res final emitted app cfg self]. rewrite Hown. reflexivity.
  - intros config fuel' st'. apply iteration_loop_no_ValueError.
Qed.

Lemma single_tree_needs_lazy_callbacks_witness :
  res (solve (Example.collaborators tc_optimal []) Example.keep_going
         (Example.model (Some 1) [AInt 0])
         (Example.single_tree_config "glpk" false) 3
         (Example.fresh_state (Example.no_good_config None)))
  = Raised ValueError.
Proof.
  refine (proj1 (proj2 (@single_tree_needs_lazy_callbacks Example.domain
                          (Example.collaborators tc_optimal [])
                          Example.keep_going (Example.model (Some 1) [AInt 0])
                          (Example.single_tree_config "glpk" false) 3
                          (Example.fresh_state (Example.no_good_config None))
                          _ _ _)));
    [ reflexivity | discriminate | discriminate ].
Defined.

(** ** The calls of the loop in single-tree mode (lines 174-321) *)
Section SingleTreeCalls.
Context {D : Domain}.
Variable E : Collaborators.
Variable algorithm_should_terminate : TerminationCheck.
Variable config : Config.
Hypothesis tree : single_tree config = true.

(** Line 196: no regularized main problem in single-tree mode. *)
Lemma regularization_step_single_tree main_mip main_mip_results st :
  regularization_step E config main_mip main_mip_results st
  = ret (main_mip, main_mip_results) st.
Proof.
  unfold regularization_step, regularization_requested. run.
  rewrite tree, andb_false_r. reflexivity.
Qed.

(** Lines 203-212 make their calls only when [add_regularization] is
    set. *)
Lemma single_tree_regularization_step_calls main_mip :
  all_calls (fun e => single_tree_call config (ev_call e))
    (single_tree_regularization_step E config main_mip).
Proof.
  unfold single_tree_regularization_step.
  destruct (add_regularization config) as [name | ] eqn:Hreg;
    cbn [is_not_None is_None negb andb]; [ | apply all_calls_ret ].
  rewrite tree.
  walk_calls; cbn [ev_call single_tree_call]; rewrite Hreg; discriminate.
Qed.

Lemma iteration_single_tree_calls last_iter_cuts :
  all_calls (fun e => single_tree_call config (ev_call e))
    (iteration E algorithm_should_terminate config last_iter_cuts).
Proof.
  unfold iteration.
  apply all_calls_bind; [ apply all_calls_modify | intros _ ].
  apply all_calls_bind;
    [ apply all_calls_call; intros s; exact I
    | intros [main_mip main_mip_results] ].
  destruct main_mip_results as [results | ]; [ | apply all_calls_ret ].
  rewrite tree. cbn [negb].
  unfold after_main_solve. intros st.
  rewrite emitted_bind, regularization_step_single_tree.
  cbn [ret res final emitted app].
  revert st. apply all_calls_bind.
  - apply single_tree_regularization_step_calls.
  - intros _ st.
    rewrite single_tree_skips_subproblem_and_pool by exact tree.
    revert st. walk_calls; exact I.
Qed.

Lemma while_loop_single_tree_calls fuel :
  forall last_iter_cuts,
    all_calls (fun e => single_tree_call config (ev_call e))
      (while_loop E algorithm_should_terminate config fuel last_iter_cuts).
Proof.
  induction fuel as [ | fuel IH ]; intros lic; simpl.
  - walk_calls.
  - apply all_calls_bind; [ apply all_calls_get_self | intros s ].
    destruct (mip_iter s <? iteration_limit config); [ | apply all_calls_ret ].
    apply all_calls_bind; [ apply iteration_single_tree_calls | intros c ].
    destruct c; [ apply IH | apply all_calls_ret ].
Qed.

Lemma iteration_loop_single_tree_calls fuel :
  all_calls (fun e => single_tree_call config (ev_call e))
    (MindtPy_iteration_loop E algorithm_should_terminate config fuel).
Proof.
  unfold MindtPy_iteration_loop.
  apply all_calls_bind; [ apply while_loop_single_tree_calls | intros lic ].
  unfold after_loop. walk_calls. exact I.
Qed.

End SingleTreeCalls.

(** C6 (as amended).  With [single_tree] set and a MILP solver that
    supports lazy callbacks, the part of [check_config] in this class
    returns with [iteration_limit = 1]; [add_slack] is then [True] when
    [heuristic_nonconvex] is set and [False] otherwise; [single_tree] and
    [solution_pool] are as they were.  The solution pool is left out by
    the loop instead, under every configuration with [single_tree] set
    and whatever [solution_pool] is: lines 213-281 are the termination
    check of line 213 alone, the guard of line 216 skipping the
    subproblem and the pool; and every call of a run of the loop is the
    plain [solve_main], the termination check with [check_cycling=True],
    [fix_dual_bound] or, only when [add_regularization] is set, one of
    the calls of lines 203-212: [copy_var_list_values],
    [solve_subproblem], [handle_nlp_subproblem_tc]. *)
Theorem single_tree_configuration
    {D : Domain} (E : Collaborators) (algorithm_should_terminate : TerminationCheck)
    (st : State) :
  single_tree (cfg st) = true ->
  str_in (mip_solver (cfg st)) lazy_callback_solvers = true ->
  let out := check_config_own st in
  res out = Returned tt
  /\ iteration_limit (cfg (final out)) = 1
  /\ add_slack (cfg (final out)) = heuristic_nonconvex (cfg st)
  /\ single_tree (cfg (final out)) = true
  /\ solution_pool (cfg (final out)) = solution_pool (cfg st)
  /\ (forall config,
        single_tree config = true ->
        (forall main_mip_results last_iter_cuts st',
           termination_and_subproblem E algorithm_should_terminate
             config main_mip_results last_iter_cuts st'
           = (stop <- call (call_algorithm_should_terminate true)
                        (algorithm_should_terminate config true) ;;
              ret (if (stop : bool) then Break false else Next last_iter_cuts))
               st')
        /\ (forall fuel st',
              Forall (fun e => single_tree_call config (ev_call e))
                (emitted (MindtPy_iteration_loop E algorithm_should_terminate
                            config fuel st')))).
Proof.
  intros Hst Hsolver out.
  destruct (check_config_regularization_frame (cfg st))
    as (Hst1 & Hsolver1 & Hh1 & Hpool1 & _).
  set (c2 := set_add_slack false
               (set_iteration_limit 1 (check_config_regularization (cfg st)))).
  set (c3 := if threads c2 >? 1 then set_threads 1 c2 else c2).
  assert (Hc3 : single_tree c3 = true /\ mip_solver c3 = mip_solver (cfg st)
                /\ heuristic_nonconvex c3 = heuristic_nonconvex (cfg st)
                /\ solution_pool c3 = solution_pool (cfg st)
                /\ iteration_limit c3 = 1 /\ add_slack c3 = false).
  { subst c3. destruct (threads c2 >? 1); subst c2; cbn;
      rewrite Hst1, Hsolver1, Hh1, Hpool1, Hst; repeat split; reflexivity. }
  destruct Hc3 as (Hst3 & Hsolver3 & Hh3 & Hpool3 & Hlimit3 & Hslack3).
  destruct (check_config_options_frame c3)
    as (Hst4 & _ & _ & Hpool4 & Hlimit4 & Hslack4).
  assert (Hout : out
    = {| res := Returned tt;
         final := {| cfg := check_config_options c3;
                     self := check_config_mip_type (check_config_options c3)
                               (self st) |};
         emitted := [] |}).
  { subst out. rewrite check_config_own_unfold. cbv zeta.
    rewrite Hst1, Hst. fold c2.
    replace (mip_solver c2) with (mip_solver (cfg st))
      by (subst c2; cbn; symmetry; exact Hsolver1).
    rewrite Hsolver. reflexivity. }
  rewrite Hout. cbn [res final emitted cfg self].
  split; [ reflexivity | ].
  split; [ rewrite Hlimit4; exact Hlimit3 | ].
  split; [ rewrite Hslack4, Hslack3, Hh3; apply orb_false_r | ].
  split; [ rewrite Hst4; exact Hst3 | ].
  split; [ rewrite Hpool4; exact Hpool3 | ].
  intros config Htree. split.
  - intros mmr lic st'.
    apply single_tree_skips_subproblem_and_pool. exact Htree.
  - intros fuel st'.
    apply iteration_loop_single_tree_calls. exact Htree.
Qed.

Lemma single_tree_configuration_witness :
  add_slack
    (cfg (final (check_config_own
                   (Example.fresh_state
                      (Example.single_tree_config "gurobi_persistent" false)))))
  = false.
Proof.
  rewrite (proj1 (proj2 (proj2
             (@single_tree_configuration Example.domain
                (Example.collaborators tc_optimal []) Example.keep_going
                (Example.fresh_state
                   (Example.single_tree_config "gurobi_persistent" false))
                eq_refl eq_refl)))).
  reflexivity.
Defined.

(** C6 (as stated) fails: with [single_tree] and [heuristic_nonconvex]
    set, [check_config] returns with [add_slack = True]; and it returns
    with [solution_pool] still set. *)
Lemma single_tree_keeps_slack_when_nonconvex :
  single_tree (Example.single_tree_config "cplex_persistent" true) = true
  /\ res (check_config (Example.collaborators tc_optimal [])
            (Example.fresh_state
               (Example.single_tree_config "cplex_persistent" true)))
     = Returned tt
  /\ add_slack
       (cfg (final (check_config (Example.collaborators tc_optimal [])
                      (Example.fresh_state
                         (Example.single_tree_config "cplex_persistent" true)))))
     = true
  /\ solution_pool
       (cfg (final (check_config (Example.collaborators tc_optimal [])
                      (Example.fresh_state
                         (Example.single_tree_config "cplex_persistent" true)))))
     = true.
Proof. vm_compute. repeat split. Qed.

(** Under single-tree search with regularization and with the solution
    pool requested, [solve] does solve a subproblem, in lines 203-212;
    the pool is not explored. *)
Example regularized_tree_run_calls :
  map ev_call (emitted Example.regularized_tree_run)
  = [ call_base_check_config; call_set_up_solve_data;
      call_create_utility_block; call_model_is_valid;
      call_setup_results_object;
      call_process_objective true false false false; call_add_var_bound;
      call_calc_jacobians; call_MindtPy_initialization;
      call_solve_main false; call_copy_var_list_values;
      call_solve_subproblem; call_handle_nlp_subproblem_tc;
      call_algorithm_should_terminate true; call_get_integral_info;
      call_update_result ].
Proof. vm_compute. reflexivity. Qed.

(** ** The model split (lines 367-391) *)
Section ModelSplit.
Context {D : Domain}.
Variable E : Collaborators.

Lemma initialize_mip_problem_returns (st : State) (i : nat) :
  let w := bounded_working E (cfg st) (working_model (self st)) in
  first_active (objectives w) = Some i ->
  res (initialize_mip_problem E st) = Returned tt
  /\ cfg (final (initialize_mip_problem E st)) = cfg st
  /\ mip (self (final (initialize_mip_problem E st)))
     = Some (relaxed_clone (cfg st) i w)
  /\ working_model (self (final (initialize_mip_problem E st)))
     = working_after_split (cfg st) w.
Proof.
  intros w Hi. subst w. revert Hi.
  unfold initialize_mip_problem, bounded_working, relaxed_clone,
    working_after_split, bind, get_config, get_self, call_, call, modify.
  cbn [res final emitted app cfg self].
  destruct (single_tree (cfg st));
    cbn [ret res final emitted app cfg self fst snd map_working_model
         set_working_model set_mip working_model mip attr];
    intros Hi; rewrite Hi;
    cbn [attr ret res final emitted app cfg self];
    destruct (calculate_dual_at_solution (cfg st));
    cbn [ret res final emitted app cfg self];
    destruct (String.eqb (init_strategy (cfg st)) "FP");
    cbn [ret res final emitted app cfg self andb];
    destruct (fp_projcuts (cfg st));
    cbn [ret res final emitted app cfg self];
    repeat split; reflexivity.
Qed.

Lemma initialize_mip_problem_raises (st : State) :
  first_active
    (objectives (bounded_working E (cfg st) (working_model (self st)))) = None ->
  res (initialize_mip_problem E st) = Raised StopIteration.
Proof.
  unfold initialize_mip_problem, bounded_working, bind, get_config, get_self,
    call_, call, modify.
  cbn [res final emitted app cfg self].
  destruct (single_tree (cfg st));
    cbn [ret res final emitted app cfg self fst snd map_working_model
         set_working_model set_mip working_model mip attr];
    intros Hi; rewrite Hi; reflexivity.
Qed.

(** The clone of a model that differs in its variables only. *)
Lemma relaxed_clone_variables config i (w : Model) (v : Vars) :
  relaxed_clone config i (set_variables v (working_after_split config w))
  = set_variables v (relaxed_clone config i w).
Proof.
  unfold relaxed_clone, working_after_split. cbv zeta.
  destruct (calculate_dual_at_solution config);
    destruct (String.eqb (init_strategy config) "FP");
    destruct (fp_projcuts config); reflexivity.
Qed.

Lemma working_after_split_objectives config (w : Model) :
  objectives (working_after_split config w) = objectives w.
Proof.
  unfold working_after_split.
  destruct (String.eqb (init_strategy config) "FP" && fp_projcuts config);
    reflexivity.
Qed.

Lemma set_variables_same (w : Model) : set_variables (variables w) w = w.
Proof. destruct w. reflexivity. Qed.

Lemma constraint_count_set_variables (m : Model) (v : Vars) :
  constraint_count (set_variables v m) = constraint_count m.
Proof. reflexivity. Qed.

End ModelSplit.

(** C9.  Let [add_var_bound] change nothing of a model but its
    variables.  If [initialize_mip_problem] returns, a second call on
    the solver object it left returns too, and the two relaxed models
    have the same number of constraints and the same objectives with the
    same senses and the same activation: they differ at most in their
    variables. *)
Theorem model_split_is_idempotent
    {D : Domain} (E : Collaborators) (st : State) :
  (forall m config,
     add_var_bound E m config
     = set_variables (variables (add_var_bound E m config)) m) ->
  let first := initialize_mip_problem E st in
  let second := initialize_mip_problem E (final first) in
  res first = Returned tt ->
  res second = Returned tt
  /\ exists m1 m2,
       mip (self (final first)) = Some m1
       /\ mip (self (final second)) = Some m2
       /\ constraint_count m1 = constraint_count m2
       /\ objective_senses m1 = objective_senses m2
       /\ map obj_active (objectives m1) = map obj_active (objectives m2)
       /\ m2 = set_variables (variables m2) m1.
Proof.
  intros Hbound first second Hfirst.
  set (w1 := bounded_working E (cfg st) (working_model (self st))).
  destruct (first_active (objectives w1)) as [i | ] eqn:Hi.
  2:{ subst first. rewrite (initialize_mip_problem_raises E st Hi) in Hfirst.
      discriminate Hfirst. }
  destruct (initialize_mip_problem_returns E st Hi)
    as (_ & Hcfg1 & Hmip1 & Hw1).
  fold first in Hcfg1, Hmip1, Hw1. fold w1 in Hmip1, Hw1.
  set (w2 := bounded_working E (cfg (final first))
               (working_model (self (final first)))).
  assert (Hw2 : w2 = set_variables (variables w2)
                       (working_after_split (cfg st) w1)).
  { subst w2. unfold bounded_working. rewrite Hcfg1, Hw1.
    destruct (single_tree (cfg st)).
    - rewrite Hbound at 1. reflexivity.
    - symmetry. apply set_variables_same. }
  assert (Hi2 : first_active (objectives w2) = Some i).
  { rewrite Hw2. cbn [objectives set_variables].
    rewrite working_after_split_objectives. exact Hi. }
  destruct (initialize_mip_problem_returns E (final first) Hi2)
    as (Hres2 & _ & Hmip2 & _).
  fold second in Hres2, Hmip2. fold w2 in Hmip2.
  rewrite Hcfg1, Hw2, relaxed_clone_variables in Hmip2.
  split; [ exact Hres2 | ].
  exists (relaxed_clone (cfg st) i w1).
  eexists. split; [ exact Hmip1 | ]. split; [ exact Hmip2 | ].
  repeat split.
Qed.

Lemma model_split_is_idempotent_witness :
  res (initialize_mip_problem (Example.collaborators tc_optimal [])
         (final (initialize_mip_problem (Example.collaborators tc_optimal [])
                   (Example.fresh_state
                      (Example.single_tree_config "cplex_persistent" false)))))
  = Returned tt.
Proof.
  refine (proj1 (@model_split_is_idempotent Example.domain
                   (Example.collaborators tc_optimal [])
                   (Example.fresh_state
                      (Example.single_tree_config "cplex_persistent" false))
                   _ _)).
  - intros m config. destruct m. reflexivity.
  - reflexivity.
Defined.

(** ** [solve] and the incumbent of an earlier call (lines 121-125) *)
Section Incumbent.
Context {D : Domain}.

Lemma incumbent_blind_ret (A : Type) (a : A) : incumbent_blind (ret a).
Proof. intros st1 st2 H. split; [ reflexivity | exact H ]. Qed.

Lemma incumbent_blind_raise (A : Type) (e : Exn) : incumbent_blind (@raise _ A e).
Proof. intros st1 st2 H. split; [ reflexivity | exact H ]. Qed.

Lemma incumbent_blind_get_config : incumbent_blind get_config.
Proof.
  intros st1 st2 H. split; [ | exact H ].
  destruct H as [Hc _]. cbn. rewrite Hc. reflexivity.
Qed.

Lemma incumbent_blind_modify_config (f : Config -> Config) :
  incumbent_blind (modify_config f).
Proof.
  intros st1 st2 [Hc Hs]. split; [ reflexivity | ].
  split; cbn; [ rewrite Hc; reflexivity | exact Hs ].
Qed.

Lemma incumbent_blind_call (A : Type) (c : Call) (f : Solver -> A * Solver) :
  blind f -> incumbent_blind (call c f).
Proof.
  intros Hf st1 st2 [Hc Hs]. destruct (Hf _ _ Hs) as [Hfst Hsnd].
  split; [ cbn; rewrite Hfst; reflexivity | ].
  split; [ exact Hc | exact Hsnd ].
Qed.

Lemma incumbent_blind_call_ (c : Call) (f : Solver -> Solver) :
  blind_ f -> incumbent_blind (call_ c f).
Proof. intros Hf. apply incumbent_blind_call. exact Hf. Qed.

(** A change that does not touch the incumbent. *)
Lemma incumbent_blind_modify (f : Solver -> Solver) :
  (forall s, forget_incumbent (f s) = f (forget_incumbent s)) ->
  incumbent_blind (modify f).
Proof.
  intros Hf st1 st2 [Hc Hs]. split; [ reflexivity | ].
  split; [ exact Hc | ]. cbn. rewrite !Hf, Hs. reflexivity.
Qed.

Lemma incumbent_blind_bind (A B : Type) (m : M A) (k : A -> M B) :
  incumbent_blind m -> (forall a, incumbent_blind (k a)) ->
  incumbent_blind (bind m k).
Proof.
  intros Hm Hk st1 st2 H. destruct (Hm _ _ H) as [Hres Hfin].
  rewrite !res_bind, !final_bind, <- Hres.
  destruct (res (m st1)) as [a | e | ].
  - apply Hk. exact Hfin.
  - split; [ reflexivity | exact Hfin ].
  - split; [ reflexivity | exact Hfin ].
Qed.

Lemma forget_working_model (s1 s2 : Solver) :
  forget_incumbent s1 = forget_incumbent s2 ->
  working_model s1 = working_model s2
  /\ mip_objective_polynomial_degree s1 = mip_objective_polynomial_degree s2.
Proof.
  intros H. split.
  - exact (f_equal working_model H).
  - exact (f_equal mip_objective_polynomial_degree H).
Qed.

Lemma restore_original_objective_blind (config : Config) :
  incumbent_blind (restore_original_objective config).
Proof.
  intros st1 st2 [Hc Hs].
  destruct (@forget_working_model (self st1) (self st2) Hs) as [Hw Hd].
  unfold restore_original_objective, bind, get_self, original_objective_is_kept.
  cbn [res final emitted app]. rewrite <- Hw, <- Hd.
  destruct (hd_error (objective_list (MindtPy_utils (working_model (self st1)))))
    as [i | ]; cbn [attr ret raise res final emitted app];
    [ | split; [ reflexivity | split; assumption ] ].
  destruct (nth_error (objectives (working_model (self st1))) i)
    as [original | ]; cbn [attr ret raise res final emitted app];
    [ | split; [ reflexivity | split; assumption ] ].
  destruct (degree_in (polynomial_degree (obj_expr original))
              (mip_objective_polynomial_degree (self st1))
            && is_not_None (add_regularization config));
    cbn [attr ret raise modify res final emitted app cfg self];
    [ | split; [ reflexivity | split; assumption ] ].
  destruct (objective_constr (MindtPy_utils (working_model (self st1))));
    cbn [attr ret raise modify res final emitted app cfg self].
  - destruct (objective (MindtPy_utils (working_model (self st1))));
      cbn [attr ret raise modify res final emitted app cfg self];
      (split; [ reflexivity | split; [ exact Hc | ] ]);
      cbn [cfg self];
      repeat match goal with
             | |- context [forget_incumbent (map_working_model ?f ?s)] =>
                 change (forget_incumbent (map_working_model f s))
                   with (map_working_model f (forget_incumbent s))
             end;
      rewrite Hs; reflexivity.
  - split; [ reflexivity | split; [ exact Hc | ] ]. cbn [cfg self].
    change (forget_incumbent
              (map_working_model
                 (update_objective i (obj_set_active true)) (self st1)))
      with (map_working_model (update_objective i (obj_set_active true))
              (forget_incumbent (self st1))).
    change (forget_incumbent
              (map_working_model
                 (update_objective i (obj_set_active true)) (self st2)))
      with (map_working_model (update_objective i (obj_set_active true))
              (forget_incumbent (self st2))).
    rewrite Hs. reflexivity.
Qed.

End Incumbent.

Section SolveIncumbent.
Context {D : Domain}.
Variable E : Collaborators.
Variable algorithm_should_terminate : TerminationCheck.

Lemma check_config_blind :
  (forall config s1 s2,
     forget_incumbent s1 = forget_incumbent s2 ->
     fst (base_check_config E config s1) = fst (base_check_config E config s2)
     /\ forget_incumbent (snd (base_check_config E config s1))
        = forget_incumbent (snd (base_check_config E config s2))) ->
  incumbent_blind (check_config E).
Proof.
  intros Hbase. unfold check_config.
  apply incumbent_blind_bind.
  - unfold check_config_own.
    repeat first
      [ apply incumbent_blind_ret | apply incumbent_blind_raise
      | apply incumbent_blind_get_config | apply incumbent_blind_modify_config
      | apply incumbent_blind_bind; [ | intros ? ]
      | match goal with
        | |- incumbent_blind (if ?b then _ else _) => destruct b
        end ].
    apply incumbent_blind_modify. intros s.
    unfold check_config_mip_type. break_ifs; reflexivity.
  - intros _ st1 st2 [Hc Hs]. unfold call_base. cbn [res final cfg self].
    rewrite <- Hc. destruct (Hbase (cfg st1) _ _ Hs) as [H1 H2].
    split; [ reflexivity | split; assumption ].
Qed.

Lemma solve_setup_blind (model : Model) (options : Config) :
  setup_is_blind E model ->
  incumbent_blind (solve_setup E model options).
Proof.
  intros (Hbase & Hdata & Hblock & Hvalid & Hresults & Hobjective).
  unfold solve_setup.
  apply incumbent_blind_bind; [ apply incumbent_blind_modify_config | intros _ ].
  apply incumbent_blind_bind; [ apply check_config_blind, Hbase | intros _ ].
  apply incumbent_blind_bind; [ apply incumbent_blind_get_config | intros config ].
  apply incumbent_blind_bind;
    [ apply incumbent_blind_call_, Hdata | intros _ ].
  apply incumbent_blind_bind.
  { destruct (integer_to_binary config); [ | apply incumbent_blind_ret ].
    apply incumbent_blind_call_. intros s1 s2 Hs. split; [ reflexivity | ].
    cbn [snd].
    change (map_working_model (apply_integer_to_binary E) (forget_incumbent s1)
            = map_working_model (apply_integer_to_binary E) (forget_incumbent s2)).
    rewrite Hs. reflexivity. }
  intros _.
  apply incumbent_blind_bind;
    [ apply incumbent_blind_call_, Hblock | intros _ ].
  apply incumbent_blind_bind;
    [ apply incumbent_blind_call, Hvalid | intros valid ].
  destruct (negb valid); [ apply incumbent_blind_ret | ].
  apply incumbent_blind_bind;
    [ apply incumbent_blind_call_, Hresults | intros _ ].
  apply incumbent_blind_bind;
    [ apply incumbent_blind_call_, Hobjective | intros _ ].
  apply incumbent_blind_bind;
    [ apply restore_original_objective_blind | intros _ ].
  apply incumbent_blind_ret.
Qed.

(** [solve] overwrites the configuration it finds (line 70). *)
Lemma solve_setup_overwrites_config (model : Model) (options : Config) (st : State) :
  solve_setup E model options {| cfg := options; self := self st |}
  = solve_setup E model options st.
Proof. reflexivity. Qed.

(** Lines 123-124: [solve_model] starts by dropping the incumbent. *)
Lemma solve_model_resets_incumbent (config : Config) (fuel : nat) (st : State) :
  solve_model E algorithm_should_terminate config fuel st
  = solve_model E algorithm_should_terminate config fuel
      {| cfg := cfg st; self := forget_incumbent (self st) |}.
Proof.
  unfold solve_model. rewrite !bind_modify. reflexivity.
Qed.

End SolveIncumbent.

(** C10.  Let the collaborators that [solve] calls before line 123 be
    blind to the incumbent.  Two calls of [solve] on the same model with
    the same options, from solver objects that differ only in
    [best_solution_found] and [best_solution_found_time], end alike: same
    result, same configuration, same solver object up to the incumbent,
    and the very same solver object whenever the model was valid.  The
    reason is the reset: the part of [solve] from line 117 on does the
    same from a solver object and from that object with both attributes
    set to [None]. *)
Theorem solve_ignores_previous_incumbent
    {D : Domain} (E : Collaborators) (algorithm_should_terminate : TerminationCheck)
    (model : Model) (options : Config) (fuel : nat) (st1 st2 : State) :
  setup_is_blind E model ->
  forget_incumbent (self st1) = forget_incumbent (self st2) ->
  let out1 := solve E algorithm_should_terminate model options fuel st1 in
  let out2 := solve E algorithm_should_terminate model options fuel st2 in
  res out1 = res out2
  /\ cfg (final out1) = cfg (final out2)
  /\ forget_incumbent (self (final out1)) = forget_incumbent (self (final out2))
  /\ (res (solve_setup E model options st1) = Returned true ->
      self (final out1) = self (final out2))
  /\ (forall config st,
        solve_model E algorithm_should_terminate config fuel st
        = solve_model E algorithm_should_terminate config fuel
            {| cfg := cfg st;
               self := set_best_solution_found_time None
                         (set_best_solution_found None (self st)) |}).
Proof.
  intros Hblind Hs out1 out2.
  pose proof (@solve_setup_blind _ E model options Hblind
                {| cfg := options; self := self st1 |}
                {| cfg := options; self := self st2 |}
                (conj eq_refl Hs)) as Hsetup.
  rewrite !solve_setup_overwrites_config in Hsetup.
  destruct Hsetup as [Hres [Hcfg Hself]].
  set (f1 := final (solve_setup E model options st1)) in *.
  set (f2 := final (solve_setup E model options st2)) in *.
  assert (Hmodel :
    solve_model E algorithm_should_terminate (cfg f1) fuel f1
    = solve_model E algorithm_should_terminate (cfg f2) fuel f2).
  { rewrite (solve_model_resets_incumbent E algorithm_should_terminate
               (cfg f1) fuel f1).
    rewrite (solve_model_resets_incumbent E algorithm_should_terminate
               (cfg f2) fuel f2).
    rewrite Hcfg, Hself. reflexivity. }
  assert (Hrun :
    res out1 = res out2
    /\ cfg (final out1) = cfg (final out2)
    /\ forget_incumbent (self (final out1)) = forget_incumbent (self (final out2))
    /\ (res (solve_setup E model options st1) = Returned true ->
        self (final out1) = self (final out2))).
  { subst out1 out2. unfold solve. rewrite !res_bind, !final_bind.
    fold f1. fold f2. rewrite <- Hres.
    destruct (res (solve_setup E model options st1)) as [[ | ] | e | ].
    - rewrite !bind_get_config, Hmodel. repeat split.
    - cbn [ret res final].
      repeat split; [ exact Hcfg | exact Hself | intros H; discriminate H ].
    - repeat split; [ exact Hcfg | exact Hself | intros H; discriminate H ].
    - repeat split; [ exact Hcfg | exact Hself | intros H; discriminate H ]. }
  destruct Hrun as (H1 & H2 & H3 & H4).
  split; [ exact H1 | ]. split; [ exact H2 | ]. split; [ exact H3 | ].
  split; [ exact H4 | ].
  intros config st.
  apply (solve_model_resets_incumbent E algorithm_should_terminate config fuel st).
Qed.

(** The collaborators of the small instance are blind to the incumbent. *)
Lemma example_setup_is_blind tc pool (model : @Model Example.domain) :
  setup_is_blind (Example.collaborators tc pool) model.
Proof.
  unfold setup_is_blind, blind_, blind. cbn [Example.collaborators
    base_check_config set_up_solve_data create_utility_block model_is_valid
    setup_results_object process_objective fst snd].
  split; [ intros config s1 s2 H; split; [ reflexivity | exact H ] | ].
  split.
  { intros config s1 s2 H. split; [ reflexivity | ].
    change (set_working_model model (forget_incumbent s1)
            = set_working_model model (forget_incumbent s2)).
    rewrite H. reflexivity. }
  split; [ intros s1 s2 H; split; [ reflexivity | exact H ] | ].
  split; [ intros s1 s2 H; split; [ reflexivity | exact H ] | ].
  split; [ intros config s1 s2 H; split; [ reflexivity | exact H ] | ].
  intros config a b c d s1 s2 H. split; [ reflexivity | exact H ].
Qed.

Lemma solve_ignores_previous_incumbent_witness :
  res (solve (Example.collaborators tc_optimal []) Example.keep_going
         (Example.model (Some 1) [AInt 0])
         (Example.no_good_config (Some "level_L1")) 3
         (Example.fresh_state (Example.no_good_config None)))
  = res (solve (Example.collaborators tc_optimal []) Example.keep_going
           (Example.model (Some 1) [AInt 0])
           (Example.no_good_config (Some "level_L1")) 3
           (Example.stale_state (Example.no_good_config None))).
Proof.
  exact (proj1 (@solve_ignores_previous_incumbent Example.domain
                  (Example.collaborators tc_optimal []) Example.keep_going
                  (Example.model (Some 1) [AInt 0])
                  (Example.no_good_config (Some "level_L1")) 3
                  (Example.fresh_state (Example.no_good_config None))
                  (Example.stale_state (Example.no_good_config None))
                  (example_setup_is_blind tc_optimal []
                     (Example.model (Some 1) [AInt 0]))
                  eq_refl)).
Defined.

(** ** Cycling (line 213, with the termination check of the
    specification) *)
Section Cycling.
Context {D : Domain}.
Variable E : Collaborators.
Variable algorithm_should_terminate : TerminationCheck.
Variable config : Config.


End Cycling.




(** ** The solution pool (lines 230-281) *)

Section PoolSort.
Variable reverse : bool.

Lemma Qltb_true (a b : Q) : Qltb a b = true -> (a <= b)%Q.
Proof.
  unfold Qltb. intros H. apply negb_true_iff in H.
  destruct (Qlt_le_dec a b) as [Hlt | Hle].
  - apply Qlt_le_weak. exact Hlt.
  - apply Qle_bool_iff in Hle. congruence.
Qed.

Lemma Qltb_false (a b : Q) : Qltb a b = false -> (b <= a)%Q.
Proof.
  unfold Qltb. intros H. apply negb_false_iff in H.
  apply Qle_bool_iff. exact H.
Qed.

Lemma goes_after_true (x y : PoolName * Q) :
  goes_after reverse x y = true -> pool_order reverse y x.
Proof.
  unfold goes_after, pool_order. destruct reverse; apply Qltb_true.
Qed.

Lemma goes_after_false (x y : PoolName * Q) :
  goes_after reverse x y = false -> pool_order reverse x y.
Proof.
  unfold goes_after, pool_order. destruct reverse; apply Qltb_false.
Qed.

Lemma pool_order_trans (x y z : PoolName * Q) :
  pool_order reverse x y -> pool_order reverse y z -> pool_order reverse x z.
Proof.
  unfold pool_order. destruct reverse; intros Hxy Hyz.
  - apply Qle_trans with (snd y); assumption.
  - apply Qle_trans with (snd y); assumption.
Qed.

Lemma sort_insert_perm (x : PoolName * Q) (l : list (PoolName * Q)) :
  Permutation (x :: l) (sort_insert reverse x l).
Proof.
  induction l as [ | y l IH ]; simpl; [ apply Permutation_refl | ].
  destruct (goes_after reverse x y); [ | apply Permutation_refl ].
  apply perm_trans with (y :: x :: l); [ apply perm_swap | ].
  apply perm_skip. exact IH.
Qed.

Lemma sort_by_objective_perm (l : list (PoolName * Q)) :
  Permutation l (sort_by_objective reverse l).
Proof.
  induction l as [ | x l IH ]; simpl; [ apply perm_nil | ].
  apply perm_trans with (x :: sort_by_objective reverse l).
  - apply perm_skip. exact IH.
  - apply sort_insert_perm.
Qed.

Lemma sort_insert_sorted (x : PoolName * Q) (l : list (PoolName * Q)) :
  StronglySorted (pool_order reverse) l ->
  StronglySorted (pool_order reverse) (sort_insert reverse x l).
Proof.
  induction 1 as [ | y l Hsorted IH Hall ]; simpl.
  - constructor; constructor.
  - destruct (goes_after reverse x y) eqn:Hafter.
    + constructor; [ exact IH | ].
      apply Forall_forall. intros z Hz.
      apply (Permutation_in z (Permutation_sym (sort_insert_perm x l))) in Hz.
      destruct Hz as [<- | Hz].
      * apply goes_after_true. exact Hafter.
      * rewrite Forall_forall in Hall. apply Hall. exact Hz.
    + apply goes_after_false in Hafter.
      constructor; [ constructor; assumption | ].
      constructor; [ exact Hafter | ].
      apply Forall_forall. intros z Hz. rewrite Forall_forall in Hall.
      apply pool_order_trans with y; [ exact Hafter | apply Hall; exact Hz ].
Qed.

Lemma sort_by_objective_sorted (l : list (PoolName * Q)) :
  StronglySorted (pool_order reverse) (sort_by_objective reverse l).
Proof.
  induction l as [ | x l IH ]; simpl; [ constructor | ].
  apply sort_insert_sorted. exact IH.
Qed.

End PoolSort.

Section PoolLog.
Context {D : Domain}.
Variable E : Collaborators.
Variable algorithm_should_terminate : TerminationCheck.
Variable config : Config.
Variable results : SolverResults.

(** Lines 254-267. *)
Lemma load_pool_solution_out (name : PoolName) (st : State) :
  res (load_pool_solution E config results name st)
  = Returned (pool_solution_explored E config results name (self st))
  /\ emitted (load_pool_solution E config results name st)
     = [{| ev_call := call_copy_from_solution_pool name; ev_self := self st |}].
Proof.
  unfold load_pool_solution, bind, call_, call, modify, get_self.
  cbn [res final emitted app cfg self fst snd].
  unfold pool_solution_explored, pool_assignment.
  cbn [curr_int_sol integer_list working_model set_curr_int_sol
       set_working_model].
  destruct (asg_in _ _); split; reflexivity.
Qed.

(** Lines 268-281: the subproblem of the entry is solved first; more can
    follow only while the counter is below the cap. *)
Lemma explore_pool_entry_out (counter : Z) (last_iter_cuts : bool)
    (next : M bool) (st : State) :
  exists e2 e3 e4 tail,
    emitted (explore_pool_entry E algorithm_should_terminate config counter
               last_iter_cuts next st)
    = {| ev_call := call_solve_subproblem; ev_self := self st |}
      :: e2 :: e3 :: e4 :: tail
    /\ ev_call e2 = call_handle_nlp_subproblem_tc
    /\ ev_call e3 = call_after_subproblem
    /\ ev_call e4 = call_algorithm_should_terminate false
    /\ (tail = []
        \/ (counter < num_solution_iteration config
            /\ exists st', tail = emitted (next st'))).
Proof.
  unfold explore_pool_entry, solve_and_handle_subproblem. run.
  destruct (fst (solve_subproblem E config (self st))) as [nlp nlp_result]. run.
  do 3 eexists.
  match goal with
  | |- context [if ?stop then _ else _] => destruct stop
  end.
  - exists []. repeat split; auto.
  - destruct (counter >=? num_solution_iteration config) eqn:Hcap.
    + exists []. repeat split; auto.
    + eexists. split; [ reflexivity | ]. repeat split.
      right. split; [ | eexists; reflexivity ].
      rewrite Z.geb_leb in Hcap. apply Z.leb_gt in Hcap. exact Hcap.
Qed.

End PoolLog.

Section PoolLoop.
Context {D : Domain}.
Variable E : Collaborators.
Variable algorithm_should_terminate : TerminationCheck.
Variable config : Config.
Variable results : SolverResults.

Lemma pool_copy_names_copy (name : PoolName) (s : Solver) (l : list Event) :
  pool_copy_names
    ({| ev_call := call_copy_from_solution_pool name; ev_self := s |} :: l)
  = name :: pool_copy_names l.
Proof. reflexivity. Qed.

(** The log of an entry whose subproblem is solved, followed by the log
    of the rest. *)
Lemma solved_entry_log (names : list PoolName) (bound : nat)
    (e1 e2 e3 e4 : Event) (tail : list Event) :
  ev_call e1 = call_solve_subproblem ->
  ev_call e2 = call_handle_nlp_subproblem_tc ->
  ev_call e3 = call_after_subproblem ->
  ev_call e4 = call_algorithm_should_terminate false ->
  (1 <= bound)%nat ->
  pool_log_ok E config results names (bound - 1) tail ->
  (exists suffix,
     pool_copy_names (e1 :: e2 :: e3 :: e4 :: tail) ++ suffix = names)
  /\ skips_respected E config results (e1 :: e2 :: e3 :: e4 :: tail)
  /\ (count_solves (e1 :: e2 :: e3 :: e4 :: tail) <= bound)%nat.
Proof.
  intros H1 H2 H3 H4 Hbound ([suffix Hnames] & Hskips & Hcount & _).
  unfold count_solves in *.
  cbn [pool_copy_names skips_respected filter].
  set (solved := filter is_subproblem_solve tail) in *.
  unfold pool_copy_name, is_subproblem_solve. rewrite H1, H2, H3, H4.
  cbn [List.length].
  split; [ exists suffix; exact Hnames | ].
  split; [ auto | lia ].
Qed.

Lemma pool_loop_log (entries : list (PoolName * Q)) :
  forall counter last_iter_cuts st,
    1 <= counter ->
    pool_log_ok E config results (map fst entries)
      (Z.to_nat (Z.max 1 (num_solution_iteration config - counter)))
      (emitted (pool_loop E algorithm_should_terminate config results entries
                  counter last_iter_cuts st)).
Proof.
  induction entries as [ | [name obj] rest IH ]; intros counter lic st Hc.
  - cbn. repeat split; auto; try (cbn; lia). exists []. reflexivity.
  - cbn [pool_loop map fst].
    assert (Hge : (counter >=? 1) = true) by (apply Z.geb_le; lia).
    rewrite emitted_bind, Hge.
    destruct (load_pool_solution_out E config results name st) as [Hres Hem].
    rewrite Hres, Hem.
    destruct (pool_solution_explored E config results name (self st)) eqn:Hexp.
    + (* the entry is skipped *)
      destruct (IH counter lic
                  (final (load_pool_solution E config results name st)) Hc)
        as ([suffix Hnames] & Hskips & Hcount & Hhead).
      cbn [app]. repeat split.
      * exists suffix. cbn [pool_copy_names pool_copy_name ev_call app].
        rewrite Hnames. reflexivity.
      * cbn [skips_respected pool_copy_name ev_call ev_self].
        destruct Hhead as [-> | (name' & s' & l' & ->)].
        -- exact Hexp.
        -- rewrite Hexp. reflexivity.
      * exact Hskips.
      * exact Hcount.
      * right. eauto.
    + (* its subproblem is solved *)
      destruct (explore_pool_entry_out E algorithm_should_terminate config
                  (counter + 1) lic
                  (pool_loop E algorithm_should_terminate config results rest
                     (counter + 1) lic)
                  (final (load_pool_solution E config results name st)))
        as (e2 & e3 & e4 & tail & Hshape & H2 & H3 & H4 & Htail).
      rewrite Hshape. cbn [app].
      assert (Hok : pool_log_ok E config results (map fst rest)
                      (Z.to_nat (Z.max 1 (num_solution_iteration config - counter))
                       - 1)
                      tail).
      { destruct Htail as [-> | (Hcap & st' & ->)].
        - split; [ exists (map fst rest); reflexivity | ].
          split; [ exact I | ]. split; [ cbn; lia | left; reflexivity ].
        - destruct (IH (counter + 1) lic st' ltac:(lia))
            as (Hn & Hs & Hcnt & Hh).
          split; [ exact Hn | ]. split; [ exact Hs | ].
          split; [ lia | exact Hh ]. }
      assert (Hbound :
        (1 <= Z.to_nat (Z.max 1 (num_solution_iteration config - counter)))%nat)
        by lia.
      destruct (solved_entry_log
                  {| ev_call := call_solve_subproblem;
                     ev_self := self (final (load_pool_solution E config
                                               results name st)) |}
                  e2 e3 e4 eq_refl H2 H3 H4 Hbound Hok)
        as ([suffix Hnames] & Hskips & Hcount).
      split; [ | split; [ | split ] ].
      * exists suffix. rewrite pool_copy_names_copy. cbn [app].
        rewrite Hnames. reflexivity.
      * split; [ | exact Hskips ].
        cbn [pool_copy_name ev_call ev_self is_subproblem_solve].
        rewrite Hexp. reflexivity.
      * exact Hcount.
      * right. eauto.
Qed.

(** Lines 231-246 read the pool and change nothing. *)
Lemma solution_pool_entries_pure
    (main_mip_results : option SolverResults) (st : State) :
  final (solution_pool_entries E config main_mip_results st) = st
  /\ emitted (solution_pool_entries E config main_mip_results st) = [].
Proof.
  unfold solution_pool_entries.
  destruct (String.eqb (mip_solver config) "cplex_persistent");
    [ | destruct (String.eqb (mip_solver config) "gurobi_persistent") ];
    try (split; reflexivity);
    destruct main_mip_results; split; reflexivity.
Qed.

End PoolLoop.

(** ** The exploration of the pool, call by call (lines 250-281) *)
Section PoolRunProofs.
Context {D : Domain}.
Variable E : Collaborators.
Variable algorithm_should_terminate : TerminationCheck.
Variable config : Config.
Variable results : SolverResults.

(** Lines 268-281: the four calls, then the end of the exploration or
    the rest of the [for] loop. *)
Lemma explore_pool_entry_run (counter : Z) (last_iter_cuts : bool)
    (next : M bool) (st : State) :
  exists e1 e2 e3 e4 st',
    solve_calls e1 e2 e3 e4
    /\ ev_self e1 = self st
    /\ explore_pool_entry E algorithm_should_terminate config counter
         last_iter_cuts next st
       = after [e1; e2; e3; e4]
           (if fst (algorithm_should_terminate config false (ev_self e4))
            then ret true st'
            else if counter >=? num_solution_iteration config
                 then ret last_iter_cuts st'
                 else next st').
Proof.
  unfold explore_pool_entry, solve_and_handle_subproblem. run.
  destruct (fst (solve_subproblem E config (self st))) as [nlp nlp_result]. run.
  match goal with
  | |- context [ {| ev_call := call_handle_nlp_subproblem_tc; ev_self := ?s2 |} ] =>
  match goal with
  | |- context [ {| ev_call := call_after_subproblem; ev_self := ?s3 |} ] =>
  match goal with
  | |- context [ {| ev_call := call_algorithm_should_terminate false;
                    ev_self := ?s4 |} ] =>
      exists {| ev_call := call_solve_subproblem; ev_self := self st |},
             {| ev_call := call_handle_nlp_subproblem_tc; ev_self := s2 |},
             {| ev_call := call_after_subproblem; ev_self := s3 |},
             {| ev_call := call_algorithm_should_terminate false; ev_self := s4 |},
             {| cfg := cfg st;
                self := snd (algorithm_should_terminate config false s4) |}
  end end end.
  split; [ repeat split | ]. split; [ reflexivity | ].
  cbn [ev_self].
  match goal with
  | |- context [if ?stop then _ else _] => destruct stop
  end.
  - reflexivity.
  - destruct (counter >=? num_solution_iteration config); [ reflexivity | ].
    unfold after. cbn [res final emitted app]. destruct (next _). reflexivity.
Qed.

(** What follows the subproblem of an entry, in the log and in the
    result. *)
Lemma solved_entry_run (counter : Z) (last_iter_cuts : bool)
    (next : M bool) (rest : list Event -> Prop) (st : State) :
  (forall st', rest (emitted (next st'))
               /\ exists b, res (next st') = Returned b) ->
  let out := explore_pool_entry E algorithm_should_terminate config counter
               last_iter_cuts next st in
  solved_then algorithm_should_terminate config counter rest (emitted out)
  /\ (exists l, emitted out
                = {| ev_call := call_solve_subproblem; ev_self := self st |} :: l)
  /\ exists b, res out = Returned b.
Proof.
  intros Hnext out. subst out.
  destruct (explore_pool_entry_run counter last_iter_cuts next st)
    as (e1 & e2 & e3 & e4 & st' & Hcalls & Hself & Hrun).
  rewrite Hrun.
  unfold after. cbn [res emitted app solved_then]. unfold ends_exploration.
  assert (He1 : e1 = {| ev_call := call_solve_subproblem; ev_self := self st |}).
  { destruct e1 as [c1 s1]. destruct Hcalls as (Hc1 & _).
    cbn in Hc1, Hself. subst c1 s1. reflexivity. }
  split; [ | split; [ rewrite He1; eexists; reflexivity | ] ];
    destruct (fst (algorithm_should_terminate config false (ev_self e4)));
    cbn [orb ret res emitted];
    try (split; [ exact Hcalls | reflexivity ]); eauto;
    destruct (counter >=? num_solution_iteration config); cbn [ret res emitted];
    try (split; [ exact Hcalls | reflexivity ]); eauto;
    destruct (Hnext st') as [Hrest Hres];
    [ split; [ exact Hcalls | exact Hrest ] | exact Hres ].
Qed.

Lemma pool_loop_run (entries : list (PoolName * Q)) :
  forall counter last_iter_cuts st,
    1 <= counter ->
    let out := pool_loop E algorithm_should_terminate config results entries
                 counter last_iter_cuts st in
    later_entries E algorithm_should_terminate config results
      (map fst entries) counter (emitted out)
    /\ exists b, res out = Returned b.
Proof.
  induction entries as [ | [name obj] rest IH ]; intros counter lic st Hc out;
    subst out.
  - cbn. eauto.
  - cbn [pool_loop map fst later_entries].
    assert (Hge : (counter >=? 1) = true) by (apply Z.geb_le; lia).
    rewrite emitted_bind, res_bind, Hge.
    destruct (load_pool_solution_out E config results name st) as [Hres Hem].
    rewrite Hres, Hem. cbn [app ev_call ev_self].
    destruct (pool_solution_explored E config results name (self st)).
    + destruct (IH counter lic
                  (final (load_pool_solution E config results name st)) Hc)
        as [Hlog Hret].
      split; [ split; [ reflexivity | exact Hlog ] | exact Hret ].
    + destruct (@solved_entry_run (counter + 1) lic
                  (pool_loop E algorithm_should_terminate config results rest
                     (counter + 1) lic)
                  (later_entries E algorithm_should_terminate config results
                     (map fst rest) (counter + 1))
                  (final (load_pool_solution E config results name st)))
        as (Hlog & _ & Hret).
      { intros st'. apply IH. lia. }
      split; [ split; [ reflexivity | exact Hlog ] | exact Hret ].
Qed.

(** Lines 231-281 once the pool is read. *)
Lemma explore_solution_pool_run
    (main_mip_results : option SolverResults) (last_iter_cuts : bool)
    (st : State) (entries : list (PoolName * Q)) :
  res (solution_pool_entries E config main_mip_results st)
  = Returned (results, entries) ->
  let out := explore_solution_pool E algorithm_should_terminate config
               main_mip_results last_iter_cuts st in
  pool_exploration_log E algorithm_should_terminate config results
    (map fst (sort_by_objective
                (Sense_eqb (objective_sense (self st)) maximize) entries))
    (emitted out)
  /\ (entries <> [] ->
      exists l, emitted out
                = {| ev_call := call_solve_subproblem; ev_self := self st |} :: l)
  /\ exists b, res out = Returned b.
Proof.
  intros Hentries out. subst out.
  destruct (solution_pool_entries_pure E config main_mip_results st)
    as [Hfinal Hnone].
  unfold explore_solution_pool.
  rewrite emitted_bind, res_bind, Hnone, Hentries, Hfinal. cbn [app].
  rewrite emitted_bind, res_bind. cbn [get_self res final emitted app].
  pose proof (sort_by_objective_perm
                (Sense_eqb (objective_sense (self st)) maximize) entries)
    as Hperm.
  destruct (sort_by_objective _ entries) as [ | [name obj] rest ].
  - cbn. split; [ reflexivity | ]. split; [ | eauto ].
    intros Hne. apply Permutation_sym, Permutation_nil in Hperm. contradiction.
  - cbn [pool_loop map fst pool_exploration_log].
    rewrite emitted_bind, res_bind.
    change (0 >=? 1) with false. cbn [ret res final emitted app].
    destruct (@solved_entry_run (0 + 1) last_iter_cuts
                (pool_loop E algorithm_should_terminate config results rest
                   (0 + 1) last_iter_cuts)
                (later_entries E algorithm_should_terminate config results
                   (map fst rest) 1) st)
      as (Hlog & Hfirst & Hret).
    { intros st'. apply pool_loop_run. lia. }
    split; [ exact Hlog | ]. split; [ intros _; exact Hfirst | exact Hret ].
Qed.

End PoolRunProofs.

(** C7 (as amended).  In solution-pool mode the entries of the pool are
    sorted by objective value, ascending, or descending when the sense is
    [maximize], and gone through in that order.  The first entry is not
    looked up in [integer_list]: its subproblem is solved at once.  Every
    later entry that is reached is loaded into the working model and
    looked up: when its assignment is in [integer_list] it is skipped,
    with no subproblem solve, and the next entry follows; when it is not,
    its subproblem is solved.  After each subproblem the exploration ends
    if [algorithm_should_terminate] with [check_cycling=False] reports
    termination (line 276) or if the number of subproblems solved in this
    exploration has reached [num_solution_iteration] (line 280; skipped
    entries are not counted); otherwise it goes on with the next entry,
    until the pool is exhausted.  So at most
    [max(1, num_solution_iteration)] subproblems are solved; and the
    exploration returns. *)
Theorem solution_pool_exploration
    {D : Domain} (E : Collaborators) (algorithm_should_terminate : TerminationCheck)
    (config : Config) (main_mip_results : option SolverResults)
    (last_iter_cuts : bool) (st : State)
    (results : SolverResults) (entries : list (PoolName * Q)) :
  res (solution_pool_entries E config main_mip_results st)
  = Returned (results, entries) ->
  let reverse := Sense_eqb (objective_sense (self st)) maximize in
  let sorted := sort_by_objective reverse entries in
  let out :=
    explore_solution_pool E algorithm_should_terminate config
      main_mip_results last_iter_cuts st in
  let calls := emitted out in
  Permutation entries sorted
  /\ StronglySorted (pool_order reverse) sorted
  /\ pool_exploration_log E algorithm_should_terminate config results
       (map fst sorted) calls
  /\ match sorted with
     | [] => calls = []
     | first :: rest =>
         (exists l,
            calls = {| ev_call := call_solve_subproblem; ev_self := self st |} :: l)
         /\ exists suffix, pool_copy_names calls ++ suffix = map fst rest
     end
  /\ skips_respected E config results calls
  /\ (count_solves calls
      <= Z.to_nat (Z.max 1 (num_solution_iteration config)))%nat
  /\ exists last_iter_cuts', res out = Returned last_iter_cuts'.
Proof.
  intros Hentries reverse sorted out calls.
  split; [ apply sort_by_objective_perm | ].
  split; [ apply sort_by_objective_sorted | ].
  destruct (@explore_solution_pool_run _ E algorithm_should_terminate config
              results main_mip_results last_iter_cuts st entries Hentries)
    as (Hlog & _ & Hret).
  split; [ exact Hlog | ].
  cut (match sorted with
       | [] => calls = []
       | first :: rest =>
           (exists l,
              calls = {| ev_call := call_solve_subproblem; ev_self := self st |}
                      :: l)
           /\ exists suffix, pool_copy_names calls ++ suffix = map fst rest
       end
       /\ skips_respected E config results calls
       /\ (count_solves calls
           <= Z.to_nat (Z.max 1 (num_solution_iteration config)))%nat).
  { intros (H1 & H2 & H3). repeat split; assumption. }
  clear Hlog Hret.
  destruct (solution_pool_entries_pure E config main_mip_results st)
    as [Hfinal Hnone].
  assert (Hcalls :
    calls = emitted (pool_loop E algorithm_should_terminate config results
                       sorted 0 last_iter_cuts st)).
  { subst calls out. unfold explore_solution_pool.
    rewrite emitted_bind, Hnone, Hentries, Hfinal. cbn [app].
    rewrite emitted_bind. reflexivity. }
  rewrite Hcalls. clear Hcalls calls.
  destruct sorted as [ | [name obj] rest ].
  - cbn. repeat split; auto. lia.
  - cbn [pool_loop]. rewrite emitted_bind.
    change (0 >=? 1) with false. cbn [ret res final emitted app].
    destruct (explore_pool_entry_out E algorithm_should_terminate config
                (0 + 1) last_iter_cuts
                (pool_loop E algorithm_should_terminate config results rest
                   (0 + 1) last_iter_cuts) st)
      as (e2 & e3 & e4 & tail & Hshape & H2 & H3 & H4 & Htail).
    rewrite Hshape.
    assert (Hbound :
      (1 <= Z.to_nat (Z.max 1 (num_solution_iteration config)))%nat) by lia.
    assert (Hok : pool_log_ok E config results (map fst rest)
                    (Z.to_nat (Z.max 1 (num_solution_iteration config)) - 1)
                    tail).
    { destruct Htail as [-> | (Hcap & st' & ->)].
      - split; [ exists (map fst rest); reflexivity | ].
        split; [ exact I | ]. split; [ cbn; lia | left; reflexivity ].
      - destruct (@pool_loop_log _ E algorithm_should_terminate config results
                    rest (0 + 1) last_iter_cuts st' ltac:(lia))
          as (Hn & Hs & Hcnt & Hh).
        split; [ exact Hn | ]. split; [ exact Hs | ].
        split; [ lia | exact Hh ]. }
    destruct (@solved_entry_log _ E config results (map fst rest) _
                {| ev_call := call_solve_subproblem; ev_self := self st |}
                e2 e3 e4 tail eq_refl H2 H3 H4 Hbound Hok)
      as (Hnames & Hskips & Hcount).
    split; [ split; [ eexists; reflexivity | exact Hnames ] | ].
    split; [ exact Hskips | exact Hcount ].
Qed.

Lemma solution_pool_exploration_witness :
  pool_exploration_log
    (Example.collaborators tc_optimal Example.four_solutions)
    Example.keep_going (Example.pool_config 2)
    (Example.pool_results Example.four_solutions)
    [pool_str "b"; pool_str "c"; pool_str "d"; pool_str "a"]
    (emitted (explore_solution_pool
                (Example.collaborators tc_optimal Example.four_solutions)
                Example.keep_going (Example.pool_config 2)
                (Some (Example.pool_results Example.four_solutions)) false
                (Example.explored_state (Example.pool_config 2))))
  /\ (count_solves
        (emitted (explore_solution_pool
                    (Example.collaborators tc_optimal Example.four_solutions)
                    Example.keep_going (Example.pool_config 2)
                    (Some (Example.pool_results Example.four_solutions)) false
                    (Example.explored_state (Example.pool_config 2))))
      <= 2)%nat.
Proof.
  pose proof
    (@solution_pool_exploration Example.domain
       (Example.collaborators tc_optimal Example.four_solutions)
       Example.keep_going (Example.pool_config 2)
       (Some (Example.pool_results Example.four_solutions)) false
       (Example.explored_state (Example.pool_config 2))
       (Example.pool_results Example.four_solutions)
       [ (pool_str "a", 3%Q); (pool_str "b", 1%Q);
         (pool_str "c", 2%Q); (pool_str "d", 2%Q) ]
       eq_refl) as H.
  cbv zeta in H.
  exact (conj (proj1 (proj2 (proj2 H)))
              (proj1 (proj2 (proj2 (proj2 (proj2 (proj2 H))))))).
Defined.

(** C7 (as stated) fails: the only solution of the pool has an
    assignment that is explored already, and its subproblem is solved. *)
Lemma explored_first_entry_is_solved :
  pool_solution_explored (Example.collaborators tc_optimal Example.one_solution)
    (Example.pool_config 5) (Example.pool_results Example.one_solution)
    (pool_str "a") (self (Example.explored_state (Example.pool_config 5)))
  = true
  /\ map ev_call (emitted Example.one_solution_run)
     = [call_solve_subproblem; call_handle_nlp_subproblem_tc;
        call_after_subproblem; call_algorithm_should_terminate false].
Proof. vm_compute. split; reflexivity. Qed.

(** With a cap of five, every entry of the pool of four is reached: the
    subproblem of ["b"], the first, is solved; ["c"] is loaded and solved;
    ["d"], whose assignment is explored, is loaded and skipped; ["a"] is
    loaded and solved; the pool is exhausted. *)
Example four_solutions_run_calls :
  res Example.four_solutions_run = Returned false
  /\ map ev_call (emitted Example.four_solutions_run)
     = [ call_solve_subproblem; call_handle_nlp_subproblem_tc;
         call_after_subproblem; call_algorithm_should_terminate false;
         call_copy_from_solution_pool (pool_str "c"); call_solve_subproblem;
         call_handle_nlp_subproblem_tc; call_after_subproblem;
         call_algorithm_should_terminate false;
         call_copy_from_solution_pool (pool_str "d");
         call_copy_from_solution_pool (pool_str "a"); call_solve_subproblem;
         call_handle_nlp_subproblem_tc; call_after_subproblem;
         call_algorithm_should_terminate false ].
Proof. vm_compute. split; reflexivity. Qed.

(** * Further properties of the controller *)

(** ** [check_config]: its outcome and the options it derives *)

(** X1.  [check_config] has two outcomes.  With [single_tree] set and a
    [mip_solver] that is neither ['cplex_persistent'] nor
    ['gurobi_persistent'] it raises [ValueError], having called nothing
    and with the solver object untouched.  In every other case it
    returns, and its one call is the check of the base class. *)
Theorem check_config_outcome
    {D : Domain} (E : Collaborators) (st : State) :
  let out := check_config E st in
  if single_tree (cfg st)
     && negb (str_in (mip_solver (cfg st)) lazy_callback_solvers)
  then res out = Raised ValueError
       /\ emitted out = []
       /\ self (final out) = self st
  else res out = Returned tt
       /\ map ev_call (emitted out) = [call_base_check_config].
Proof.
  intros out. subst out. unfold check_config.
  rewrite res_bind, emitted_bind, final_bind, check_config_own_unfold.
  cbv zeta.
  destruct (check_config_regularization_frame (cfg st)) as (Hst & Hsolver & _).
  rewrite Hst.
  replace (mip_solver (set_add_slack false
                         (set_iteration_limit 1
                            (check_config_regularization (cfg st)))))
    with (mip_solver (cfg st)) by (symmetry; exact Hsolver).
  destruct (single_tree (cfg st)); cbn [andb].
  - destruct (negb (str_in (mip_solver (cfg st)) lazy_callback_solvers));
      cbn [res final emitted app cfg self call_base map ev_call];
      repeat split; reflexivity.
  - cbn [res final emitted app cfg self call_base map ev_call].
    split; reflexivity.
Qed.

(** The configuration block [check_config] leaves when it raises
    nothing: lines 327-358 as one function of the block it finds. *)
Lemma check_config_own_returns {D : Domain} (st : State) :
  res (check_config_own st) = Returned tt ->
  let c1 := check_config_regularization (cfg st) in
  let c3 :=
    if single_tree c1 then
      let c2 := set_add_slack false (set_iteration_limit 1 c1) in
      if threads c2 >? 1 then set_threads 1 c2 else c2
    else c1 in
  cfg (final (check_config_own st)) = check_config_options c3
  /\ self (final (check_config_own st))
     = check_config_mip_type (check_config_options c3) (self st).
Proof.
  rewrite check_config_own_unfold. cbv zeta.
  destruct (single_tree (check_config_regularization (cfg st)));
    [ | intros _; split; reflexivity ].
  destruct (negb (str_in _ lazy_callback_solvers));
    [ discriminate | intros _; split; reflexivity ].
Qed.

(** What lines 327-340 and 352-358 do to the thread counts. *)
Lemma check_config_regularization_threads (config : Config) :
  threads (check_config_regularization config) = threads config
  /\ regularization_mip_threads (check_config_regularization config)
     = (if is_not_None (add_regularization config)
           && (regularization_mip_threads config =? 0)
           && (threads config >? 0)
        then threads config
        else regularization_mip_threads config).
Proof.
  unfold check_config_regularization. cbv zeta.
  destruct (is_not_None (add_regularization config)); cbn [andb];
    [ | split; reflexivity ].
  destruct (opt_str_in (add_regularization config) _);
    cbn [set_calculate_dual_at_solution regularization_mip_threads threads
         single_tree reduce_level_coef use_bb_tree_incumbent
         mip_regularization_solver];
    destruct ((regularization_mip_threads config =? 0) && (threads config >? 0));
    break_ifs; split; reflexivity.
Qed.

Lemma check_config_options_threads (config : Config) :
  threads (check_config_options config) = threads config
  /\ regularization_mip_threads (check_config_options config)
     = regularization_mip_threads config.
Proof.
  unfold check_config_options. cbv zeta. break_ifs; split; reflexivity.
Qed.

(** X2.  When [check_config] raises nothing, [threads] is capped at 1 in
    single-tree mode and is otherwise as the user set it; with
    regularization, a [regularization_mip_threads] of 0 takes the thread
    count the user set, not the capped one. *)
Theorem threads_after_check_config {D : Domain} (st : State) :
  res (check_config_own st) = Returned tt ->
  let c := cfg (final (check_config_own st)) in
  threads c
  = (if single_tree (cfg st) then Z.min (threads (cfg st)) 1
     else threads (cfg st))
  /\ regularization_mip_threads c
     = (if is_not_None (add_regularization (cfg st))
           && (regularization_mip_threads (cfg st) =? 0)
           && (threads (cfg st) >? 0)
        then threads (cfg st)
        else regularization_mip_threads (cfg st)).
Proof.
  intros Hres c. subst c.
  destruct (check_config_own_returns st Hres) as [Hcfg _].
  cbv zeta in Hcfg. rewrite Hcfg. clear Hcfg Hres.
  destruct (check_config_regularization_frame (cfg st)) as (Hst & _).
  destruct (check_config_regularization_threads (cfg st)) as (Hthr & Hrmt).
  set (c1 := check_config_regularization (cfg st)) in *.
  rewrite Hst.
  destruct (single_tree (cfg st)).
  - set (c2 := set_add_slack false (set_iteration_limit 1 c1)).
    assert (H2 : threads c2 = threads (cfg st)
                 /\ regularization_mip_threads c2 = regularization_mip_threads c1)
      by (subst c2; cbn; split; [ exact Hthr | reflexivity ]).
    destruct H2 as [Hthr2 Hrmt2].
    destruct (threads c2 >? 1) eqn:Hcap.
    + destruct (check_config_options_threads (set_threads 1 c2)) as [Ht Hr].
      rewrite Ht, Hr. cbn [set_threads threads regularization_mip_threads].
      rewrite Hrmt2, Hrmt. split; [ lia | reflexivity ].
    + destruct (check_config_options_threads c2) as [Ht Hr].
      rewrite Ht, Hr, Hthr2, Hrmt2, Hrmt. split; [ lia | reflexivity ].
  - destruct (check_config_options_threads c1) as [Ht Hr].
    rewrite Ht, Hr, Hthr, Hrmt. split; reflexivity.
Qed.

Lemma threads_after_check_config_witness :
  threads
    (cfg (final (check_config_own
                   (Example.fresh_state Example.regularized_tree_config)))) = 1
  /\ regularization_mip_threads
       (cfg (final (check_config_own
                      (Example.fresh_state Example.regularized_tree_config)))) = 4.
Proof.
  destruct (@threads_after_check_config Example.domain
              (Example.fresh_state Example.regularized_tree_config) eq_refl)
    as [Hthreads Hregularization].
  split; [ rewrite Hthreads | rewrite Hregularization ]; reflexivity.
Defined.

(** *** [check_config] in closed form *)

Ltac config_fields :=
  cbn [add_regularization calculate_dual_at_solution regularization_mip_threads
       threads single_tree add_cuts_at_incumbent reduce_level_coef
       use_bb_tree_incumbent mip_regularization_solver mip_solver
       iteration_limit add_slack heuristic_nonconvex equality_relaxation
       init_strategy move_objective add_no_good_cuts use_tabu_list
       solution_pool num_solution_iteration integer_to_binary fp_projcuts
       use_mcpp partition_obj_nonlinear_terms].

Ltac config_steps :=
  cbv beta iota zeta
    delta [check_config_regularization check_config_options
           set_calculate_dual_at_solution set_regularization_mip_threads
           set_add_cuts_at_incumbent set_use_bb_tree_incumbent
           set_mip_regularization_solver set_iteration_limit set_add_slack
           set_threads set_equality_relaxation set_move_objective
           add_regularization calculate_dual_at_solution
           regularization_mip_threads threads single_tree
           add_cuts_at_incumbent reduce_level_coef use_bb_tree_incumbent
           mip_regularization_solver mip_solver iteration_limit add_slack
           heuristic_nonconvex equality_relaxation init_strategy
           move_objective add_no_good_cuts use_tabu_list solution_pool
           num_solution_iteration integer_to_binary fp_projcuts use_mcpp
           partition_obj_nonlinear_terms
           is_not_None is_None opt_str_in].

Lemma check_config_options_closed (c : Config) :
  check_config_options c
  = {| add_regularization := add_regularization c;
       calculate_dual_at_solution :=
         heuristic_nonconvex c || equality_relaxation c
         || calculate_dual_at_solution c;
       regularization_mip_threads := regularization_mip_threads c;
       threads := threads c;
       single_tree := single_tree c;
       add_cuts_at_incumbent := add_cuts_at_incumbent c;
       reduce_level_coef := reduce_level_coef c;
       use_bb_tree_incumbent := use_bb_tree_incumbent c;
       mip_regularization_solver := mip_regularization_solver c;
       mip_solver := mip_solver c;
       iteration_limit := iteration_limit c;
       add_slack := heuristic_nonconvex c || add_slack c;
       heuristic_nonconvex := heuristic_nonconvex c;
       equality_relaxation := heuristic_nonconvex c || equality_relaxation c;
       init_strategy := init_strategy c;
       move_objective :=
         String.eqb (init_strategy c) "FP"
         || is_not_None (add_regularization c) || move_objective c;
       add_no_good_cuts := add_no_good_cuts c;
       use_tabu_list := use_tabu_list c;
       solution_pool := solution_pool c;
       num_solution_iteration := num_solution_iteration c;
       integer_to_binary := integer_to_binary c;
       fp_projcuts := fp_projcuts c;
       use_mcpp := use_mcpp c;
       partition_obj_nonlinear_terms := partition_obj_nonlinear_terms c |}.
Proof.
  destruct c as [reg dual rmt thr tree inc red bb rsolver solver limit slack
                 nonconvex relax strategy move ngc tabu pool cap i2b proj
                 mcpp part].
  unfold check_config_options.
  destruct nonconvex, relax, dual, slack, move, (String.eqb strategy "FP") eqn:Hfp,
    reg; lazy -[String.eqb]; rewrite ?Hfp; reflexivity.
Qed.

Lemma check_config_regularization_closed (c : Config) :
  check_config_regularization c
  = let regularized := is_not_None (add_regularization c) in
    {| add_regularization := add_regularization c;
       calculate_dual_at_solution :=
         opt_str_in (add_regularization c)
           ["grad_lag"; "hess_lag"; "hess_only_lag"; "sqp_lag"]
         || calculate_dual_at_solution c;
       regularization_mip_threads :=
         if regularized && (regularization_mip_threads c =? 0) && (threads c >? 0)
         then threads c else regularization_mip_threads c;
       threads := threads c;
       single_tree := single_tree c;
       add_cuts_at_incumbent :=
         regularized && single_tree c || add_cuts_at_incumbent c;
       reduce_level_coef := reduce_level_coef c;
       use_bb_tree_incumbent :=
         regularized && single_tree c && negb (reduce_level_coef c)
         || use_bb_tree_incumbent c;
       mip_regularization_solver :=
         if regularized && is_None (mip_regularization_solver c)
         then Some (mip_solver c) else mip_regularization_solver c;
       mip_solver := mip_solver c;
       iteration_limit := iteration_limit c;
       add_slack := add_slack c;
       heuristic_nonconvex := heuristic_nonconvex c;
       equality_relaxation := equality_relaxation c;
       init_strategy := init_strategy c;
       move_objective := move_objective c;
       add_no_good_cuts := add_no_good_cuts c;
       use_tabu_list := use_tabu_list c;
       solution_pool := solution_pool c;
       num_solution_iteration := num_solution_iteration c;
       integer_to_binary := integer_to_binary c;
       fp_projcuts := fp_projcuts c;
       use_mcpp := use_mcpp c;
       partition_obj_nonlinear_terms := partition_obj_nonlinear_terms c |}.
Proof.
  destruct c as [reg dual rmt thr tree inc red bb rsolver solver limit slack
                 nonconvex relax strategy move ngc tabu pool cap i2b proj
                 mcpp part].
  destruct reg as [name | ]; [ | reflexivity ].
  unfold check_config_regularization.
  cbn [is_not_None is_None negb opt_str_in add_regularization].
  destruct (str_in name ["grad_lag"; "hess_lag"; "hess_only_lag"; "sqp_lag"]);
    destruct (rmt =? 0) eqn:Hr; destruct (thr >? 0) eqn:H0;
    destruct tree, red, bb, rsolver;
    cbn -[Z.eqb Z.gtb]; rewrite ?Hr, ?H0; cbn -[Z.eqb Z.gtb];
    rewrite ?orb_true_r; reflexivity.
Qed.

Lemma check_config_single_tree_closed (c : Config) :
  (if single_tree c then
     if threads (set_add_slack false (set_iteration_limit 1 c)) >? 1
     then set_threads 1 (set_add_slack false (set_iteration_limit 1 c))
     else set_add_slack false (set_iteration_limit 1 c)
   else c)
  = {| add_regularization := add_regularization c;
       calculate_dual_at_solution := calculate_dual_at_solution c;
       regularization_mip_threads := regularization_mip_threads c;
       threads := if single_tree c && (threads c >? 1) then 1 else threads c;
       single_tree := single_tree c;
       add_cuts_at_incumbent := add_cuts_at_incumbent c;
       reduce_level_coef := reduce_level_coef c;
       use_bb_tree_incumbent := use_bb_tree_incumbent c;
       mip_regularization_solver := mip_regularization_solver c;
       mip_solver := mip_solver c;
       iteration_limit := if single_tree c then 1 else iteration_limit c;
       add_slack := negb (single_tree c) && add_slack c;
       heuristic_nonconvex := heuristic_nonconvex c;
       equality_relaxation := equality_relaxation c;
       init_strategy := init_strategy c;
       move_objective := move_objective c;
       add_no_good_cuts := add_no_good_cuts c;
       use_tabu_list := use_tabu_list c;
       solution_pool := solution_pool c;
       num_solution_iteration := num_solution_iteration c;
       integer_to_binary := integer_to_binary c;
       fp_projcuts := fp_projcuts c;
       use_mcpp := use_mcpp c;
       partition_obj_nonlinear_terms := partition_obj_nonlinear_terms c |}.
Proof.
  destruct c as [reg dual rmt thr tree inc red bb rsolver solver limit slack
                 nonconvex relax strategy move ngc tabu pool cap i2b proj
                 mcpp part].
  destruct tree; [ | reflexivity ].
  cbn -[Z.gtb]. destruct (thr >? 1); reflexivity.
Qed.

Lemma Build_Config_eq reg1 dual1 rmt1 thr1 tree1 inc1 red1 bb1 rsolver1 solver1 limit1 slack1 nonconvex1 relax1 strategy1 move1 ngc1 tabu1 pool1 cap1 i2b1 proj1 mcpp1 part1
    reg2 dual2 rmt2 thr2 tree2 inc2 red2 bb2 rsolver2 solver2 limit2 slack2 nonconvex2 relax2 strategy2 move2 ngc2 tabu2 pool2 cap2 i2b2 proj2 mcpp2 part2 :
  reg1 = reg2 ->
  dual1 = dual2 ->
  rmt1 = rmt2 ->
  thr1 = thr2 ->
  tree1 = tree2 ->
  inc1 = inc2 ->
  red1 = red2 ->
  bb1 = bb2 ->
  rsolver1 = rsolver2 ->
  solver1 = solver2 ->
  limit1 = limit2 ->
  slack1 = slack2 ->
  nonconvex1 = nonconvex2 ->
  relax1 = relax2 ->
  strategy1 = strategy2 ->
  move1 = move2 ->
  ngc1 = ngc2 ->
  tabu1 = tabu2 ->
  pool1 = pool2 ->
  cap1 = cap2 ->
  i2b1 = i2b2 ->
  proj1 = proj2 ->
  mcpp1 = mcpp2 ->
  part1 = part2 ->
  Build_Config reg1 dual1 rmt1 thr1 tree1 inc1 red1 bb1 rsolver1 solver1 limit1 slack1 nonconvex1 relax1 strategy1 move1 ngc1 tabu1 pool1 cap1 i2b1 proj1 mcpp1 part1
  = Build_Config reg2 dual2 rmt2 thr2 tree2 inc2 red2 bb2 rsolver2 solver2 limit2 slack2 nonconvex2 relax2 strategy2 move2 ngc2 tabu2 pool2 cap2 i2b2 proj2 mcpp2 part2.
Proof. intros. subst. reflexivity. Qed.

Lemma checked_config_correct (c : Config) :
  let c1 := check_config_regularization c in
  let c3 :=
    if single_tree c1 then
      let c2 := set_add_slack false (set_iteration_limit 1 c1) in
      if threads c2 >? 1 then set_threads 1 c2 else c2
    else c1 in
  check_config_options c3 = checked_config c.
Proof.
  cbv zeta.
  rewrite (check_config_single_tree_closed (check_config_regularization c)).
  rewrite check_config_options_closed.
  rewrite check_config_regularization_closed.
  unfold checked_config. cbv zeta. config_fields.
  apply Build_Config_eq.
  all: try reflexivity.
  destruct (heuristic_nonconvex c), (equality_relaxation c),
    (opt_str_in (add_regularization c) _); reflexivity.
Qed.

Ltac is_atom b :=
  lazymatch b with
  | context [if _ then _ else _] => fail
  | context [orb _ _] => fail
  | context [andb _ _] => fail
  | context [negb _] => fail
  | true => fail
  | false => fail
  | _ => idtac
  end.

Ltac case_atoms :=
  repeat (cbn [orb andb negb is_None is_not_None];
          match goal with
          | |- context [if ?b then _ else _] => is_atom b; destruct b eqn:?
          | |- context [orb ?b _] => is_atom b; destruct b eqn:?
          | |- context [andb ?b _] => is_atom b; destruct b eqn:?
          | |- context [negb ?b] => is_atom b; destruct b eqn:?
          end);
  cbn [orb andb negb is_None is_not_None].

Ltac Z_atoms :=
  repeat match goal with
         | H : (_ =? _) = true |- _ => apply Z.eqb_eq in H
         | H : (_ =? _) = false |- _ => apply Z.eqb_neq in H
         | H : (_ >? _) = _ |- _ => rewrite Z.gtb_ltb in H
         | H : (_ <? _) = true |- _ => apply Z.ltb_lt in H
         | H : (_ <? _) = false |- _ => apply Z.ltb_ge in H
         end.

Lemma checked_config_idempotent (c : Config) :
  checked_config (checked_config c) = checked_config c.
Proof.
  destruct c as [reg dual rmt thr tree inc red bb rsolver solver limit slack
                 nonconvex relax strategy move ngc tabu pool cap i2b proj
                 mcpp part].
  unfold checked_config. cbv zeta. config_fields.
  apply Build_Config_eq; try reflexivity.
  all: case_atoms; try reflexivity; try congruence; Z_atoms; try lia.
Qed.

Lemma check_config_mip_type_idempotent {D : Domain} (config : Config) (s : Solver) :
  check_config_mip_type config (check_config_mip_type config s)
  = check_config_mip_type config s.
Proof.
  unfold check_config_mip_type. break_ifs; reflexivity.
Qed.

(** [check_config_own] with its configuration block in closed form. *)
Lemma check_config_own_closed {D : Domain} (st : State) :
  check_config_own st
  = if single_tree (cfg st)
       && negb (str_in (mip_solver (cfg st)) lazy_callback_solvers)
    then {| res := Raised ValueError;
            final := {| cfg := set_add_slack false
                                 (set_iteration_limit 1
                                    (check_config_regularization (cfg st)));
                        self := self st |};
            emitted := [] |}
    else {| res := Returned tt;
            final := {| cfg := checked_config (cfg st);
                        self := check_config_mip_type (checked_config (cfg st))
                                  (self st) |};
            emitted := [] |}.
Proof.
  rewrite check_config_own_unfold.
  pose proof (checked_config_correct (cfg st)) as Hclosed.
  cbv zeta in Hclosed |- *.
  destruct (check_config_regularization_frame (cfg st)) as (Hst & Hsolver & _).
  rewrite Hst in Hclosed |- *.
  replace (mip_solver (set_add_slack false
                         (set_iteration_limit 1
                            (check_config_regularization (cfg st)))))
    with (mip_solver (cfg st)) by (symmetry; exact Hsolver).
  destruct (single_tree (cfg st)); cbn [andb].
  - destruct (negb (str_in (mip_solver (cfg st)) lazy_callback_solvers));
      [ reflexivity | ].
    rewrite Hclosed. reflexivity.
  - rewrite Hclosed. reflexivity.
Qed.

(** X3.  With regularization requested, a [check_config] that raises
    nothing leaves [move_objective] set and a solver for the regularization
    problem chosen: the one the user named, else the MILP solver.  The
    Lagrangian-based methods switch [calculate_dual_at_solution] on; in
    single-tree mode cuts are added at the incumbent and one of the two
    level-coefficient methods is on.  [regularization_mip_type] is
    ['MILP'] for the first-order methods, ['MIQP'] for the second-order
    ones, and is left alone for any other name. *)
Theorem regularization_configuration
    {D : Domain} (st : State) (name : string) :
  add_regularization (cfg st) = Some name ->
  res (check_config_own st) = Returned tt ->
  let out := check_config_own st in
  let c := cfg (final out) in
  move_objective c = true
  /\ mip_regularization_solver c
     = Some (match mip_regularization_solver (cfg st) with
             | Some s => s
             | None => mip_solver (cfg st)
             end)
  /\ (str_in name ["grad_lag"; "hess_lag"; "hess_only_lag"; "sqp_lag"] = true ->
      calculate_dual_at_solution c = true)
  /\ (single_tree (cfg st) = true ->
      add_cuts_at_incumbent c = true
      /\ reduce_level_coef c || use_bb_tree_incumbent c = true)
  /\ regularization_mip_type (self (final out))
     = (if str_in name ["level_L1"; "level_L_infinity"; "grad_lag"]
        then Some "MILP"
        else if str_in name ["level_L2"; "hess_lag"; "hess_only_lag"; "sqp_lag"]
        then Some "MIQP"
        else regularization_mip_type (self st)).
Proof.
  intros Hreg Hres out c. subst c out. revert Hres.
  rewrite check_config_own_closed.
  destruct (single_tree (cfg st)
            && negb (str_in (mip_solver (cfg st)) lazy_callback_solvers));
    [ discriminate | intros _ ].
  cbn [res final cfg self].
  unfold check_config_mip_type, checked_config. cbv zeta. config_fields.
  rewrite Hreg. cbn [is_not_None is_None negb opt_str_in andb orb].
  split; [ rewrite orb_true_r; reflexivity | ].
  split; [ destruct (mip_regularization_solver (cfg st)); reflexivity | ].
  split; [ intros Hlag; rewrite Hlag; reflexivity | ].
  split.
  - intros Htree. rewrite Htree. cbn [andb orb negb].
    split; [ reflexivity | ].
    destruct (reduce_level_coef (cfg st)); reflexivity.
  - destruct (str_in name ["level_L1"; "level_L_infinity"; "grad_lag"]);
      [ reflexivity | ].
    destruct (str_in name ["level_L2"; "hess_lag"; "hess_only_lag"; "sqp_lag"]);
      reflexivity.
Qed.

Lemma regularization_configuration_witness :
  mip_regularization_solver
    (cfg (final (check_config_own
                   (Example.fresh_state Example.regularized_tree_config))))
  = Some "cplex_persistent"
  /\ regularization_mip_type
       (self (final (check_config_own
                       (Example.fresh_state Example.regularized_tree_config))))
     = Some "MILP".
Proof.
  destruct (@regularization_configuration Example.domain
              (Example.fresh_state Example.regularized_tree_config) "grad_lag"
              eq_refl eq_refl)
    as (_ & Hsolver & _ & _ & Htype).
  split; [ rewrite Hsolver | rewrite Htype ]; reflexivity.
Defined.

(** X4.  [check_config] is idempotent in what it does itself: run again
    on the configuration block and the solver object it left, lines
    326-363 return again and change nothing. *)
Theorem check_config_is_idempotent {D : Domain} (st : State) :
  res (check_config_own st) = Returned tt ->
  check_config_own (final (check_config_own st)) = check_config_own st.
Proof.
  rewrite (check_config_own_closed st).
  destruct (single_tree (cfg st)
            && negb (str_in (mip_solver (cfg st)) lazy_callback_solvers))
    eqn:Hraise; [ discriminate | intros _ ].
  cbn [final]. rewrite check_config_own_closed. cbn [cfg self].
  rewrite checked_config_idempotent, check_config_mip_type_idempotent.
  replace (single_tree (checked_config (cfg st))) with (single_tree (cfg st))
    by reflexivity.
  replace (mip_solver (checked_config (cfg st))) with (mip_solver (cfg st))
    by reflexivity.
  rewrite Hraise. reflexivity.
Qed.

Lemma check_config_is_idempotent_witness :
  check_config_own
    (final (check_config_own
              (Example.fresh_state Example.regularized_tree_config)))
  = check_config_own (Example.fresh_state Example.regularized_tree_config).
Proof.
  exact (@check_config_is_idempotent Example.domain
           (Example.fresh_state Example.regularized_tree_config) eq_refl).
Defined.

(** ** The loop at its edges (lines 171-193 and 318-321) *)

(** X5.  When the iteration limit is reached already, the loop makes no
    pass, however much fuel it has: no main problem is solved, and the
    one call that can follow is [fix_dual_bound] with
    [last_iter_cuts = False], under the condition of line 320. *)
Theorem loop_at_the_limit
    {D : Domain} (E : Collaborators) (algorithm_should_terminate : TerminationCheck)
    (config : Config) (fuel : nat) (st : State) :
  iteration_limit config <= mip_iter (self st) ->
  let out := MindtPy_iteration_loop E algorithm_should_terminate config fuel st in
  res out = Returned tt
  /\ emitted out
     = (if bound_fix_needed config (self st)
        then [{| ev_call := call_fix_dual_bound false; ev_self := self st |}]
        else []).
Proof.
  intros Hlimit out. subst out.
  assert (Hloop : while_loop E algorithm_should_terminate config fuel false st
                  = ret false st).
  { destruct fuel; cbn [while_loop]; rewrite bind_get_self;
      apply Z.ltb_ge in Hlimit; rewrite Hlimit; reflexivity. }
  unfold MindtPy_iteration_loop, bind. rewrite Hloop.
  cbn [ret res final emitted app]. unfold after_loop.
  rewrite bind_get_self.
  destruct (bound_fix_needed config (self st)); split; reflexivity.
Qed.

Lemma loop_at_the_limit_witness :
  emitted (MindtPy_iteration_loop (Example.collaborators tc_optimal [])
             Example.keep_going (Example.no_good_config None) 0
             {| cfg := Example.no_good_config None;
                self := Example.bump_mip_iter
                          (self (Example.fresh_state (Example.no_good_config None))) |})
  = [{| ev_call := call_fix_dual_bound false;
        ev_self := Example.bump_mip_iter
                     (self (Example.fresh_state (Example.no_good_config None))) |}].
Proof.
  refine (proj2 (@loop_at_the_limit Example.domain
                   (Example.collaborators tc_optimal []) Example.keep_going
                   (Example.no_good_config None) 0
                   {| cfg := Example.no_good_config None;
                      self := Example.bump_mip_iter
                                (self (Example.fresh_state
                                         (Example.no_good_config None))) |} _)).
  cbn. lia.
Defined.

(** X6.  Outside single-tree mode, a main problem reported infeasible
    ends the loop in that pass: after [solve_main] the one call is
    [handle_main_infeasible]; there is no callback, no termination check
    and no subproblem, and the loop is left with [last_iter_cuts = True],
    which is what [fix_dual_bound] receives when line 320 calls it. *)
Theorem infeasible_main_problem_ends_the_loop
    {D : Domain} (E : Collaborators) (algorithm_should_terminate : TerminationCheck)
    (config : Config) (fuel : nat) (st : State)
    (main_mip : Model) (results : SolverResults) (s' : Solver) :
  mip_iter (self st) < iteration_limit config ->
  single_tree config = false ->
  solve_main E config false (set_mip_subiter 0 (self st))
  = ((main_mip, Some results), s') ->
  termination_condition results = tc_infeasible ->
  let out :=
    MindtPy_iteration_loop E algorithm_should_terminate config (S fuel) st in
  let s'' := handle_main_infeasible E main_mip config s' in
  res out = Returned tt
  /\ emitted out
     = [ {| ev_call := call_solve_main false;
            ev_self := set_mip_subiter 0 (self st) |};
         {| ev_call := call_handle_main_infeasible; ev_self := s' |} ]
       ++ (if bound_fix_needed config s''
           then [{| ev_call := call_fix_dual_bound true; ev_self := s'' |}]
           else []).
Proof.
  intros Hlt Htree Hsolve Htc out s''. subst out s''.
  apply Z.ltb_lt in Hlt.
  unfold MindtPy_iteration_loop. cbn [while_loop]. run. rewrite Hlt.
  unfold iteration. run. rewrite Hsolve. cbn [fst snd].
  rewrite Htree, Htc. cbn [negb tc_is]. run.
  unfold after_loop. run.
  destruct (bound_fix_needed config (handle_main_infeasible E main_mip config s'));
    run; split; reflexivity.
Qed.

Lemma infeasible_main_problem_ends_the_loop_witness :
  map ev_call
    (emitted (MindtPy_iteration_loop (Example.collaborators tc_infeasible [])
                Example.keep_going (Example.no_good_config None) 1
                (Example.fresh_state (Example.no_good_config None))))
  = [call_solve_main false; call_handle_main_infeasible;
     call_fix_dual_bound true].
Proof.
  rewrite (proj2 (@infeasible_main_problem_ends_the_loop Example.domain
                    (Example.collaborators tc_infeasible []) Example.keep_going
                    (Example.no_good_config None) 0
                    (Example.fresh_state (Example.no_good_config None))
                    _ _ _ eq_refl eq_refl eq_refl eq_refl)).
  reflexivity.
Defined.

(** X7.  A main solve that returns no results ends the loop in that
    pass, with nothing called after [solve_main]; the loop is left with
    [last_iter_cuts] as it was. *)
Theorem missing_main_results_end_the_loop
    {D : Domain} (E : Collaborators) (algorithm_should_terminate : TerminationCheck)
    (config : Config) (fuel : nat) (st : State) (main_mip : Model) (s' : Solver) :
  mip_iter (self st) < iteration_limit config ->
  solve_main E config false (set_mip_subiter 0 (self st))
  = ((main_mip, None), s') ->
  let out :=
    MindtPy_iteration_loop E algorithm_should_terminate config (S fuel) st in
  res out = Returned tt
  /\ emitted out
     = {| ev_call := call_solve_main false;
          ev_self := set_mip_subiter 0 (self st) |}
       :: (if bound_fix_needed config s'
           then [{| ev_call := call_fix_dual_bound false; ev_self := s' |}]
           else []).
Proof.
  intros Hlt Hsolve out. subst out.
  apply Z.ltb_lt in Hlt.
  unfold MindtPy_iteration_loop. cbn [while_loop]. run. rewrite Hlt.
  unfold iteration. run. rewrite Hsolve. cbn [fst snd]. run.
  unfold after_loop. run.
  destruct (bound_fix_needed config s'); run; split; reflexivity.
Qed.

Lemma missing_main_results_end_the_loop_witness :
  map ev_call
    (emitted (MindtPy_iteration_loop Example.no_results Example.keep_going
                (Example.no_good_config None) 1
                (Example.fresh_state (Example.no_good_config None))))
  = [call_solve_main false; call_fix_dual_bound false].
Proof.
  rewrite (proj2 (@missing_main_results_end_the_loop Example.domain
                    Example.no_results Example.keep_going
                    (Example.no_good_config None) 0
                    (Example.fresh_state (Example.no_good_config None))
                    _ _ eq_refl eq_refl)).
  reflexivity.
Defined.

(** ** The loop terminates (line 172) *)
Section Advances.
Context {D : Domain}.

Lemma advances_ret (A : Type) (a : A) : advances 0 (ret a).
Proof. intros st. cbn. lia. Qed.

Lemma advances_raise (A : Type) (n : Z) (e : Exn) : advances n (@raise _ A e).
Proof. intros st. exact I. Qed.

Lemma advances_attr (A : Type) (o : option A) (e : Exn) : advances 0 (attr o e).
Proof. destruct o; [ apply advances_ret | apply advances_raise ]. Qed.

Lemma advances_get_self : advances 0 get_self.
Proof. intros st. cbn. lia. Qed.

Lemma advances_modify (f : Solver -> Solver) :
  (forall s, mip_iter (f s) = mip_iter s) -> advances 0 (modify f).
Proof. intros Hf st. cbn. rewrite Hf. lia. Qed.

Lemma advances_call (A : Type) (n : Z) (c : Call) (f : Solver -> A * Solver) :
  (forall s, mip_iter s + n <= mip_iter (snd (f s))) -> advances n (call c f).
Proof. intros Hf st. cbn. apply Hf. Qed.

Lemma advances_call_ (c : Call) (f : Solver -> Solver) :
  (forall s, mip_iter s <= mip_iter (f s)) -> advances 0 (call_ c f).
Proof. intros Hf. apply advances_call. intros s. cbn. specialize (Hf s). lia. Qed.

Lemma advances_bind (A B : Type) (n k : Z) (m : M A) (f : A -> M B) :
  advances n m -> (forall a, advances k (f a)) -> advances (n + k) (bind m f).
Proof.
  intros Hm Hf st. rewrite res_bind, final_bind. specialize (Hm st).
  destruct (res (m st)) as [a | e | ]; [ | exact I | exact Hm ].
  specialize (Hf a (final (m st))).
  destruct (res (f a (final (m st)))); [ lia | exact I | exact Hf ].
Qed.

Lemma advances_bind0 (A B : Type) (m : M A) (f : A -> M B) :
  advances 0 m -> (forall a, advances 0 (f a)) -> advances 0 (bind m f).
Proof. apply (@advances_bind A B 0 0). Qed.

End Advances.

Ltac walk_advances :=
  repeat first
    [ apply advances_ret | apply advances_raise | apply advances_attr
    | apply advances_get_self
    | apply advances_modify; intros ?; reflexivity
    | apply advances_bind0; [ | intros ? ]
    | match goal with
      | |- advances _ (if ?b then _ else _) => destruct b
      | |- advances _ (match ?v with _ => _ end) => destruct v
      | |- advances _ (call_ _ _) => apply advances_call_; intros ?
      | |- advances _ (call _ _) => apply advances_call; intros ?
      end ].

Section Termination.
Context {D : Domain}.
Variable E : Collaborators.
Variable algorithm_should_terminate : TerminationCheck.
Variable config : Config.
Hypothesis counting : counts_main_iterations E algorithm_should_terminate config.

Ltac counted :=
  destruct counting as (? & ? & ? & ? & ? & ? & ? & ? & ? & ? & ?);
  cbn [map_working_model set_working_model mip_iter fst snd];
  rewrite ?Z.add_0_r; auto; try lia.

Lemma pool_loop_advances res entries :
  forall counter last_iter_cuts,
    advances 0
      (pool_loop E algorithm_should_terminate config res entries counter
         last_iter_cuts).
Proof.
  induction entries as [ | [name obj] rest IH ]; intros counter lic; simpl.
  - apply advances_ret.
  - apply advances_bind0.
    + unfold load_pool_solution. walk_advances; counted.
    + intros skip. destruct skip; [ apply IH | ].
      unfold explore_pool_entry, solve_and_handle_subproblem.
      apply advances_bind0; [ walk_advances; counted | intros _ ].
      apply advances_bind0; [ walk_advances; counted | intros stop ].
      destruct stop; [ apply advances_ret | ].
      destruct (counter + 1 >=? num_solution_iteration config);
        [ apply advances_ret | apply IH ].
Qed.

Lemma after_main_solve_advances main_mip res last_iter_cuts :
  advances 0
    (after_main_solve E algorithm_should_terminate config main_mip res
       last_iter_cuts).
Proof.
  unfold after_main_solve.
  apply advances_bind0;
    [ unfold regularization_step; walk_advances; counted | intros [mm rr] ].
  apply advances_bind0;
    [ unfold single_tree_regularization_step; walk_advances; counted | intros _ ].
  unfold termination_and_subproblem.
  apply advances_bind0; [ walk_advances; counted | intros stop ].
  destruct stop; [ apply advances_ret | ].
  destruct (negb (single_tree config)); [ | apply advances_ret ].
  destruct (negb (solution_pool config)).
  - unfold solve_and_handle_subproblem. walk_advances; counted.
  - apply advances_bind0; [ | intros b; apply advances_ret ].
    unfold explore_solution_pool.
    apply advances_bind0;
      [ unfold solution_pool_entries; walk_advances | intros [res' entries] ].
    apply advances_bind0; [ apply advances_get_self | intros s ].
    apply pool_loop_advances.
Qed.

Lemma iteration_advances last_iter_cuts :
  advances 1 (iteration E algorithm_should_terminate config last_iter_cuts).
Proof.
  unfold iteration.
  apply (@advances_bind _ _ _ 0 1);
    [ apply advances_modify; intros ?; reflexivity | intros _ ].
  apply (@advances_bind _ _ _ 1 0);
    [ apply advances_call; intros ?; counted
    | intros [main_mip main_mip_results] ].
  destruct main_mip_results as [res | ]; [ | apply advances_ret ].
  destruct (negb (single_tree config)); [ | apply after_main_solve_advances ].
  destruct (tc_is (termination_condition res) tc_optimal).
  - apply advances_bind0; [ walk_advances; counted | intros _ ].
    apply advances_bind0; [ walk_advances; counted | intros _ ].
    apply after_main_solve_advances.
  - destruct (tc_is (termination_condition res) tc_infeasible).
    + walk_advances; counted.
    + apply advances_bind0; [ walk_advances; counted | intros _ ].
      apply advances_bind0; [ walk_advances; counted | intros _ ].
      apply after_main_solve_advances.
Qed.

Lemma while_loop_terminates fuel :
  forall last_iter_cuts st,
    (Z.to_nat (iteration_limit config - mip_iter (self st)) <= fuel)%nat ->
    res (while_loop E algorithm_should_terminate config fuel last_iter_cuts st)
    <> OutOfFuel.
Proof.
  induction fuel as [ | fuel IH ]; intros lic st Hfuel;
    cbn [while_loop]; rewrite bind_get_self.
  - destruct (mip_iter (self st) <? iteration_limit config) eqn:Hlt;
      [ apply Z.ltb_lt in Hlt; lia | discriminate ].
  - destruct (mip_iter (self st) <? iteration_limit config) eqn:Hlt;
      [ | discriminate ].
    apply Z.ltb_lt in Hlt. rewrite res_bind.
    pose proof (iteration_advances lic st) as Hstep.
    destruct (res (iteration E algorithm_should_terminate config lic st))
      as [[b | b] | e | ]; [ | discriminate | discriminate | destruct Hstep ].
    apply IH. lia.
Qed.

End Termination.

(** X8.  Let a plain main solve add at least one to [mip_iter] and let
    nothing else the loop calls take from it.  Then the loop makes at
    most [iteration_limit - mip_iter] passes: with that much fuel it does
    not run out, whatever the solution pool holds and whatever the
    termination check answers. *)
Theorem iteration_loop_terminates
    {D : Domain} (E : Collaborators) (algorithm_should_terminate : TerminationCheck)
    (config : Config) (fuel : nat) (st : State) :
  counts_main_iterations E algorithm_should_terminate config ->
  (Z.to_nat (iteration_limit config - mip_iter (self st)) <= fuel)%nat ->
  res (MindtPy_iteration_loop E algorithm_should_terminate config fuel st)
  <> OutOfFuel.
Proof.
  intros Hcount Hfuel. unfold MindtPy_iteration_loop. rewrite res_bind.
  pose proof (@while_loop_terminates _ E algorithm_should_terminate config
                Hcount fuel false st Hfuel) as Hloop.
  destruct (res (while_loop E algorithm_should_terminate config fuel false st))
    as [b | e | ]; [ | discriminate | destruct (Hloop eq_refl) ].
  unfold after_loop. rewrite bind_get_self.
  destruct (bound_fix_needed config _); discriminate.
Qed.

Lemma example_counts_main_iterations tc pool config :
  counts_main_iterations (Example.collaborators tc pool) Example.keep_going config.
Proof.
  unfold counts_main_iterations. cbn.
  repeat split; intros; lia.
Qed.

Lemma iteration_loop_terminates_witness :
  res (MindtPy_iteration_loop
         (Example.collaborators tc_optimal Example.four_solutions)
         Example.keep_going (Example.pool_config 2) 1
         (Example.explored_state (Example.pool_config 2)))
  <> OutOfFuel.
Proof.
  refine (@iteration_loop_terminates Example.domain
            (Example.collaborators tc_optimal Example.four_solutions)
            Example.keep_going (Example.pool_config 2) 1
            (Example.explored_state (Example.pool_config 2))
            (example_counts_main_iterations _ _ _) _).
  cbn. lia.
Defined.

(** ** The solution pool needs a persistent solver (lines 231-246) *)
Section PoolErrors.
Context {D : Domain}.
Variable E : Collaborators.
Variable algorithm_should_terminate : TerminationCheck.
Variable config : Config.

(** The [for] loop over the pool raises nothing. *)
Lemma pool_loop_never_raises (x : Exn) res entries :
  forall counter last_iter_cuts,
    never_raises x
      (pool_loop E algorithm_should_terminate config res entries counter
         last_iter_cuts).
Proof.
  induction entries as [ | [name obj] rest IH ]; intros counter lic; simpl.
  - apply never_raises_ret.
  - apply never_raises_bind.
    + unfold load_pool_solution. walk_raises.
    + intros skip. destruct skip; [ apply IH | ].
      unfold explore_pool_entry, solve_and_handle_subproblem.
      apply never_raises_bind; [ walk_raises | intros _ ].
      apply never_raises_bind; [ walk_raises | intros stop ].
      destruct stop; [ apply never_raises_ret | ].
      destruct (counter + 1 >=? num_solution_iteration config);
        [ apply never_raises_ret | apply IH ].
Qed.

End PoolErrors.

(** X9.  Reading the solution pool raises [UnboundLocalError] exactly
    when [mip_solver] is neither ['cplex_persistent'] nor
    ['gurobi_persistent']: the names of the pool are bound for these two
    solvers only.  Nothing has been called when it is raised, and the
    solver object is untouched. *)
Theorem solution_pool_needs_persistent_solver
    {D : Domain} (E : Collaborators) (algorithm_should_terminate : TerminationCheck)
    (config : Config) (main_mip_results : option SolverResults)
    (last_iter_cuts : bool) (st : State) :
  let out :=
    explore_solution_pool E algorithm_should_terminate config main_mip_results
      last_iter_cuts st in
  (res out = Raised UnboundLocalError
   <-> str_in (mip_solver config) lazy_callback_solvers = false)
  /\ (res out = Raised UnboundLocalError -> emitted out = [] /\ final out = st).
Proof.
  intros out. subst out. unfold explore_solution_pool.
  assert (Hpool : forall res entries,
            never_raises UnboundLocalError
              (s <- get_self ;;
               pool_loop E algorithm_should_terminate config res
                 (sort_by_objective (Sense_eqb (objective_sense s) maximize)
                    entries) 0 last_iter_cuts)).
  { intros res entries. apply never_raises_bind;
      [ apply never_raises_get_self | intros s; apply pool_loop_never_raises ]. }
  unfold solution_pool_entries, lazy_callback_solvers, str_in.
  destruct (String.eqb (mip_solver config) "cplex_persistent");
    [ | destruct (String.eqb (mip_solver config) "gurobi_persistent") ];
    cbn [orb].
  1, 2: destruct main_mip_results as [results | ]; run;
    [ match goal with
      | |- context [pool_loop _ _ _ ?r (sort_by_objective _ ?l)] =>
          pose proof (Hpool r l st) as Hno; rewrite bind_get_self in Hno
      end;
      split; [ split; [ intros H; destruct (Hno H) | discriminate ]
             | intros H; destruct (Hno H) ]
    | cbn [raise res]; split; [ split; discriminate | discriminate ] ].
  run. cbn [raise res final emitted].
  split; [ split; reflexivity | intros _; split; reflexivity ].
Qed.

(** ** [solve]: the early return and the closing calls (lines 70-151) *)
Section SolveEnds.
Context {D : Domain}.
Variable E : Collaborators.
Variable algorithm_should_terminate : TerminationCheck.

Lemma bind_check_config_own (B : Type) (k : unit -> M B) (st : State) :
  bind check_config_own k st
  = if single_tree (cfg st)
       && negb (str_in (mip_solver (cfg st)) lazy_callback_solvers)
    then {| res := Raised ValueError;
            final := {| cfg := set_add_slack false
                                 (set_iteration_limit 1
                                    (check_config_regularization (cfg st)));
                        self := self st |};
            emitted := [] |}
    else k tt {| cfg := checked_config (cfg st);
                 self := check_config_mip_type (checked_config (cfg st))
                           (self st) |}.
Proof.
  unfold bind at 1. rewrite check_config_own_closed.
  destruct (single_tree (cfg st)
            && negb (str_in (mip_solver (cfg st)) lazy_callback_solvers));
    [ reflexivity | ].
  destruct (k tt _). reflexivity.
Qed.

Lemma bind_call_base (B : Type) (k : unit -> M B) (st : State) :
  bind (call_base E) k st
  = after [{| ev_call := call_base_check_config; ev_self := self st |}]
      (k tt {| cfg := fst (base_check_config E (cfg st) (self st));
               self := snd (base_check_config E (cfg st) (self st)) |}).
Proof. unfold bind, call_base, after. destruct (k tt _). reflexivity. Qed.

Lemma solve_setup_invalid (model : Model) (options : Config) (st : State) :
  res (solve_setup E model options st) = Returned false ->
  exists l s,
    emitted (solve_setup E model options st)
    = l ++ [{| ev_call := call_model_is_valid; ev_self := s |}]
    /\ fst (model_is_valid E s) = false
    /\ self (final (solve_setup E model options st)) = snd (model_is_valid E s)
    /\ Forall (fun e => is_setup_call (ev_call e) = true) l.
Proof.
  unfold solve_setup, check_config. run.
  rewrite bind_check_config_own. cbn [cfg self].
  destruct (single_tree options
            && negb (str_in (mip_solver options) lazy_callback_solvers));
    [ discriminate | ].
  rewrite bind_call_base. run.
  set (config := fst (base_check_config E (checked_config options)
                        (check_config_mip_type (checked_config options)
                           (self st)))).
  set (s0 := snd (base_check_config E (checked_config options)
                    (check_config_mip_type (checked_config options) (self st)))).
  set (base := {| ev_call := call_base_check_config;
                  ev_self := check_config_mip_type (checked_config options)
                               (self st) |}).
  assert (Hvalid : forall valid st',
            res ((if negb valid then ret false
                  else
                    call_ call_setup_results_object
                      (setup_results_object E config) ;;
                    call_ (call_process_objective (move_objective config)
                             (use_mcpp config)
                             (is_None (add_regularization config))
                             (partition_obj_nonlinear_terms config))
                      (process_objective E config (move_objective config)
                         (use_mcpp config)
                         (is_None (add_regularization config))
                         (partition_obj_nonlinear_terms config)) ;;
                    restore_original_objective config ;;
                    ret true) st') = Returned false ->
            valid = false).
  { intros [ | ] st'; [ | reflexivity ]. cbn [negb]. run.
    rewrite res_bind.
    destruct (res (restore_original_objective config _)); discriminate. }
  destruct (integer_to_binary config); run.
  - intros Hres. pose proof (Hvalid _ _ Hres) as Hv. revert Hres.
    rewrite Hv. cbn [negb]. run. intros _.
    eexists [base; _; _; _], _.
    split; [ reflexivity | ].
    split; [ exact Hv | ].
    split; [ reflexivity | ].
    repeat constructor.
  - intros Hres. pose proof (Hvalid _ _ Hres) as Hv. revert Hres.
    rewrite Hv. cbn [negb]. run. intros _.
    eexists [base; _; _], _.
    split; [ reflexivity | ].
    split; [ exact Hv | ].
    split; [ reflexivity | ].
    repeat constructor.
Qed.

Lemma solve_model_returns_results (config : Config) (fuel : nat) (st : State) :
  res (solve_model E algorithm_should_terminate config fuel st) <> Returned None.
Proof.
  unfold solve_model.
  repeat (rewrite res_bind;
          match goal with
          | |- match res ?o with _ => _ end <> _ =>
              destruct (res o); [ | discriminate | discriminate ]
          end).
  cbn. discriminate.
Qed.

Lemma bind_out (A B : Type) (m : M A) (k : A -> M B) (st : State) :
  bind m k st
  = match res (m st) with
    | Returned a => after (emitted (m st)) (k a (final (m st)))
    | Raised e =>
        {| res := Raised e; final := final (m st); emitted := emitted (m st) |}
    | OutOfFuel =>
        {| res := OutOfFuel; final := final (m st); emitted := emitted (m st) |}
    end.
Proof.
  unfold bind, after. destruct (m st) as [[a | e | ] st' l]; cbn [res final emitted];
    [ destruct (k a st') | | ]; reflexivity.
Qed.

Lemma initialize_mip_problem_no_closing_call :
  all_calls (fun e => is_closing_call (ev_call e) = false)
    (initialize_mip_problem E).
Proof. unfold initialize_mip_problem. walk_calls; reflexivity. Qed.

Lemma iteration_loop_no_closing_call (config : Config) (fuel : nat) :
  all_calls (fun e => is_closing_call (ev_call e) = false)
    (MindtPy_iteration_loop E algorithm_should_terminate config fuel).
Proof.
  unfold MindtPy_iteration_loop.
  apply all_calls_bind; [ | intros b; unfold after_loop; walk_calls; reflexivity ].
  apply while_loop_calls.
  - intros main_mip main_mip_results. unfold regularization_step.
    walk_calls; reflexivity.
  - intros c s Hc. destruct c; try destruct Hc; reflexivity.
Qed.

Lemma solve_model_closing (config : Config) (fuel : nat) (st : State)
    (r : option Results) :
  res (solve_model E algorithm_should_terminate config fuel st) = Returned r ->
  exists l s1,
    let s2 := if is_not_None (best_solution_found s1)
              then load_solution E s1 else s1 in
    let s3 := get_integral_info E s2 in
    let s4 := update_result E s3 in
    emitted (solve_model E algorithm_should_terminate config fuel st)
    = l ++ (if is_not_None (best_solution_found s1)
            then [{| ev_call := call_load_solution; ev_self := s1 |}]
            else [])
        ++ [ {| ev_call := call_get_integral_info; ev_self := s2 |};
             {| ev_call := call_update_result; ev_self := s3 |} ]
    /\ Forall (fun e => is_closing_call (ev_call e) = false) l
    /\ r = Some (if single_tree config
                 then set_num_nodes
                        (Some (nlp_iter s4
                               - (if String.eqb (init_strategy config) "rNLP"
                                  then 1 else 0)))
                        (results s4)
                 else results s4).
Proof.
  unfold solve_model. run.
  set (st1 := {| cfg := cfg st; self := _ |}).
  rewrite (bind_out (initialize_mip_problem E)).
  pose proof (initialize_mip_problem_no_closing_call st1) as Hinit.
  destruct (res (initialize_mip_problem E st1)) as [[] | e | ];
    [ | discriminate | discriminate ].
  run.
  set (st2 := {| cfg := cfg (final (initialize_mip_problem E st1)); self := _ |}).
  rewrite (bind_out (MindtPy_iteration_loop E algorithm_should_terminate config fuel)).
  pose proof (iteration_loop_no_closing_call config fuel st2) as Hloop.
  destruct (res (MindtPy_iteration_loop E algorithm_should_terminate config
                   fuel st2)) as [[] | e | ];
    [ | discriminate | discriminate ].
  run.
  set (st3 := final (MindtPy_iteration_loop E algorithm_should_terminate config
                       fuel st2)) in *.
  intros Hres.
  exists (emitted (initialize_mip_problem E st1)
          ++ {| ev_call := call_MindtPy_initialization;
                ev_self := self (final (initialize_mip_problem E st1)) |}
             :: emitted (MindtPy_iteration_loop E algorithm_should_terminate
                           config fuel st2)),
         (self st3).
  cbv zeta. revert Hres.
  destruct (is_not_None (best_solution_found (self st3)));
    run; destruct (single_tree config); run; cbn [ret res emitted];
    intros Hres; injection Hres as <-;
    (split; [ rewrite <- !app_assoc; reflexivity | ]);
    (split; [ | reflexivity ]);
    (apply Forall_app; split; [ exact Hinit | ]);
    (constructor; [ reflexivity | exact Hloop ]).
Qed.

End SolveEnds.


(** X10.  [solve] returns [None] only by the bare [return] of line 90:
    its last call was [model_is_valid], which answered [False], and the
    solver object is as that call left it.  Before it, [solve] called
    nothing but the configuration check of the base class, the set-up of
    the solve data, the integer-to-binary transformation and the creation
    of the utility block: no results object was set up, no objective
    processed, no problem solved, no result updated. *)
Theorem invalid_model_ends_solve
    {D : Domain} (E : Collaborators) (algorithm_should_terminate : TerminationCheck)
    (model : Model) (options : Config) (fuel : nat) (st : State) :
  let out := solve E algorithm_should_terminate model options fuel st in
  res out = Returned None ->
  exists l s,
    emitted out = l ++ [{| ev_call := call_model_is_valid; ev_self := s |}]
    /\ fst (model_is_valid E s) = false
    /\ self (final out) = snd (model_is_valid E s)
    /\ Forall (fun e => is_setup_call (ev_call e) = true) l.
Proof.
  intros out. subst out. unfold solve.
  rewrite bind_out.
  pose proof (@solve_setup_invalid _ E model options st) as Hsetup.
  destruct (res (solve_setup E model options st)) as [[ | ] | e | ];
    [ | | discriminate | discriminate ].
  - rewrite bind_get_config. cbn [after res]. intros Hres.
    destruct (solve_model_returns_results E algorithm_should_terminate _ _ _ Hres).
  - intros _. destruct (Hsetup eq_refl) as (l & s & Hlog & Hvalid & Hself & Hl).
    exists l, s. cbn [after ret res final emitted].
    rewrite app_nil_r. repeat split; assumption.
Qed.

Lemma invalid_model_ends_solve_witness :
  exists l s,
    emitted (solve Example.rejecting Example.keep_going
               (Example.model (Some 1) [AInt 0]) (Example.no_good_config None) 3
               (Example.fresh_state (Example.no_good_config None)))
    = l ++ [{| ev_call := call_model_is_valid; ev_self := s |}]
    /\ fst (model_is_valid Example.rejecting s) = false
    /\ self (final (solve Example.rejecting Example.keep_going
                      (Example.model (Some 1) [AInt 0])
                      (Example.no_good_config None) 3
                      (Example.fresh_state (Example.no_good_config None))))
       = snd (model_is_valid Example.rejecting s)
    /\ Forall (fun e => is_setup_call (ev_call e) = true) l.
Proof.
  exact (@invalid_model_ends_solve Example.domain Example.rejecting
           Example.keep_going (Example.model (Some 1) [AInt 0])
           (Example.no_good_config None) 3
           (Example.fresh_state (Example.no_good_config None)) eq_refl).
Defined.

Lemma solve_setup_no_closing_call
    {D : Domain} (E : Collaborators) (model : Model) (options : Config) :
  all_calls (fun e => is_closing_call (ev_call e) = false)
    (solve_setup E model options).
Proof.
  unfold solve_setup, check_config.
  apply all_calls_bind; [ apply all_calls_modify_config | intros _ ].
  apply all_calls_bind.
  - apply all_calls_bind; [ | intros _ ].
    + intros st. rewrite check_config_own_closed.
      destruct (_ && _); constructor.
    + intros st. repeat constructor.
  - intros _. unfold restore_original_objective. walk_calls; reflexivity.
Qed.

(** X11.  When [solve] returns results, its last calls are
    [get_integral_info] and then [update_result], preceded by
    [load_solution] exactly when the loop left an incumbent; none of the
    three is called earlier.  The results returned are those
    [update_result] left, except that in single-tree mode [num_nodes] is
    overwritten with [nlp_iter], less one when the initialization
    strategy is ['rNLP']. *)
Theorem solve_closing_calls
    {D : Domain} (E : Collaborators) (algorithm_should_terminate : TerminationCheck)
    (model : Model) (options : Config) (fuel : nat) (st : State) (r : Results) :
  let out := solve E algorithm_should_terminate model options fuel st in
  let config := cfg (final (solve_setup E model options st)) in
  res out = Returned (Some r) ->
  exists l s1,
    let s2 := if is_not_None (best_solution_found s1)
              then load_solution E s1 else s1 in
    let s3 := get_integral_info E s2 in
    let s4 := update_result E s3 in
    emitted out
    = l ++ (if is_not_None (best_solution_found s1)
            then [{| ev_call := call_load_solution; ev_self := s1 |}]
            else [])
        ++ [ {| ev_call := call_get_integral_info; ev_self := s2 |};
             {| ev_call := call_update_result; ev_self := s3 |} ]
    /\ Forall (fun e => is_closing_call (ev_call e) = false) l
    /\ r = (if single_tree config
            then set_num_nodes
                   (Some (nlp_iter s4
                          - (if String.eqb (init_strategy config) "rNLP"
                             then 1 else 0)))
                   (results s4)
            else results s4).
Proof.
  intros out config. subst out config. unfold solve.
  rewrite bind_out.
  pose proof (@solve_setup_no_closing_call _ E model options st) as Hsetup.
  destruct (res (solve_setup E model options st)) as [[ | ] | e | ];
    [ | discriminate | discriminate | discriminate ].
  rewrite bind_get_config. cbn [after res emitted]. intros Hres.
  destruct (@solve_model_closing _ E algorithm_should_terminate _ _ _ _ Hres)
    as (l & s1 & Hlog & Hl & Hr).
  exists (emitted (solve_setup E model options st) ++ l), s1.
  cbv zeta in Hlog, Hr |- *. rewrite Hlog.
  split; [ rewrite <- app_assoc; reflexivity | ].
  split; [ apply Forall_app; split; assumption | ].
  injection Hr as ->. reflexivity.
Qed.

Lemma solve_closing_calls_witness :
  exists l s1,
    emitted Example.tree_run
    = l ++ (if is_not_None (best_solution_found s1)
            then [{| ev_call := call_load_solution; ev_self := s1 |}]
            else [])
        ++ [ {| ev_call := call_get_integral_info;
                ev_self := if is_not_None (best_solution_found s1)
                           then load_solution (Example.collaborators tc_optimal []) s1
                           else s1 |};
             {| ev_call := call_update_result;
                ev_self := get_integral_info (Example.collaborators tc_optimal [])
                             (if is_not_None (best_solution_found s1)
                              then load_solution
                                     (Example.collaborators tc_optimal []) s1
                              else s1) |} ]
    /\ Forall (fun e => is_closing_call (ev_call e) = false) l.
Proof.
  destruct (@solve_closing_calls Example.domain
              (Example.collaborators tc_optimal []) Example.keep_going
              (Example.model (Some 1) [AInt 0])
              (Example.single_tree_config "gurobi_persistent" false) 3
              (Example.fresh_state (Example.no_good_config None))
              {| termination_reason := RUNNING; num_nodes := Some (-1) |}
              eq_refl)
    as (l & s1 & Hlog & Hl & _).
  exists l, s1. split; [ exact Hlog | exact Hl ].
Defined.

(** ** More on the model split (lines 367-391) *)
Section ModelSplitMore.
Context {D : Domain}.

Lemma first_active_spec (l : list ObjectiveData) :
  match first_active l with
  | Some i =>
      exists o, nth_error l i = Some o /\ obj_active o = true
                /\ forall j o', (j < i)%nat -> nth_error l j = Some o' ->
                                obj_active o' = false
  | None => forall o, In o l -> obj_active o = false
  end.
Proof.
  induction l as [ | a l IH ]; simpl.
  - intros o [].
  - destruct (obj_active a) eqn:Ha.
    + exists a. repeat split; [ exact Ha | ]. intros j o' Hj. lia.
    + destruct (first_active l) as [i | ]; simpl.
      * destruct IH as (o & Hnth & Hact & Hbefore).
        exists o. repeat split; [ exact Hnth | exact Hact | ].
        intros [ | j] o' Hj Ho'; simpl in Ho'.
        -- injection Ho' as <-. exact Ha.
        -- apply (Hbefore j); [ lia | exact Ho' ].
      * intros o [<- | Ho]; [ exact Ha | apply IH, Ho ].
Qed.

Lemma count_active_update (l : list ObjectiveData) (i : nat) (o : ObjectiveData) :
  nth_error l i = Some o ->
  obj_active o = true ->
  (count_active (update_nth i (obj_set_active false) l) + 1 = count_active l)%nat.
Proof.
  unfold count_active. revert i.
  induction l as [ | a l IH ]; intros [ | i] Hnth Hact; simpl in *;
    try discriminate.
  - injection Hnth as ->. rewrite Hact. simpl. lia.
  - specialize (IH i Hnth Hact). destruct (obj_active a); simpl; lia.
Qed.

End ModelSplitMore.

(** X12.  [initialize_mip_problem] raises [StopIteration] exactly when
    the working model, once bounded, has no active objective.  It has
    then already replaced [self.mip] by the clone of the working model,
    and has not computed the jacobians; its one call, in single-tree
    mode, was [add_var_bound]. *)
Theorem split_without_active_objective
    {D : Domain} (E : Collaborators) (st : State) :
  let w := bounded_working E (cfg st) (working_model (self st)) in
  let out := initialize_mip_problem E st in
  (res out = Raised StopIteration <-> first_active (objectives w) = None)
  /\ (first_active (objectives w) = None ->
      mip (self (final out)) = Some w
      /\ working_model (self (final out)) = w
      /\ jacobians (self (final out)) = jacobians (self st)
      /\ map ev_call (emitted out)
         = (if single_tree (cfg st) then [call_add_var_bound] else [])).
Proof.
  intros w out. subst w out. split.
  - split.
    + intros Hres.
      destruct (first_active (objectives (bounded_working E (cfg st)
                                            (working_model (self st)))))
        as [i | ] eqn:Hi; [ | reflexivity ].
      destruct (@initialize_mip_problem_returns _ E st i Hi) as (Hret & _).
      rewrite Hret in Hres. discriminate.
    + apply initialize_mip_problem_raises.
  - unfold initialize_mip_problem, bounded_working. run.
    destruct (single_tree (cfg st)); run;
      cbn [set_mip mip working_model map_working_model set_working_model];
      run; intros Hi; rewrite Hi; run;
      cbn [raise res final emitted self map ev_call set_mip mip working_model
           map_working_model set_working_model jacobians];
      repeat split.
Qed.

(** X13.  When [initialize_mip_problem] returns, the MILP model
    [self.mip] is the working model (bounded, in single-tree mode) with
    its first active objective deactivated: that objective was active,
    no other objective changes, so the model has one active objective
    less.  Its constraints are those of the working model, none is
    deactivated; its [dual] suffix is deactivated when duals are
    calculated; its list of outer-approximation cuts is new and empty. *)
Theorem split_deactivates_one_objective
    {D : Domain} (E : Collaborators) (st : State) :
  let w := bounded_working E (cfg st) (working_model (self st)) in
  let out := initialize_mip_problem E st in
  res out = Returned tt ->
  exists m i o,
    mip (self (final out)) = Some m
    /\ first_active (objectives w) = Some i
    /\ nth_error (objectives w) i = Some o
    /\ obj_active o = true
    /\ nth_error (objectives m) i = Some (obj_set_active false o)
    /\ (forall j, j <> i -> nth_error (objectives m) j = nth_error (objectives w) j)
    /\ (count_active (objectives m) + 1 = count_active (objectives w))%nat
    /\ constraints m = constraints w
    /\ dual_active m
       = (if calculate_dual_at_solution (cfg st) then false else dual_active w)
    /\ oa_cuts (cuts (MindtPy_utils m)) = Some new_ConstraintList.
Proof.
  intros w out Hres. subst out.
  destruct (first_active (objectives w)) as [i | ] eqn:Hi.
  - destruct (@initialize_mip_problem_returns _ E st i Hi) as (_ & _ & Hmip & _).
    fold w in Hmip.
    pose proof (first_active_spec (objectives w)) as Hspec.
    rewrite Hi in Hspec. destruct Hspec as (o & Hnth & Hact & _).
    exists (relaxed_clone (cfg st) i w), i, o.
    split; [ exact Hmip | ].
    split; [ reflexivity | ].
    split; [ exact Hnth | ].
    split; [ exact Hact | ].
    assert (Hobj : objectives (relaxed_clone (cfg st) i w)
                   = update_nth i (obj_set_active false) (objectives w)).
    { unfold relaxed_clone. cbv zeta.
      destruct (calculate_dual_at_solution (cfg st));
        destruct (String.eqb (init_strategy (cfg st)) "FP"); reflexivity. }
    rewrite Hobj.
    split; [ rewrite nth_error_update_nth_same, Hnth; reflexivity | ].
    split; [ intros j Hj; apply nth_error_update_nth_other; congruence | ].
    split; [ apply (count_active_update _ _ Hnth Hact) | ].
    unfold relaxed_clone. cbv zeta.
    destruct (calculate_dual_at_solution (cfg st));
      destruct (String.eqb (init_strategy (cfg st)) "FP"); repeat split.
  - rewrite (@initialize_mip_problem_raises _ E st Hi) in Hres. discriminate.
Qed.

Lemma split_deactivates_one_objective_witness :
  exists m,
    mip (self (final (initialize_mip_problem (Example.collaborators tc_optimal [])
                        (Example.fresh_state (Example.no_good_config None)))))
    = Some m
    /\ (count_active (objectives m) + 1
        = count_active (objectives (Example.model (Some 1%Z) [AInt 0%Z])))%nat.
Proof.
  destruct (@split_deactivates_one_objective Example.domain
              (Example.collaborators tc_optimal [])
              (Example.fresh_state (Example.no_good_config None)) eq_refl)
    as (m & i & o & Hmip & _ & _ & _ & _ & _ & Hcount & _).
  exists m. split; [ exact Hmip | exact Hcount ].
Defined.

(** ** A pass in single-tree mode (lines 174-215) *)

(** X14.  In single-tree mode without regularization, a pass of the
    loop whose main solve returns results calls [solve_main] and then
    the termination check with [check_cycling=True], and nothing else:
    no handler of the termination condition, no callback, no
    subproblem, no solution pool.  The pass leaves the loop with
    [last_iter_cuts = False] when the check says so and otherwise goes
    on with [last_iter_cuts] as it was. *)
Theorem single_tree_pass
    {D : Domain} (E : Collaborators) (algorithm_should_terminate : TerminationCheck)
    (config : Config) (last_iter_cuts : bool) (st : State)
    (main_mip : Model) (results : SolverResults) (s' : Solver) :
  single_tree config = true ->
  add_regularization config = None ->
  solve_main E config false (set_mip_subiter 0 (self st))
  = ((main_mip, Some results), s') ->
  let out := iteration E algorithm_should_terminate config last_iter_cuts st in
  emitted out
  = [ {| ev_call := call_solve_main false;
         ev_self := set_mip_subiter 0 (self st) |};
      {| ev_call := call_algorithm_should_terminate true; ev_self := s' |} ]
  /\ res out
     = Returned (if fst (algorithm_should_terminate config true s')
                 then Break false else Next last_iter_cuts)
  /\ self (final out) = snd (algorithm_should_terminate config true s').
Proof.
  intros Htree Hreg Hsolve out. subst out.
  unfold iteration. run. rewrite Hsolve. cbn [fst snd].
  rewrite Htree. cbn [negb].
  unfold after_main_solve, regularization_step, regularization_requested.
  run. rewrite Hreg, Htree. cbn [is_not_None is_None negb andb]. run.
  unfold single_tree_regularization_step. rewrite Hreg.
  cbn [is_not_None is_None negb andb]. run.
  rewrite single_tree_skips_subproblem_and_pool by exact Htree. run.
  destruct (fst (algorithm_should_terminate config true s'));
    repeat split.
Qed.

Lemma single_tree_pass_witness :
  map ev_call
    (emitted (iteration (Example.collaborators tc_optimal []) Example.keep_going
                (Example.single_tree_config "gurobi_persistent" false) false
                (Example.fresh_state
                   (Example.single_tree_config "gurobi_persistent" false))))
  = [call_solve_main false; call_algorithm_should_terminate true].
Proof.
  rewrite (proj1 (@single_tree_pass Example.domain
                    (Example.collaborators tc_optimal []) Example.keep_going
                    (Example.single_tree_config "gurobi_persistent" false) false
                    (Example.fresh_state
                       (Example.single_tree_config "gurobi_persistent" false))
                    _ _ _ eq_refl eq_refl eq_refl)).
  reflexivity.
Defined.

(** ** The explored assignments (lines 254-267) *)
Section Explored.

Lemma AsgVal_eqb_eq (a b : AsgVal) : AsgVal_eqb a b = true <-> a = b.
Proof.
  destruct a as [x | x], b as [y | y]; simpl;
    try (split; [ discriminate | discriminate ]).
  - rewrite Z.eqb_eq. split; congruence.
  - rewrite String.eqb_eq. split; congruence.
Qed.

Lemma asg_eqb_eq (a b : IntegerAssignment) : asg_eqb a b = true <-> a = b.
Proof.
  revert b. induction a as [ | x a IH ]; intros [ | y b ]; simpl;
    try (split; [ discriminate | discriminate ]).
  - split; reflexivity.
  - rewrite andb_true_iff, AsgVal_eqb_eq, IH. split.
    + intros [-> ->]. reflexivity.
    + intros H. injection H as -> ->. split; reflexivity.
Qed.

Lemma asg_in_In (a : IntegerAssignment) (l : list IntegerAssignment) :
  asg_in a l = true <-> In a l.
Proof.
  unfold asg_in. rewrite existsb_exists. split.
  - intros (b & Hb & Heq). apply asg_eqb_eq in Heq. subst b. exact Hb.
  - intros H. exists a. split; [ exact H | apply asg_eqb_eq; reflexivity ].
Qed.

End Explored.

(** X15.  Loading a pool solution records its integer assignment at
    most once: the assignment becomes [curr_int_sol]; it is appended to
    [integer_list] when it is not there yet, and [integer_list] is left
    alone when it is.  So the assignment is in [integer_list]
    afterwards, the earlier entries keep their places, and a list
    without duplicates stays without duplicates. *)
Theorem pool_solution_recorded_once
    {D : Domain} (E : Collaborators) (config : Config) (results : SolverResults)
    (name : PoolName) (st : State) :
  let out := load_pool_solution E config results name st in
  let a := pool_assignment E config results name (self st) in
  curr_int_sol (self (final out)) = a
  /\ integer_list (self (final out))
     = (if asg_in a (integer_list (self st))
        then integer_list (self st)
        else integer_list (self st) ++ [a])
  /\ res out = Returned (asg_in a (integer_list (self st)))
  /\ In a (integer_list (self (final out)))
  /\ (NoDup (integer_list (self st)) ->
      NoDup (integer_list (self (final out)))).
Proof.
  intros out a. subst out a.
  unfold load_pool_solution, pool_assignment. run.
  cbn [set_curr_int_sol set_working_model curr_int_sol integer_list
       working_model].
  set (a := get_integer_solution E _ false).
  destruct (asg_in a (integer_list (self st))) eqn:Hin; run;
    cbn [ret res final self set_integer_list set_curr_int_sol set_working_model
         curr_int_sol integer_list].
  - repeat split; try reflexivity.
    + apply asg_in_In. exact Hin.
    + intros H. exact H.
  - repeat split; try reflexivity.
    + apply in_or_app. right. left. reflexivity.
    + intros Hnd. apply NoDup_app.
      * exact Hnd.
      * constructor; [ intros [] | constructor ].
      * intros b Hb [<- | []].
        apply asg_in_In in Hb. congruence.
Qed.

(** ** The order of the pool (lines 247-248) *)
Section PoolStable.
Variable reverse : bool.
Variable q : Q.

Lemma goes_after_other_objective (x y : PoolName * Q) :
  goes_after reverse x y = true ->
  Qeq_bool (snd x) q = true -> Qeq_bool (snd y) q = false.
Proof.
  intros Hafter Hx. apply Qeq_bool_iff in Hx.
  destruct (Qeq_bool (snd y) q) eqn:Hy; [ | reflexivity ].
  apply Qeq_bool_iff in Hy. exfalso.
  unfold goes_after, Qltb in Hafter.
  assert (Heq : (snd x == snd y)%Q) by (rewrite Hx, Hy; reflexivity).
  destruct reverse; apply negb_true_iff in Hafter.
  - assert (H : Qle_bool (snd y) (snd x) = true)
      by (apply Qle_bool_iff; rewrite Heq; apply Qle_refl).
    congruence.
  - assert (H : Qle_bool (snd x) (snd y) = true)
      by (apply Qle_bool_iff; rewrite Heq; apply Qle_refl).
    congruence.
Qed.

Lemma sort_insert_stable (x : PoolName * Q) (l : list (PoolName * Q)) :
  filter (fun e => Qeq_bool (snd e) q) (sort_insert reverse x l)
  = filter (fun e => Qeq_bool (snd e) q) (x :: l).
Proof.
  induction l as [ | y l IH ]; [ reflexivity | ].
  cbn [sort_insert].
  destruct (goes_after reverse x y) eqn:Hafter; [ | reflexivity ].
  cbn [filter] in IH |- *. rewrite IH.
  destruct (Qeq_bool (snd x) q) eqn:Hx; [ | reflexivity ].
  rewrite (goes_after_other_objective _ _ Hafter Hx). reflexivity.
Qed.

End PoolStable.

(** X16.  The sort of the solution pool is stable in both directions:
    the entries with one and the same objective value come out in the
    order in which the solver listed them, whether the pool is sorted
    ascending (minimization) or descending (maximization). *)
Theorem pool_sort_is_stable (reverse : bool) (l : list (PoolName * Q)) (q : Q) :
  filter (fun e => Qeq_bool (snd e) q) (sort_by_objective reverse l)
  = filter (fun e => Qeq_bool (snd e) q) l.
Proof.
  induction l as [ | x l IH ]; [ reflexivity | ].
  cbn [sort_by_objective]. rewrite sort_insert_stable.
  cbn [filter]. rewrite IH. reflexivity.
Qed.

(** ** Eviction, twice (lines 412-418) *)

(** X17.  Run a second time on the list it returned, the eviction step
    returns that list again: the cut added last is deactivated already,
    and no other cut is touched.  The tabu list is not so: with
    [use_tabu_list] each run drops one more explored assignment. *)
Theorem repeated_eviction
    {D : Domain} (cuts cuts1 : ConstraintList) (st : State) :
  let first := deactivate_no_good_cuts_when_fixing_bound cuts st in
  res first = Returned cuts1 ->
  let second := deactivate_no_good_cuts_when_fixing_bound cuts1 (final first) in
  res second = Returned cuts1
  /\ integer_list (self (final second))
     = (if use_tabu_list (cfg st)
        then removelast (removelast (integer_list (self st)))
        else integer_list (self st)).
Proof.
  intros first. subst first.
  assert (Hlast : forall c e l,
            cl_members c = e ++ [l] ->
            cl_deactivate_item c (cl_len c)
            = {| cl_active := cl_active c;
                 cl_members := e ++ [con_deactivate l] |}).
  { intros c0 e l Hc. unfold cl_deactivate_item, cl_len.
    rewrite Hc, last_position, update_nth_last. reflexivity. }
  assert (Hstep : forall c st0,
            (add_no_good_cuts (cfg st0) = true -> cl_members c <> []) ->
            deactivate_no_good_cuts_when_fixing_bound c st0
            = {| res := Returned (if add_no_good_cuts (cfg st0)
                                  then cl_deactivate_item c (cl_len c) else c);
                 final := {| cfg := cfg st0;
                             self := if use_tabu_list (cfg st0)
                                     then set_integer_list
                                            (removelast (integer_list (self st0)))
                                            (self st0)
                                     else self st0 |};
                 emitted := [] |}).
  { intros c st0 Hne.
    unfold deactivate_no_good_cuts_when_fixing_bound. run.
    destruct (add_no_good_cuts (cfg st0)).
    - destruct (split_last (Hne eq_refl)) as [e [l Hc]].
      rewrite (@cl_getitem_last _ c e l Hc). run.
      destruct (use_tabu_list (cfg st0)); run; destruct st0; reflexivity.
    - run. destruct (use_tabu_list (cfg st0)); run; destruct st0; reflexivity. }
  intros Hres.
  assert (Hne : add_no_good_cuts (cfg st) = true -> cl_members cuts <> []).
  { intros Hng Hm. revert Hres.
    unfold deactivate_no_good_cuts_when_fixing_bound. run.
    rewrite Hng, (cl_getitem_empty _ Hm). run. discriminate. }
  revert Hres. rewrite (Hstep cuts st Hne). cbn [res final].
  intros Hres. injection Hres as <-.
  destruct (add_no_good_cuts (cfg st)) eqn:Hng.
  - destruct (split_last (Hne eq_refl)) as [earlier [last Hm]].
    assert (Hmem : cl_members (cl_deactivate_item cuts (cl_len cuts))
                   = earlier ++ [con_deactivate last])
      by (rewrite (Hlast _ _ _ Hm); reflexivity).
    rewrite Hstep; cbn [cfg self res final].
    + rewrite Hng, (Hlast _ _ _ Hmem), (Hlast _ _ _ Hm).
      cbn [cl_active cl_members].
      split; [ reflexivity | ].
      destruct (use_tabu_list (cfg st)); reflexivity.
    + intros _. rewrite Hmem. intros H. apply app_eq_nil in H.
      destruct H as [_ H]. discriminate.
  - rewrite Hstep; cbn [cfg self res final].
    + rewrite Hng. split; [ reflexivity | ].
      destruct (use_tabu_list (cfg st)); reflexivity.
    + rewrite Hng. discriminate.
Qed.

Lemma repeated_eviction_witness :
  integer_list
    (self (final (deactivate_no_good_cuts_when_fixing_bound
                    (cl_deactivate_item Example.two_cuts 2)
                    (final (deactivate_no_good_cuts_when_fixing_bound
                              Example.two_cuts Example.tabu_state)))))
  = [].
Proof.
  rewrite (proj2 (@repeated_eviction Example.domain Example.two_cuts
                    (cl_deactivate_item Example.two_cuts 2) Example.tabu_state
                    eq_refl)).
  reflexivity.
Defined.

(** * Properties of the relational and logical expressions *)

(** ** [inequality] (lines 227-273) *)

(** X18.  [inequality] looks at which of [lower], [body] and [upper] are
    given.  With all three it builds the ranged expression over them,
    strict on both sides or on neither; with exactly two it builds the
    inequality between the two, in the order lower, body, upper; with
    fewer than two it raises [ValueError]. *)
Theorem inequality_outcome
    (Num Leaf : Type) (lower body upper : LogicalExpr.Value Num Leaf)
    (strict : bool) :
  LogicalExpr.inequality lower body upper strict
  = match filter (fun v => negb (LogicalExpr.is_PyNone v)) [lower; body; upper] with
    | [x; y] => LogicalExpr.Ok (LogicalExpr.InequalityExpression x y strict)
    | [x; y; z] =>
        LogicalExpr.Ok (LogicalExpr.RangedExpression x y z (strict, strict))
    | _ => LogicalExpr.Raise LogicalExpr.ValueError
    end.
Proof.
  destruct lower, body, upper; reflexivity.
Qed.

(** ** [_generate_relational_expression] (lines 329-402) *)
Section GenerateRelational.
Import LogicalExpr.
Variable Num : Type.
Variables num_eq num_le num_lt : Num -> Num -> bool.
Variable Leaf : Type.
Variable leaf_is_relational : Leaf -> bool.
Variable _process_arg : Value Num Leaf -> Result (Value Num Leaf).

Lemma process_side_spec (v v' : Value Num Leaf) (relational constant : bool) :
  (forall w, _process_arg v = Ok w -> flat leaf_is_relational w = true) ->
  process_side leaf_is_relational _process_arg v = Ok (v', relational, constant) ->
  relational = is_relational leaf_is_relational v'
  /\ flat leaf_is_relational v' = true.
Proof.
  intros Hprocessed. unfold process_side.
  destruct (negb (is_PyNone v) && negb (is_native v)) eqn:Hv.
  - destruct (_process_arg v) as [w | e]; [ | discriminate ].
    specialize (Hprocessed w eq_refl).
    destruct (negb (is_PyNone w) && negb (is_native w)) eqn:Hw;
      intros H; injection H as <- <- <-.
    + split; [ reflexivity | exact Hprocessed ].
    + split; [ | exact Hprocessed ].
      destruct w; try discriminate Hw; reflexivity.
  - intros H; injection H as <- <- <-.
    destruct v; try discriminate Hv; split; reflexivity.
Qed.

(** X19.  Relational expressions do not nest.  If the two sides, once
    processed, are not themselves built over relational arguments, then
    whatever expression [_generate_relational_expression] returns is a
    relational expression whose arguments are not relational: an
    inequality chained onto an inequality becomes one ranged expression
    over the three arguments, and every other combination with a
    relational side is refused. *)
Theorem relational_expressions_never_nest
    (etype : EType) (lhs rhs e : Value Num Leaf) :
  (forall w, _process_arg lhs = Ok w -> flat leaf_is_relational w = true) ->
  (forall w, _process_arg rhs = Ok w -> flat leaf_is_relational w = true) ->
  _generate_relational_expression num_eq num_le num_lt leaf_is_relational
    _process_arg etype lhs rhs = Ok (inr e) ->
  is_relational leaf_is_relational e = true
  /\ flat leaf_is_relational e = true.
Proof.
  intros Hl Hr. unfold _generate_relational_expression.
  destruct (process_side leaf_is_relational _process_arg lhs)
    as [[[l lrel] lconst] | err] eqn:Hpl; [ | discriminate ].
  destruct (process_side leaf_is_relational _process_arg rhs)
    as [[[r rrel] rconst] | err] eqn:Hpr; [ | discriminate ].
  destruct (@process_side_spec _ _ _ _ Hl Hpl) as [-> Hfl].
  destruct (@process_side_spec _ _ _ _ Hr Hpr) as [-> Hfr].
  destruct (lconst && rconst).
  - destruct etype; try discriminate.
    + destruct (py_le num_le l r); discriminate.
    + destruct (py_lt num_lt l r); discriminate.
  - destruct etype; try discriminate.
    + destruct (is_relational leaf_is_relational l) eqn:Hrl;
        [ discriminate | ].
      destruct (is_relational leaf_is_relational r) eqn:Hrr;
        [ discriminate | ].
      cbn [orb]. intros H. injection H as <-. cbn. rewrite Hrl, Hrr.
      split; reflexivity.
    + cbv zeta.
      destruct (is_relational leaf_is_relational l) eqn:Hrl.
      * destruct l; try discriminate.
        destruct (is_relational leaf_is_relational r) eqn:Hrr;
          [ discriminate | ].
        intros H. injection H as <-. cbn in Hfl |- *. rewrite Hfl, Hrr.
        split; reflexivity.
      * destruct (is_relational leaf_is_relational r) eqn:Hrr.
        -- destruct r; try discriminate.
           intros H. injection H as <-. cbn in Hfr |- *.
           apply andb_true_iff in Hfr. destruct Hfr as [Ha Hb].
           rewrite Hrl, Ha, Hb. split; reflexivity.
        -- intros H. injection H as <-. cbn. rewrite Hrl, Hrr.
           split; reflexivity.
    + cbv zeta.
      destruct (is_relational leaf_is_relational l) eqn:Hrl.
      * destruct l; try discriminate.
        destruct (is_relational leaf_is_relational r) eqn:Hrr;
          [ discriminate | ].
        intros H. injection H as <-. cbn in Hfl |- *. rewrite Hfl, Hrr.
        split; reflexivity.
      * destruct (is_relational leaf_is_relational r) eqn:Hrr.
        -- destruct r; try discriminate.
           intros H. injection H as <-. cbn in Hfr |- *.
           apply andb_true_iff in Hfr. destruct Hfr as [Ha Hb].
           rewrite Hrl, Ha, Hb. split; reflexivity.
        -- intros H. injection H as <-. cbn. rewrite Hrl, Hrr.
           split; reflexivity.
Qed.

(** X20.  A comparison chained onto an inequality, [(a <= b) <= c] or
    with [<] in either place, gives the ranged expression over [a], [b]
    and [c] that keeps the strictness of each side; [c] may be a
    constant.  The value of a ranged expression is the conjunction of
    the values of its two inequalities. *)
Theorem chained_inequality
    (etype : EType) (a b c c' : Value Num Leaf) (strict constant : bool) :
  _process_arg (InequalityExpression a b strict)
  = Ok (InequalityExpression a b strict) ->
  process_side leaf_is_relational _process_arg c = Ok (c', false, constant) ->
  etype = _le \/ etype = _lt ->
  _generate_relational_expression num_eq num_le num_lt leaf_is_relational
    _process_arg etype (InequalityExpression a b strict) c
  = Ok (inr (RangedExpression a b c'
               (strict, match etype with _lt => true | _ => false end)))
  /\ forall s1 s2 x y z,
       RangedExpression_apply num_le num_lt (s1, s2) (x, y, z)
       = InequalityExpression_apply num_le num_lt s1 (x, y)
         && InequalityExpression_apply num_le num_lt s2 (y, z).
Proof.
  intros Hlhs Hrhs Hetype. split.
  - unfold _generate_relational_expression.
    unfold process_side at 1. cbn [is_PyNone is_native negb andb].
    rewrite Hlhs. cbn [is_PyNone is_native negb andb is_relational].
    rewrite Hrhs. cbn [andb].
    destruct Hetype as [-> | ->]; reflexivity.
  - intros [ | ] [ | ] x y z; reflexivity.
Qed.

End GenerateRelational.

Lemma relational_expressions_never_nest_witness :
  LogicalExpr.flat (fun _ : string => false)
    (LogicalExpr.RangedExpression
       (LogicalExpr.Object Z "x") (LogicalExpr.Object Z "y")
       (LogicalExpr.Object Z "z") (false, true))
  = true.
Proof.
  refine (proj2 (@relational_expressions_never_nest Z Z.eqb Z.leb Z.ltb string
                   (fun _ => false) (@LogicalExpr.Ok _) LogicalExpr._lt
                   (LogicalExpr.InequalityExpression
                      (LogicalExpr.Object Z "x") (LogicalExpr.Object Z "y") false)
                   (LogicalExpr.Object Z "z")
                   (LogicalExpr.RangedExpression
                      (LogicalExpr.Object Z "x") (LogicalExpr.Object Z "y")
                      (LogicalExpr.Object Z "z") (false, true))
                   _ _ eq_refl));
    intros w H; injection H as <-; reflexivity.
Defined.

Lemma chained_inequality_witness :
  LogicalExpr._generate_relational_expression Z.eqb Z.leb Z.ltb
    (fun _ : string => false) (@LogicalExpr.Ok _) LogicalExpr._le
    (LogicalExpr.InequalityExpression
       (LogicalExpr.Native string 1) (LogicalExpr.Object Z "x") true)
    (LogicalExpr.Native string 5)
  = LogicalExpr.Ok
      (inr (LogicalExpr.RangedExpression
              (LogicalExpr.Native string 1) (LogicalExpr.Object Z "x")
              (LogicalExpr.Native string 5) (true, false))).
Proof.
  exact (proj1 (@chained_inequality Z Z.eqb Z.leb Z.ltb string
                  (fun _ => false) (@LogicalExpr.Ok _) LogicalExpr._le
                  (LogicalExpr.Native string 1) (LogicalExpr.Object Z "x")
                  (LogicalExpr.Native string 5) (LogicalExpr.Native string 5)
                  true true eq_refl eq_refl (or_introl eq_refl))).
Defined.

(** ** Evaluation of the logical expressions (lines 572-875) *)
Section Evaluation.
Import LogicalExpr.

Lemma py_sum_bools (bs : list bool) :
  py_sum (map PBool bs) = Z.of_nat (List.length (filter (fun b => b) bs)).
Proof.
  induction bs as [ | b bs IH ]; [ reflexivity | ].
  cbn [map py_sum fold_right int_of filter] in *.
  fold (py_sum (map PBool bs)). rewrite IH.
  destruct b; cbn [Z.b2z List.length]; lia.
Qed.

Lemma count_true_bounds (bs : list bool) :
  (List.length (filter (fun b => b) bs) <= List.length bs)%nat.
Proof. apply filter_length_le. Qed.

Lemma count_true_all (bs : list bool) :
  List.length (filter (fun b => b) bs) = List.length bs
  <-> forallb (fun b => b) bs = true.
Proof.
  induction bs as [ | b bs IH ]; [ split; reflexivity | ].
  pose proof (count_true_bounds bs) as Hle.
  destruct b; cbn [filter forallb List.length andb].
  - rewrite <- IH. split; intros H; lia.
  - split; [ intros H; lia | discriminate ].
Qed.

Lemma count_true_any (bs : list bool) :
  (1 <= List.length (filter (fun b => b) bs))%nat
  <-> existsb (fun b => b) bs = true.
Proof.
  induction bs as [ | b bs IH ]; [ split; [ cbn; lia | discriminate ] | ].
  destruct b; cbn [filter existsb List.length orb].
  - split; [ reflexivity | lia ].
  - exact IH.
Qed.

Lemma truth_bools (bs : list bool) :
  forallb truth (map PBool bs) = forallb (fun b => b) bs
  /\ existsb truth (map PBool bs) = existsb (fun b => b) bs.
Proof.
  induction bs as [ | b bs [IHa IHe] ]; [ split; reflexivity | ].
  cbn [map forallb existsb truth]. rewrite IHa, IHe. split; reflexivity.
Qed.

End Evaluation.

(** X21.  On every list of argument values, [ExactlyExpression] holds
    exactly when [AtLeastExpression] and [AtMostExpression] both hold;
    and each of the three raises [IndexError] exactly when the list is
    empty, the count [n] being its first member. *)
Theorem exactly_is_atleast_and_atmost (result : list LogicalExpr.PyVal) :
  match LogicalExpr.ExactlyExpression_apply result,
        LogicalExpr.AtLeastExpression_apply result,
        LogicalExpr.AtMostExpression_apply result with
  | LogicalExpr.Ok exactly, LogicalExpr.Ok atleast, LogicalExpr.Ok atmost =>
      result <> []
      /\ LogicalExpr.truth exactly
         = LogicalExpr.truth atleast && LogicalExpr.truth atmost
  | LogicalExpr.Raise LogicalExpr.IndexError,
    LogicalExpr.Raise LogicalExpr.IndexError,
    LogicalExpr.Raise LogicalExpr.IndexError => result = []
  | _, _, _ => False
  end.
Proof.
  destruct result as [ | n rest ]; [ reflexivity | ].
  unfold LogicalExpr.ExactlyExpression_apply, LogicalExpr.AtLeastExpression_apply,
    LogicalExpr.AtMostExpression_apply.
  cbn [LogicalExpr.getitem nth_error tl LogicalExpr.truth].
  split; [ discriminate | ].
  destruct (LogicalExpr.py_sum rest =? LogicalExpr.int_of n) eqn:He,
    (LogicalExpr.py_sum rest >=? LogicalExpr.int_of n) eqn:Hl,
    (LogicalExpr.py_sum rest <=? LogicalExpr.int_of n) eqn:Hm;
    try reflexivity; exfalso;
    rewrite ?Z.eqb_eq, ?Z.eqb_neq, ?Z.leb_le, ?Z.leb_gt in *;
    rewrite Z.geb_leb in Hl;
    rewrite ?Z.leb_le, ?Z.leb_gt in *; lia.
Qed.

(** X22.  The cardinality expressions generalize conjunction and
    disjunction.  Over Boolean argument values, "at least 1" is the value
    of [OrExpression], "at most 0" is its negation, and "at least n" and
    "exactly n" for [n] the number of arguments are the value of
    [AndExpression]. *)
Theorem cardinality_generalizes_and_or (bs : list bool) :
  let values := map LogicalExpr.PBool bs in
  let n := LogicalExpr.PInt (Z.of_nat (List.length bs)) in
  LogicalExpr.AtLeastExpression_apply (LogicalExpr.PInt 1 :: values)
  = LogicalExpr.OrExpression_apply values
  /\ LogicalExpr.AtMostExpression_apply (LogicalExpr.PInt 0 :: values)
     = LogicalExpr.NotExpression_apply
         [LogicalExpr.PBool (existsb LogicalExpr.truth values)]
  /\ LogicalExpr.AtLeastExpression_apply (n :: values)
     = LogicalExpr.AndExpression_apply values
  /\ LogicalExpr.ExactlyExpression_apply (n :: values)
     = LogicalExpr.AndExpression_apply values.
Proof.
  intros values n. subst values n.
  unfold LogicalExpr.AtLeastExpression_apply, LogicalExpr.AtMostExpression_apply,
    LogicalExpr.ExactlyExpression_apply, LogicalExpr.OrExpression_apply,
    LogicalExpr.AndExpression_apply, LogicalExpr.NotExpression_apply.
  cbn [LogicalExpr.getitem nth_error tl LogicalExpr.truth LogicalExpr.int_of].
  destruct (truth_bools bs) as [Hall Hany].
  rewrite Hall, Hany, py_sum_bools.
  pose proof (count_true_bounds bs) as Hle.
  pose proof (count_true_all bs) as Hcall.
  pose proof (count_true_any bs) as Hcany.
  set (k := List.length (filter (fun b => b) bs)) in *.
  repeat split; do 2 f_equal.
  - destruct (existsb (fun b => b) bs).
    + rewrite Z.geb_leb. apply Z.leb_le.
      assert (1 <= k)%nat by (apply Hcany; reflexivity). lia.
    + rewrite Z.geb_leb. apply Z.leb_gt.
      assert (~ (1 <= k)%nat) by (intros H; apply Hcany in H; discriminate).
      lia.
  - destruct (existsb (fun b => b) bs); cbn [negb].
    + apply Z.leb_gt.
      assert (1 <= k)%nat by (apply Hcany; reflexivity). lia.
    + apply Z.leb_le.
      assert (~ (1 <= k)%nat) by (intros H; apply Hcany in H; discriminate).
      lia.
  - destruct (forallb (fun b => b) bs).
    + rewrite Z.geb_leb. apply Z.leb_le.
      assert (k = List.length bs) by (apply Hcall; reflexivity). lia.
    + rewrite Z.geb_leb. apply Z.leb_gt.
      assert (k <> List.length bs)
        by (intros H; apply Hcall in H; discriminate).
      lia.
  - destruct (forallb (fun b => b) bs).
    + apply Z.eqb_eq.
      assert (k = List.length bs) by (apply Hcall; reflexivity). lia.
    + apply Z.eqb_neq.
      assert (k <> List.length bs)
        by (intros H; apply Hcall in H; discriminate).
      lia.
Qed.

(** X23.  The binary connectives agree with negation and disjunction,
    whatever the argument values, Boolean or integer: [XorExpression]
    holds exactly when [EquivalenceExpression] does not, and
    [ImplicationExpression] holds exactly when the disjunction of the
    negated first argument and the second holds.  An implication with a
    false premise does not read its second argument. *)
Theorem binary_connectives (a b : LogicalExpr.PyVal) :
  (exists x e,
     LogicalExpr.XorExpression_apply [a; b] = LogicalExpr.Ok x
     /\ LogicalExpr.EquivalenceExpression_apply [a; b] = LogicalExpr.Ok e
     /\ LogicalExpr.truth x = negb (LogicalExpr.truth e))
  /\ (exists i,
        LogicalExpr.ImplicationExpression_apply [a; b] = LogicalExpr.Ok i
        /\ LogicalExpr.truth i
           = negb (LogicalExpr.truth a) || LogicalExpr.truth b)
  /\ (LogicalExpr.truth a = false ->
      LogicalExpr.ImplicationExpression_apply [a]
      = LogicalExpr.Ok (LogicalExpr.PBool true)).
Proof.
  split; [ | split ].
  - eexists _, _. split; [ reflexivity | ]. split; [ reflexivity | ].
    assert (Hlxor : forall x y : Z, negb (Z.lxor x y =? 0) = negb (x =? y)).
    { intros x y. f_equal.
      destruct (x =? y) eqn:Hxy.
      - apply Z.eqb_eq in Hxy. subst y. rewrite Z.lxor_nilpotent. reflexivity.
      - apply Z.eqb_neq. intros H. apply Z.lxor_eq in H.
        apply Z.eqb_neq in Hxy. contradiction. }
    destruct a as [[ | ] | x], b as [[ | ] | y];
      cbn [LogicalExpr.operator_xor LogicalExpr.truth LogicalExpr.int_of
           Z.b2z xorb];
      try reflexivity; apply Hlxor.
  - unfold LogicalExpr.ImplicationExpression_apply.
    cbn [LogicalExpr.getitem nth_error].
    destruct (LogicalExpr.truth a); cbn [negb orb].
    + eexists. split; reflexivity.
    + eexists. split; reflexivity.
  - intros Ha. unfold LogicalExpr.ImplicationExpression_apply.
    cbn [LogicalExpr.getitem nth_error]. rewrite Ha. reflexivity.
Qed.

(** ** The shared argument list of [AndExpression] and [OrExpression]
    (lines 681-800) *)
Section SharedList.
Import LogicalExpr.
Variable Atom : Type.
Let LValue := LogicalExpr.LValue Atom.
Let Heap := LogicalExpr.Heap Atom.

Lemma nth_update_nth_same (A : Type) (f : A -> A) (d : A) (l : list A) (i : nat) :
  (i < List.length l)%nat -> nth i (update_nth i f l) d = f (nth i l d).
Proof.
  revert i. induction l as [ | a l IH ]; intros [ | i] Hi; simpl in *;
    try lia; [ reflexivity | apply IH; lia ].
Qed.

Lemma nth_update_nth_other (A : Type) (f : A -> A) (d : A) (l : list A) (i j : nat) :
  i <> j -> nth j (update_nth i f l) d = nth j l d.
Proof.
  revert i j. induction l as [ | a l IH ]; intros [ | i] [ | j] Hij; simpl;
    try reflexivity; try congruence.
  apply IH. congruence.
Qed.

Lemma update_nth_length (A : Type) (f : A -> A) (l : list A) (i : nat) :
  List.length (update_nth i f l) = List.length l.
Proof.
  revert i. induction l as [ | a l IH ]; intros [ | i]; simpl;
    try reflexivity. rewrite IH. reflexivity.
Qed.

Lemma update_nth_app_last (A : Type) (f : A -> A) (l : list A) (a : A) :
  update_nth (List.length l) f (l ++ [a]) = l ++ [f a].
Proof.
  induction l as [ | b l IH ]; simpl; [ reflexivity | ].
  rewrite IH. reflexivity.
Qed.

Lemma heap_get_set_same (h : Heap) (r : nat) (l : list LValue) :
  (r < List.length h)%nat -> heap_get (heap_set h r l) r = l.
Proof.
  intros Hr. unfold heap_get, heap_set.
  rewrite nth_update_nth_same by exact Hr. reflexivity.
Qed.

Lemma heap_get_set_other (h : Heap) (r r' : nat) (l : list LValue) :
  r <> r' -> heap_get (heap_set h r l) r' = heap_get h r'.
Proof. intros Hr. apply nth_update_nth_other. exact Hr. Qed.

Lemma heap_set_length (h : Heap) (r : nat) (l : list LValue) :
  List.length (heap_set h r l) = List.length h.
Proof. apply update_nth_length. Qed.

Lemma heap_get_new (h : Heap) (l : list LValue) :
  heap_get (h ++ [l]) (List.length h) = l.
Proof. unfold heap_get. rewrite app_nth2, Nat.sub_diag by lia. reflexivity. Qed.

Lemma heap_get_old (h : Heap) (l : list LValue) (r : nat) :
  (r < List.length h)%nat -> heap_get (h ++ [l]) r = heap_get h r.
Proof. intros Hr. unfold heap_get. apply app_nth1. exact Hr. Qed.

Lemma heap_set_new (h : Heap) (l l' : list LValue) :
  heap_set (h ++ [l]) (List.length h) l' = h ++ [l'].
Proof. apply update_nth_app_last. Qed.

(** What [_add_to_and_or_expression] returns and leaves. *)
Lemma add_to_and_or_expression_out (orig : Nary) (new_arg : LValue) (h : Heap) :
  (_args_ orig < List.length h)%nat ->
  _add_to_and_or_expression orig new_arg h
  = ({| cls := cls orig; _args_ := _args_ orig;
        _nargs := List.length (heap_get h (_args_ orig)
                                 ++ spliced (cls orig) h new_arg) |},
     heap_set h (_args_ orig)
       (heap_get h (_args_ orig) ++ spliced (cls orig) h new_arg)).
Proof.
  intros Hr. unfold _add_to_and_or_expression, Nary_init, spliced, args.
  cbv zeta. cbn [cls _args_ _nargs].
  rewrite heap_get_set_same by exact Hr. reflexivity.
Qed.

Lemma firstn_app_exact (A : Type) (l l' : list A) :
  firstn (List.length l) (l ++ l') = l.
Proof.
  rewrite firstn_app, Nat.sub_diag, firstn_all. cbn. apply app_nil_r.
Qed.

(** Appending to one list of the heap changes what no well-formed
    expression shows. *)
Lemma heap_append_frame (h : Heap) (r : nat) (added : list LValue) (e : Nary) :
  well_formed e h ->
  args e (heap_set h r (heap_get h r ++ added)) = args e h
  /\ well_formed e (heap_set h r (heap_get h r ++ added))
  /\ List.length (heap_set h r (heap_get h r ++ added)) = List.length h.
Proof.
  intros [He Hn]. unfold args, well_formed. rewrite heap_set_length.
  destruct (Nat.eq_dec r (_args_ e)) as [Heq | Hne].
  - rewrite Heq, heap_get_set_same by exact He.
    split; [ | split; [ split; [ exact He | ] | reflexivity ] ].
    + rewrite firstn_app.
      replace (_nargs e - List.length (heap_get h (_args_ e)))%nat
        with 0%nat by lia.
      cbn. apply app_nil_r.
    + rewrite length_app. lia.
  - rewrite heap_get_set_other by exact Hne.
    split; [ reflexivity | split; [ split; assumption | reflexivity ] ].
Qed.

End SharedList.

(** X24.  [_add_to_and_or_expression] treats the expressions it finds
    as immutable: whatever expression is added to, and whatever is added,
    every expression whose argument list exists and holds at least
    [_nargs] members shows the same [args] afterwards, the original
    expression included, although the list object it shares has grown. *)
Theorem add_keeps_existing_arguments
    (Atom : Type) (orig e : LogicalExpr.Nary)
    (new_arg : LogicalExpr.LValue Atom) (h : LogicalExpr.Heap Atom) :
  LogicalExpr.well_formed e h ->
  let h' := snd (LogicalExpr._add_to_and_or_expression orig new_arg h) in
  LogicalExpr.args e h' = LogicalExpr.args e h
  /\ LogicalExpr.well_formed e h'
  /\ List.length h' = List.length h.
Proof.
  intros [He Hn] h'. subst h'.
  unfold LogicalExpr._add_to_and_or_expression, LogicalExpr.Nary_init.
  cbv zeta. cbn [snd LogicalExpr.cls LogicalExpr._args_ LogicalExpr._nargs].
  apply heap_append_frame; split; assumption.
Qed.

Lemma add_keeps_existing_arguments_witness :
  LogicalExpr.args
    {| LogicalExpr.cls := LogicalExpr.AndExpression;
       LogicalExpr._args_ := 0; LogicalExpr._nargs := 1 |}
    (snd (LogicalExpr._add_to_and_or_expression
            {| LogicalExpr.cls := LogicalExpr.AndExpression;
               LogicalExpr._args_ := 0; LogicalExpr._nargs := 1 |}
            (LogicalExpr.LObject "Y2") [[LogicalExpr.LObject "Y1"]]))
  = [LogicalExpr.LObject "Y1"].
Proof.
  refine (proj1 (@add_keeps_existing_arguments string
                   {| LogicalExpr.cls := LogicalExpr.AndExpression;
                      LogicalExpr._args_ := 0; LogicalExpr._nargs := 1 |}
                   {| LogicalExpr.cls := LogicalExpr.AndExpression;
                      LogicalExpr._args_ := 0; LogicalExpr._nargs := 1 |}
                   (LogicalExpr.LObject "Y2") [[LogicalExpr.LObject "Y1"]] _)).
  split; cbn; lia.
Defined.

(** X25.  The expression [_add_to_and_or_expression] returns has the
    class of the original and shares its list object.  Its arguments
    are all the members of that list, followed by what is added: the
    arguments of [new_arg] when this is an expression of the same
    class, else [new_arg] itself.  When the original shows the whole of
    its list, they are the arguments of the original followed by what is
    added. *)
Theorem add_extends_the_shared_list
    (Atom : Type) (orig : LogicalExpr.Nary)
    (new_arg : LogicalExpr.LValue Atom) (h : LogicalExpr.Heap Atom) :
  (LogicalExpr._args_ orig < List.length h)%nat ->
  let new_expr := fst (LogicalExpr._add_to_and_or_expression orig new_arg h) in
  let h' := snd (LogicalExpr._add_to_and_or_expression orig new_arg h) in
  let added := LogicalExpr.spliced (LogicalExpr.cls orig) h new_arg in
  LogicalExpr.cls new_expr = LogicalExpr.cls orig
  /\ LogicalExpr._args_ new_expr = LogicalExpr._args_ orig
  /\ LogicalExpr.args new_expr h'
     = LogicalExpr.heap_get h (LogicalExpr._args_ orig) ++ added
  /\ (LogicalExpr._nargs orig
      = List.length (LogicalExpr.heap_get h (LogicalExpr._args_ orig)) ->
      LogicalExpr.args new_expr h' = LogicalExpr.args orig h ++ added).
Proof.
  intros Hr new_expr h' added. subst new_expr h' added.
  rewrite add_to_and_or_expression_out by exact Hr.
  cbn [fst snd LogicalExpr.cls LogicalExpr._args_].
  unfold LogicalExpr.args at 1 2.
  cbn [LogicalExpr._args_ LogicalExpr._nargs].
  rewrite heap_get_set_same by exact Hr.
  rewrite firstn_all.
  repeat split.
  intros Htight. unfold LogicalExpr.args. rewrite Htight, firstn_all.
  reflexivity.
Qed.

Lemma add_extends_the_shared_list_witness :
  LogicalExpr.args
    (fst (LogicalExpr._add_to_and_or_expression
            {| LogicalExpr.cls := LogicalExpr.AndExpression;
               LogicalExpr._args_ := 0; LogicalExpr._nargs := 1 |}
            (LogicalExpr.LObject "Y2") [[LogicalExpr.LObject "Y1"]]))
    (snd (LogicalExpr._add_to_and_or_expression
            {| LogicalExpr.cls := LogicalExpr.AndExpression;
               LogicalExpr._args_ := 0; LogicalExpr._nargs := 1 |}
            (LogicalExpr.LObject "Y2") [[LogicalExpr.LObject "Y1"]]))
  = [LogicalExpr.LObject "Y1"; LogicalExpr.LObject "Y2"].
Proof.
  refine (proj1 (proj2 (proj2
            (@add_extends_the_shared_list string
               {| LogicalExpr.cls := LogicalExpr.AndExpression;
                  LogicalExpr._args_ := 0; LogicalExpr._nargs := 1 |}
               (LogicalExpr.LObject "Y2") [[LogicalExpr.LObject "Y1"]] _)))).
  cbn. lia.
Defined.

(** X26.  Adding twice to one and the same expression: the second
    expression holds what was added the first time as well.  Both
    results share the list of the original, and [__init__] takes the
    length of that list for [_nargs]; so the second result shows the
    arguments of the original, then what the first call added, then what
    the second added.  The first result and the original still show
    what they showed. *)
Theorem add_twice_to_one_expression
    (Atom : Type) (orig : LogicalExpr.Nary)
    (x y : LogicalExpr.LValue Atom) (h : LogicalExpr.Heap Atom) :
  (LogicalExpr._args_ orig < List.length h)%nat ->
  LogicalExpr._nargs orig
  = List.length (LogicalExpr.heap_get h (LogicalExpr._args_ orig)) ->
  let first := LogicalExpr._add_to_and_or_expression orig x h in
  let second := LogicalExpr._add_to_and_or_expression orig y (snd first) in
  LogicalExpr.args (fst second) (snd second)
  = LogicalExpr.args orig h
    ++ LogicalExpr.spliced (LogicalExpr.cls orig) h x
    ++ LogicalExpr.spliced (LogicalExpr.cls orig) (snd first) y
  /\ LogicalExpr.args (fst first) (snd second)
     = LogicalExpr.args orig h ++ LogicalExpr.spliced (LogicalExpr.cls orig) h x
  /\ LogicalExpr.args orig (snd second) = LogicalExpr.args orig h.
Proof.
  intros Hr Htight first second. subst second first.
  rewrite (add_to_and_or_expression_out orig x h Hr).
  cbn [fst snd].
  set (l := LogicalExpr.heap_get h (LogicalExpr._args_ orig)) in *.
  set (ax := LogicalExpr.spliced (LogicalExpr.cls orig) h x).
  set (h1 := LogicalExpr.heap_set h (LogicalExpr._args_ orig) (l ++ ax)).
  assert (Hr1 : (LogicalExpr._args_ orig < List.length h1)%nat)
    by (subst h1; rewrite heap_set_length; exact Hr).
  assert (Hl1 : LogicalExpr.heap_get h1 (LogicalExpr._args_ orig) = l ++ ax)
    by (subst h1; apply heap_get_set_same; exact Hr).
  rewrite (add_to_and_or_expression_out orig y h1 Hr1).
  cbn [fst snd]. rewrite Hl1.
  set (ay := LogicalExpr.spliced (LogicalExpr.cls orig) h1 y).
  assert (Hargs : LogicalExpr.args orig h = l)
    by (unfold LogicalExpr.args; rewrite Htight; apply firstn_all).
  unfold LogicalExpr.args at 1 3 5.
  cbn [LogicalExpr._args_ LogicalExpr._nargs].
  rewrite heap_get_set_same by exact Hr1.
  rewrite Hargs.
  split; [ rewrite firstn_all, app_assoc; reflexivity | ].
  split.
  - rewrite firstn_app_exact. reflexivity.
  - rewrite Htight. fold l. rewrite <- app_assoc. apply firstn_app_exact.
Qed.

Lemma add_twice_to_one_expression_witness :
  LogicalExpr.args
    (fst (LogicalExpr._add_to_and_or_expression
            {| LogicalExpr.cls := LogicalExpr.AndExpression;
               LogicalExpr._args_ := 0; LogicalExpr._nargs := 1 |}
            (LogicalExpr.LObject "Y3")
            (snd (LogicalExpr._add_to_and_or_expression
                    {| LogicalExpr.cls := LogicalExpr.AndExpression;
                       LogicalExpr._args_ := 0; LogicalExpr._nargs := 1 |}
                    (LogicalExpr.LObject "Y2") [[LogicalExpr.LObject "Y1"]]))))
    (snd (LogicalExpr._add_to_and_or_expression
            {| LogicalExpr.cls := LogicalExpr.AndExpression;
               LogicalExpr._args_ := 0; LogicalExpr._nargs := 1 |}
            (LogicalExpr.LObject "Y3")
            (snd (LogicalExpr._add_to_and_or_expression
                    {| LogicalExpr.cls := LogicalExpr.AndExpression;
                       LogicalExpr._args_ := 0; LogicalExpr._nargs := 1 |}
                    (LogicalExpr.LObject "Y2") [[LogicalExpr.LObject "Y1"]]))))
  = [LogicalExpr.LObject "Y1"; LogicalExpr.LObject "Y2"; LogicalExpr.LObject "Y3"].
Proof.
  refine (proj1 (@add_twice_to_one_expression string
                   {| LogicalExpr.cls := LogicalExpr.AndExpression;
                      LogicalExpr._args_ := 0; LogicalExpr._nargs := 1 |}
                   (LogicalExpr.LObject "Y2") (LogicalExpr.LObject "Y3")
                   [[LogicalExpr.LObject "Y1"]] _ eq_refl)).
  cbn. lia.
Defined.

(** ** [land] and [lor] (lines 521-538) *)
Section Flatten.
Import LogicalExpr.
Variable Atom : Type.
Variable other_add :
  LogicalExpr.LValue Atom -> LogicalExpr.LValue Atom -> LogicalExpr.Heap Atom ->
  Result (LogicalExpr.LValue Atom * LogicalExpr.Heap Atom).

(** The class of [land] with its neutral value [True], or the class of
    [lor] with its neutral value [False]. *)
Variable c : NaryClass.
Variable neutral : bool.
Hypothesis and_or :
  (c = AndExpression /\ neutral = true) \/ (c = OrExpression /\ neutral = false).

Lemma add_and_or (e : Nary) (a : LogicalExpr.LValue Atom)
    (h : LogicalExpr.Heap Atom) :
  cls e = c ->
  add other_add (LNary Atom e) a h
  = Ok (if is_native_bool neutral a then (LNary Atom e, h)
        else if is_native_bool (negb neutral) a
        then (BooleanConstant Atom (negb neutral), h)
        else (LNary Atom (fst (_add_to_and_or_expression e a h)),
              snd (_add_to_and_or_expression e a h))).
Proof.
  intros Hc. unfold add. rewrite Hc.
  destruct and_or as [[-> ->] | [-> ->]];
    unfold AndExpression_add, OrExpression_add;
    destruct a as [[ | ] | b | e' | v]; cbn [is_native_bool Bool.eqb negb];
    try reflexivity;
    destruct (_add_to_and_or_expression e _ h); reflexivity.
Qed.

Lemma spliced_old (h : LogicalExpr.Heap Atom) (acc : list (LogicalExpr.LValue Atom))
    (a : LogicalExpr.LValue Atom) :
  match a with
  | LNary _ e => (_args_ e < List.length h)%nat
  | _ => True
  end ->
  spliced c (h ++ [acc]) a = spliced c h a.
Proof.
  destruct a as [b | b | e | v]; try reflexivity.
  intros He. unfold spliced, args. rewrite heap_get_old by exact He.
  reflexivity.
Qed.

Lemma add_all_flattens (l : list (LogicalExpr.LValue Atom)) :
  forall (h : LogicalExpr.Heap Atom) (acc : list (LogicalExpr.LValue Atom)),
    Forall (fun a => match a with
                     | LNary _ e => (_args_ e < List.length h)%nat
                     | _ => True
                     end) l ->
    existsb (is_native_bool (negb neutral)) l = false ->
    add_all other_add
      (LNary Atom {| cls := c; _args_ := List.length h;
                     _nargs := List.length acc |})
      l (h ++ [acc])
    = Ok (LNary Atom
            {| cls := c; _args_ := List.length h;
               _nargs :=
                 List.length
                   (acc ++ flat_map (spliced c h)
                             (filter (fun a => negb (is_native_bool neutral a)) l)) |},
          h ++ [acc ++ flat_map (spliced c h)
                         (filter (fun a => negb (is_native_bool neutral a)) l)]).
Proof.
  induction l as [ | a l IH ]; intros h acc Hwf Habs.
  - cbn [add_all filter flat_map]. rewrite app_nil_r. reflexivity.
  - cbn [add_all]. rewrite add_and_or by reflexivity.
    inversion Hwf as [ | a' l' Ha Hl ]; subst a' l'.
    cbn [existsb] in Habs. apply orb_false_iff in Habs.
    destruct Habs as [Ha_abs Hl_abs].
    cbn [filter]. rewrite Ha_abs.
    destruct (is_native_bool neutral a) eqn:Hneutral; cbn [negb].
    + apply IH; assumption.
    + rewrite add_to_and_or_expression_out
        by (cbn [_args_]; rewrite length_app; cbn; lia).
      cbn [fst snd cls _args_ flat_map].
      rewrite heap_get_new, heap_set_new, spliced_old by exact Ha.
      rewrite (IH h (acc ++ spliced c h a) Hl Hl_abs).
      rewrite <- !app_assoc. reflexivity.
Qed.

Lemma add_all_app (r : LogicalExpr.LValue Atom)
    (l1 l2 : list (LogicalExpr.LValue Atom)) :
  forall h,
    add_all other_add r (l1 ++ l2) h
    = match add_all other_add r l1 h with
      | Ok (r', h') => add_all other_add r' l2 h'
      | Raise e => Raise e
      end.
Proof.
  revert r. induction l1 as [ | a l1 IH ]; intros r h; cbn [add_all app].
  - reflexivity.
  - destruct (add other_add r a h) as [[r' h'] | e]; [ apply IH | reflexivity ].
Qed.

(** The loop of [land] and [lor] from the new, empty expression. *)
Lemma loop_flattens (l : list (LogicalExpr.LValue Atom))
    (h : LogicalExpr.Heap Atom) :
  Forall (fun a => match a with
                   | LNary _ e => (_args_ e < List.length h)%nat
                   | _ => True
                   end) l ->
  let rest := flat_map (spliced c h)
                (filter (fun a => negb (is_native_bool neutral a)) l) in
  (existsb (is_native_bool (negb neutral)) l = false ->
   add_all other_add (LNary Atom (fst (Nary_new c [] h))) l (snd (Nary_new c [] h))
   = Ok (LNary Atom {| cls := c; _args_ := List.length h;
                      _nargs := List.length rest |},
         h ++ [rest]))
  /\ (existsb (is_native_bool (negb neutral)) l = false ->
      add_all other_add (LNary Atom (fst (Nary_new c [] h)))
        (l ++ [LNative Atom (negb neutral)]) (snd (Nary_new c [] h))
      = Ok (BooleanConstant Atom (negb neutral), h ++ [rest])).
Proof.
  intros Hwf rest.
  assert (Hnew : Nary_new c [] h
                 = ({| cls := c; _args_ := List.length h;
                       _nargs := @List.length (LogicalExpr.LValue Atom) [] |},
                    h ++ [[]])).
  { unfold Nary_new, Nary_init. rewrite heap_get_new. reflexivity. }
  rewrite Hnew. cbn [fst snd].
  split; intros Habs.
  - rewrite (add_all_flattens h [] Hwf Habs). reflexivity.
  - rewrite add_all_app, (add_all_flattens h [] Hwf Habs).
    cbn [add_all app]. rewrite add_and_or by reflexivity.
    cbn [is_native_bool]. rewrite Bool.eqb_reflx.
    destruct neutral; reflexivity.
Qed.

End Flatten.

(** X27.  [land] and [lor] flatten their arguments into one new
    expression.  Let every n-ary expression among the flattened
    arguments exist already.  If none of them is the native [False],
    [land] returns a new [AndExpression] over a new list: the flattened
    arguments in order, the native [True]s left out, and every
    [AndExpression] among them replaced by its own arguments; no list
    that existed changes.  With one more argument, a native [False] at
    the end, it returns [BooleanConstant(False)].  [lor] does the same
    with [OrExpression] and the roles of [True] and [False]
    exchanged. *)
Theorem land_and_lor_flatten
    (Atom : Type)
    (other_add :
       LogicalExpr.LValue Atom -> LogicalExpr.LValue Atom ->
       LogicalExpr.Heap Atom ->
       LogicalExpr.Result (LogicalExpr.LValue Atom * LogicalExpr.Heap Atom))
    (arguments : list (LogicalExpr.Argument Atom)) (h : LogicalExpr.Heap Atom) :
  let l := LogicalExpr._flattened arguments in
  let conjuncts :=
    flat_map (LogicalExpr.spliced LogicalExpr.AndExpression h)
      (filter (fun a => negb (LogicalExpr.is_native_bool true a)) l) in
  let disjuncts :=
    flat_map (LogicalExpr.spliced LogicalExpr.OrExpression h)
      (filter (fun a => negb (LogicalExpr.is_native_bool false a)) l) in
  Forall (fun a => match a with
                   | LogicalExpr.LNary _ e =>
                       (LogicalExpr._args_ e < List.length h)%nat
                   | _ => True
                   end) l ->
  (existsb (LogicalExpr.is_native_bool false) l = false ->
   LogicalExpr.land other_add arguments h
   = LogicalExpr.Ok
       (LogicalExpr.LNary Atom
          {| LogicalExpr.cls := LogicalExpr.AndExpression;
             LogicalExpr._args_ := List.length h;
             LogicalExpr._nargs := List.length conjuncts |},
        h ++ [conjuncts])
   /\ LogicalExpr.land other_add
        (arguments ++ [LogicalExpr.One (LogicalExpr.LNative Atom false)]) h
      = LogicalExpr.Ok (LogicalExpr.BooleanConstant Atom false, h ++ [conjuncts]))
  /\ (existsb (LogicalExpr.is_native_bool true) l = false ->
      LogicalExpr.lor other_add arguments h
      = LogicalExpr.Ok
          (LogicalExpr.LNary Atom
             {| LogicalExpr.cls := LogicalExpr.OrExpression;
                LogicalExpr._args_ := List.length h;
                LogicalExpr._nargs := List.length disjuncts |},
           h ++ [disjuncts])
      /\ LogicalExpr.lor other_add
           (arguments ++ [LogicalExpr.One (LogicalExpr.LNative Atom true)]) h
         = LogicalExpr.Ok (LogicalExpr.BooleanConstant Atom true, h ++ [disjuncts])).
Proof.
  intros l conjuncts disjuncts Hwf. subst conjuncts disjuncts.
  assert (Hlast : forall v,
            LogicalExpr._flattened (arguments ++ [LogicalExpr.One v]) = l ++ [v]).
  { intros v. unfold LogicalExpr._flattened. rewrite flat_map_app.
    cbn [flat_map app]. reflexivity. }
  assert (Hland : forall args0,
            LogicalExpr.land other_add args0 h
            = LogicalExpr.add_all other_add
                (LogicalExpr.LNary Atom
                   (fst (LogicalExpr.Nary_new LogicalExpr.AndExpression [] h)))
                (LogicalExpr._flattened args0)
                (snd (LogicalExpr.Nary_new LogicalExpr.AndExpression [] h)))
    by (intros args0; unfold LogicalExpr.land;
        destruct (LogicalExpr.Nary_new LogicalExpr.AndExpression [] h);
        reflexivity).
  assert (Hlor : forall args0,
            LogicalExpr.lor other_add args0 h
            = LogicalExpr.add_all other_add
                (LogicalExpr.LNary Atom
                   (fst (LogicalExpr.Nary_new LogicalExpr.OrExpression [] h)))
                (LogicalExpr._flattened args0)
                (snd (LogicalExpr.Nary_new LogicalExpr.OrExpression [] h)))
    by (intros args0; unfold LogicalExpr.lor;
        destruct (LogicalExpr.Nary_new LogicalExpr.OrExpression [] h);
        reflexivity).
  split; intros Habs.
  - destruct (@loop_flattens Atom other_add LogicalExpr.AndExpression true
                (or_introl (conj eq_refl eq_refl)) l h Hwf) as [Hall Hfalse].
    rewrite !Hland, Hlast. split; [ apply Hall | apply Hfalse ]; exact Habs.
  - destruct (@loop_flattens Atom other_add LogicalExpr.OrExpression false
                (or_intror (conj eq_refl eq_refl)) l h Hwf) as [Hall Htrue].
    rewrite !Hlor, Hlast. split; [ apply Hall | apply Htrue ]; exact Habs.
Qed.

Lemma land_and_lor_flatten_witness :
  LogicalExpr.land (fun _ _ _ => LogicalExpr.Raise LogicalExpr.TypeError)
    [ LogicalExpr.One (LogicalExpr.LObject "Y1");
      LogicalExpr.One (LogicalExpr.LNative string true);
      LogicalExpr.Many [LogicalExpr.LObject "Y2"; LogicalExpr.LObject "Y3"] ]
    []
  = LogicalExpr.Ok
      (LogicalExpr.LNary string
         {| LogicalExpr.cls := LogicalExpr.AndExpression;
            LogicalExpr._args_ := 0; LogicalExpr._nargs := 3 |},
       [[LogicalExpr.LObject "Y1"; LogicalExpr.LObject "Y2";
         LogicalExpr.LObject "Y3"]]).
Proof.
  refine (proj1 (proj1 (@land_and_lor_flatten string
                          (fun _ _ _ => LogicalExpr.Raise LogicalExpr.TypeError)
                          [ LogicalExpr.One (LogicalExpr.LObject "Y1");
                            LogicalExpr.One (LogicalExpr.LNative string true);
                            LogicalExpr.Many [LogicalExpr.LObject "Y2";
                                              LogicalExpr.LObject "Y3"] ]
                          [] _) eq_refl)).
  repeat constructor.
Defined.
